(** * CasADi code generator and custom IO schemes: a shallow embedding

    The development follows two translation units of the repository:

    - [symbolic/fx/io_scheme_internal.cpp]: [IOSchemeCustomInternal], a list
      of entry names with a name-to-index map;
    - [casadi/core/code_generator.cpp]: [CodeGenerator], the engine that
      accumulates the text of a generated C module (constant pools, include
      and external-declaration sets, auxiliary routines specialised from
      templates, registered functions, the indenting text buffer).

    C++ exceptions ([casadi_assert], [casadi_error]) are values of [result];
    the members of a [CodeGenerator] object are the fields of a record that is
    passed through every operation. *)

From Stdlib Require Import ZArith Lia Ascii String DecimalString.
From stdpp Require Import base option list gmap strings.

Local Open Scope Z_scope.

(** ** Results of operations that may throw *)

(** An operation returns a value, throws ([casadi_assert], [casadi_error],
    [std::out_of_range]) or, for a loop that never exits, does not return. *)
Inductive result (A : Type) : Type :=
| Ok (a : A)
| Error (msg : string)
| Diverges.
Arguments Ok {A} a.
Arguments Error {A} msg.
Arguments Diverges {A}.

#[global] Instance result_ret : MRet result := fun _ a => Ok a.
#[global] Instance result_bind : MBind result := fun _ _ k r =>
  match r with
  | Ok a => k a
  | Error msg => Error msg
  | Diverges => Diverges
  end.

Definition is_error {A} (r : result A) : Prop :=
  match r with Error _ => True | _ => False end.

(** [operator<<] of an [int] on a stream: its decimal digits. *)
Definition str (n : Z) : string := NilZero.string_of_int (Z.to_int n).

(** ** [IOSchemeCustomInternal] *)

Module IOSchemeCustom.

Record t : Type := mk {
  entries_ : list string;
  entrymap_ : gmap string Z
}.

(** The constructor's loop [entrymap_[entries[i]] = i], from index [i] on. *)
Fixpoint fill_entrymap (entries : list string) (i : Z) (m : gmap string Z)
  : gmap string Z :=
  match entries with
  | [] => m
  | e :: rest => fill_entrymap rest (i + 1) (<[e := i]> m)
  end.

Definition IOSchemeCustomInternal (entries : list string) : t :=
  mk entries (fill_entrymap entries 0 ∅).

Definition size (s : t) : Z := Z.of_nat (length (entries_ s)).

Fixpoint entryNames_from (first : bool) (l : list string) : string :=
  match l with
  | [] => ""
  | e :: rest =>
      (if first then "" else ", ") +:+ e +:+ entryNames_from false rest
  end.

Definition entryNames (s : t) : string := entryNames_from true (entries_ s).

Definition entry (s : t) (i : Z) : result string :=
  if (0 <=? i) && (i <? size s) then
    match entries_ s !! Z.to_nat i with
    | Some e => Ok e
    | None => Error "customIO::entry(): out of range"
    end
  else
    Error ("customIO::entry(): requesting entry for index " +:+ str i
           +:+ ", but IOScheme is only length " +:+ str (size s)).

Definition index (s : t) (name : string) : result Z :=
  match entrymap_ s !! name with
  | Some i => Ok i
  | None =>
      Error ("customIO::index(): entry '" +:+ name
             +:+ "' not available. Available entries are " +:+ entryNames s)
  end.

End IOSchemeCustom.

(** ** Doubles

    A [double] is its 64-bit IEEE-754 binary64 pattern: bit 63 is the sign,
    bits 52..62 the biased exponent, bits 0..51 the fraction.  This is the
    view [CodeGenerator::hash] takes of a vector of doubles
    ([reinterpret_cast<const size_t*>]); comparisons and conversions are
    defined on the value the pattern denotes. *)

Module Double.

Record t : Type := of_bits { bits : Z }.

#[global] Instance t_eq_dec : EqDecision t.
Proof. solve_decision. Defined.

Definition sign (v : t) : bool := Z.testbit (bits v) 63.
Definition biased_exponent (v : t) : Z := Z.land (Z.shiftr (bits v) 52) 2047.
Definition fraction (v : t) : Z := Z.land (bits v) (2 ^ 52 - 1).

Definition isnan (v : t) : bool :=
  (biased_exponent v =? 2047) && negb (fraction v =? 0).
Definition isinf (v : t) : bool :=
  (biased_exponent v =? 2047) && (fraction v =? 0).

(** A finite pattern denotes [(-1)^sign * mantissa * 2^exponent]. *)
Definition mantissa (v : t) : Z :=
  if biased_exponent v =? 0 then fraction v else fraction v + 2 ^ 52.
Definition exponent (v : t) : Z :=
  if biased_exponent v =? 0 then -1074 else biased_exponent v - 1075.

(** The denoted value times [2^1074], an integer since [-1074 <= exponent]. *)
Definition scaled (v : t) : Z :=
  (if sign v then -1 else 1) * mantissa v * 2 ^ (exponent v + 1074).

Inductive value : Type :=
| NaN
| Inf (negative : bool)
| Fin (scaled_by_2p1074 : Z).

#[global] Instance value_eq_dec : EqDecision value.
Proof. solve_decision. Defined.

Definition classify (v : t) : value :=
  if isnan v then NaN
  else if isinf v then Inf (sign v)
  else Fin (scaled v).

Definition unit_scaled : Z := 2 ^ 1074.

(** [a == b]: false when either side is NaN, otherwise equality of the
    denoted values (so [0.0 == -0.0]). *)
Definition eqb (a b : t) : bool :=
  match classify a, classify b with
  | NaN, _ | _, NaN => false
  | x, y => bool_decide (x = y)
  end.

(** [v < 0]. *)
Definition ltb_zero (v : t) : bool :=
  match classify v with
  | NaN => false
  | Inf negative => negative
  | Fin x => x <? 0
  end.

(** The value is a whole number. *)
Definition is_integral (v : t) : bool :=
  match classify v with
  | Fin x => x mod unit_scaled =? 0
  | _ => false
  end.

(** Truncation toward zero of a finite value. *)
Definition truncate (v : t) : Z := Z.quot (scaled v) unit_scaled.

Definition INT_MIN : Z := - 2 ^ 31.
Definition INT_MAX : Z := 2 ^ 31 - 1.

Definition fits_int (n : Z) : bool := (INT_MIN <=? n) && (n <=? INT_MAX).

(** Some [int]: the two's complement reading of the low 32 bits. *)
Definition as_int (n : Z) : Z := (n + 2 ^ 31) mod 2 ^ 32 - 2 ^ 31.

(** [int(v)] for a finite [v].  The conversion truncates; when the truncated
    value is not representable the C++ standard leaves the behaviour
    undefined, and the model takes whatever [int] the platform produces
    ([unrepresentable v], e.g. [INT_MIN] on x86). *)
Definition to_int (unrepresentable : t -> Z) (v : t) : Z :=
  if fits_int (truncate v) then truncate v else as_int (unrepresentable v).

(** [n == v] for an [int n]: [n] converts to double exactly and the values
    are compared. *)
Definition int_eqb (n : Z) (v : t) : bool :=
  bool_decide (classify v = Fin (n * unit_scaled)).

End Double.

Abbreviation double := Double.t.

Section Constant.

(** The text [operator<<] writes for a double under [std::scientific] with
    precision [numeric_limits<double>::digits10 + 1], a service of the C++
    stream library. *)
Variable scientific : double -> string.
Variable unrepresentable : double -> Z.

(** [CodeGenerator::constant(double)] *)
Definition constant_double (v : double) : string :=
  if Double.isnan v then "NAN"
  else if Double.isinf v then
    (if Double.ltb_zero v then "-" else "") +:+ "INFINITY"
  else
    let v_int := Double.to_int unrepresentable v in
    if Double.int_eqb v_int v then str v_int +:+ "."
    else scientific v.

End Constant.

(** ** [std::string] members used by the generator

    Positions and lengths are [size_t] values, numbers below [2^64];
    [npos] is the largest of them and [n + 1], [n2 - n1 - 1] wrap around. *)

Module Str.

Definition npos : Z := 2 ^ 64 - 1.
Definition wrap (n : Z) : Z := n mod 2 ^ 64.

Definition size (s : string) : Z := Z.of_nat (String.length s).

(** [s.find(pat, pos)] *)
Definition find (s pat : string) (pos : Z) : Z :=
  if size s <? pos then npos
  else match String.index (Z.to_nat pos) pat s with
       | Some n => Z.of_nat n
       | None => npos
       end.

(** [s.find(pat) == 0] *)
Definition starts_with (s pat : string) : bool := find s pat 0 =? 0.

(** [s.substr(pos, len)], which throws when [pos > size()]. *)
Definition substr (s : string) (pos len : Z) : result string :=
  if size s <? pos then Error "basic_string::substr"
  else Ok (String.substring (Z.to_nat pos)
             (Z.to_nat (Z.min len (size s - pos))) s).

(** [s.erase(pos)] for [pos <= size()]: the first [pos] characters. *)
Definition erase (s : string) (pos : Z) : string :=
  String.substring 0 (Z.to_nat pos) s.

(** [s.max_size()], the length of the longest string: the value of
    libstdc++ on a 64-bit target.  Where the memory ends before that length
    is reached, [std::bad_alloc] takes the place of [std::length_error]; the
    two are not told apart. *)
Definition max_size : Z := 2 ^ 62 - 1.

(** [s] with the [len] characters from [pos] on replaced by [sub], for
    [pos + len <= size()]. *)
Definition splice (s : string) (pos len : Z) (sub : string) : string :=
  String.substring 0 (Z.to_nat pos) s +:+ sub
  +:+ String.substring (Z.to_nat (pos + len))
        (String.length s - Z.to_nat (pos + len)) s.

Definition out_of_range : string := "std::out_of_range".
Definition length_error : string := "std::length_error".

(** [s.replace(pos, len, sub)]: at most the characters up to the end of
    [s] are replaced; throws [std::out_of_range] when [pos > size()] and
    [std::length_error] when the result would be longer than
    [max_size()]. *)
Definition replace (s : string) (pos len : Z) (sub : string)
  : result string :=
  if size s <? pos then Error out_of_range
  else
    let len := Z.min len (size s - pos) in
    if max_size <? size s - len + size sub then Error length_error
    else Ok (splice s pos len sub).

Fixpoint find_last_not_of_from (c : ascii) (s : string) (i last : Z) : Z :=
  match s with
  | EmptyString => last
  | String a s' =>
      find_last_not_of_from c s' (i + 1) (if Ascii.eqb a c then last else i)
  end.

(** [s.find_last_not_of(c)] *)
Definition find_last_not_of (s : string) (c : ascii) : Z :=
  find_last_not_of_from c s 0 npos.

(** [string(n, ' ')] *)
Definition spaces (n : Z) : string :=
  string_of_list_ascii (repeat " "%char (Z.to_nat n)).

Definition newline : ascii := ascii_of_nat 10.
Definition endl : string := String newline EmptyString.
Definition quote : string := String (ascii_of_nat 34) EmptyString.

(** The lines that successive [std::getline] calls extract from a stream
    over [s]; [line] holds the characters read for the line in progress.
    A last line without newline is extracted when it is not empty. *)
Fixpoint getlines (s line : string) : list string :=
  match s with
  | EmptyString => if String.eqb line "" then [] else [line]
  | String c s' =>
      if Ascii.eqb c newline then line :: getlines s' ""
      else getlines s' (line +:+ String c EmptyString)
  end.

End Str.

(** ** The catalogue of auxiliary routines *)

Inductive Auxiliary : Type :=
| AUX_COPY | AUX_SWAP | AUX_SCAL | AUX_AXPY | AUX_DOT | AUX_BILIN
| AUX_RANK1 | AUX_IAMAX | AUX_INTERPN | AUX_INTERPN_GRAD | AUX_DE_BOOR
| AUX_ND_BOOR_EVAL | AUX_FLIP | AUX_LOW | AUX_INTERPN_WEIGHTS
| AUX_INTERPN_INTERPOLATE | AUX_NORM_1 | AUX_NORM_2 | AUX_NORM_INF
| AUX_FILL | AUX_MV | AUX_MV_DENSE | AUX_MTIMES | AUX_PROJECT
| AUX_DENSIFY | AUX_TRANS | AUX_TO_MEX | AUX_FROM_MEX | AUX_FINITE_DIFF.

#[global] Instance Auxiliary_eq_dec : EqDecision Auxiliary.
Proof. solve_decision. Defined.

(** ** The state of a [CodeGenerator] *)

(** A [Function] is a shared handle; [==] compares the node it points to. *)
Definition Function : Type := nat.

Record FunctionMeta : Type := mkFunctionMeta {
  f : Function;
  codegen_name : string
}.

Record CodeGenerator : Type := mkCodeGenerator {
  indent_ : Z;
  newline_ : bool;
  current_indent_ : Z;
  buffer : string;
  includes : string;
  auxiliaries : string;
  body : string;
  added_includes_ : gset string;
  added_externals_ : gset string;
  added_shorthands_ : gset string;
  (* multimaps, in the order of insertion *)
  added_auxiliaries_ : list (Auxiliary * list string);
  added_double_constants_ : list (Z * Z);
  added_integer_constants_ : list (Z * Z);
  added_functions_ : list FunctionMeta;
  double_constants_ : list (list double);
  integer_constants_ : list (list Z)
}.

Definition set_newline_ (x : bool) (g : CodeGenerator) : CodeGenerator :=
  mkCodeGenerator (indent_ g) x (current_indent_ g) (buffer g) (includes g)
    (auxiliaries g) (body g) (added_includes_ g) (added_externals_ g)
    (added_shorthands_ g) (added_auxiliaries_ g) (added_double_constants_ g)
    (added_integer_constants_ g) (added_functions_ g) (double_constants_ g)
    (integer_constants_ g).

Definition set_current_indent_ (x : Z) (g : CodeGenerator) : CodeGenerator :=
  mkCodeGenerator (indent_ g) (newline_ g) x (buffer g) (includes g)
    (auxiliaries g) (body g) (added_includes_ g) (added_externals_ g)
    (added_shorthands_ g) (added_auxiliaries_ g) (added_double_constants_ g)
    (added_integer_constants_ g) (added_functions_ g) (double_constants_ g)
    (integer_constants_ g).

Definition set_buffer (x : string) (g : CodeGenerator) : CodeGenerator :=
  mkCodeGenerator (indent_ g) (newline_ g) (current_indent_ g) x (includes g)
    (auxiliaries g) (body g) (added_includes_ g) (added_externals_ g)
    (added_shorthands_ g) (added_auxiliaries_ g) (added_double_constants_ g)
    (added_integer_constants_ g) (added_functions_ g) (double_constants_ g)
    (integer_constants_ g).

Definition set_includes (x : string) (g : CodeGenerator) : CodeGenerator :=
  mkCodeGenerator (indent_ g) (newline_ g) (current_indent_ g) (buffer g) x
    (auxiliaries g) (body g) (added_includes_ g) (added_externals_ g)
    (added_shorthands_ g) (added_auxiliaries_ g) (added_double_constants_ g)
    (added_integer_constants_ g) (added_functions_ g) (double_constants_ g)
    (integer_constants_ g).

Definition set_auxiliaries (x : string) (g : CodeGenerator) : CodeGenerator :=
  mkCodeGenerator (indent_ g) (newline_ g) (current_indent_ g) (buffer g)
    (includes g) x (body g) (added_includes_ g) (added_externals_ g)
    (added_shorthands_ g) (added_auxiliaries_ g) (added_double_constants_ g)
    (added_integer_constants_ g) (added_functions_ g) (double_constants_ g)
    (integer_constants_ g).

Definition set_body (x : string) (g : CodeGenerator) : CodeGenerator :=
  mkCodeGenerator (indent_ g) (newline_ g) (current_indent_ g) (buffer g)
    (includes g) (auxiliaries g) x (added_includes_ g) (added_externals_ g)
    (added_shorthands_ g) (added_auxiliaries_ g) (added_double_constants_ g)
    (added_integer_constants_ g) (added_functions_ g) (double_constants_ g)
    (integer_constants_ g).

Definition set_added_includes_ (x : gset string) (g : CodeGenerator)
  : CodeGenerator :=
  mkCodeGenerator (indent_ g) (newline_ g) (current_indent_ g) (buffer g)
    (includes g) (auxiliaries g) (body g) x (added_externals_ g)
    (added_shorthands_ g) (added_auxiliaries_ g) (added_double_constants_ g)
    (added_integer_constants_ g) (added_functions_ g) (double_constants_ g)
    (integer_constants_ g).

Definition set_added_externals_ (x : gset string) (g : CodeGenerator)
  : CodeGenerator :=
  mkCodeGenerator (indent_ g) (newline_ g) (current_indent_ g) (buffer g)
    (includes g) (auxiliaries g) (body g) (added_includes_ g) x
    (added_shorthands_ g) (added_auxiliaries_ g) (added_double_constants_ g)
    (added_integer_constants_ g) (added_functions_ g) (double_constants_ g)
    (integer_constants_ g).

Definition set_added_shorthands_ (x : gset string) (g : CodeGenerator)
  : CodeGenerator :=
  mkCodeGenerator (indent_ g) (newline_ g) (current_indent_ g) (buffer g)
    (includes g) (auxiliaries g) (body g) (added_includes_ g)
    (added_externals_ g) x (added_auxiliaries_ g) (added_double_constants_ g)
    (added_integer_constants_ g) (added_functions_ g) (double_constants_ g)
    (integer_constants_ g).

Definition set_added_auxiliaries_ (x : list (Auxiliary * list string))
  (g : CodeGenerator) : CodeGenerator :=
  mkCodeGenerator (indent_ g) (newline_ g) (current_indent_ g) (buffer g)
    (includes g) (auxiliaries g) (body g) (added_includes_ g)
    (added_externals_ g) (added_shorthands_ g) x (added_double_constants_ g)
    (added_integer_constants_ g) (added_functions_ g) (double_constants_ g)
    (integer_constants_ g).

Definition set_double_pool (c : list (list double)) (a : list (Z * Z))
  (g : CodeGenerator) : CodeGenerator :=
  mkCodeGenerator (indent_ g) (newline_ g) (current_indent_ g) (buffer g)
    (includes g) (auxiliaries g) (body g) (added_includes_ g)
    (added_externals_ g) (added_shorthands_ g) (added_auxiliaries_ g) a
    (added_integer_constants_ g) (added_functions_ g) c
    (integer_constants_ g).

Definition set_integer_pool (c : list (list Z)) (a : list (Z * Z))
  (g : CodeGenerator) : CodeGenerator :=
  mkCodeGenerator (indent_ g) (newline_ g) (current_indent_ g) (buffer g)
    (includes g) (auxiliaries g) (body g) (added_includes_ g)
    (added_externals_ g) (added_shorthands_ g) (added_auxiliaries_ g)
    (added_double_constants_ g) a (added_functions_ g) (double_constants_ g)
    c.

Definition set_added_functions_ (x : list FunctionMeta) (g : CodeGenerator)
  : CodeGenerator :=
  mkCodeGenerator (indent_ g) (newline_ g) (current_indent_ g) (buffer g)
    (includes g) (auxiliaries g) (body g) (added_includes_ g)
    (added_externals_ g) (added_shorthands_ g) (added_auxiliaries_ g)
    (added_double_constants_ g) (added_integer_constants_ g) x
    (double_constants_ g) (integer_constants_ g).

(** A member function: it runs on the object and leaves it changed, also
    when it throws (the state is the one reached at the [throw]). *)
Definition M (A : Type) : Type := CodeGenerator -> result A * CodeGenerator.

#[global] Instance M_ret : MRet M := fun _ a g => (Ok a, g).
#[global] Instance M_bind : MBind M := fun _ _ k c g =>
  match c g with
  | (Ok a, g') => k a g'
  | (Error msg, g') => (Error msg, g')
  | (Diverges, g') => (Diverges, g')
  end.

Definition throw {A} (msg : string) : M A := fun g => (Error msg, g).
Definition diverge {A} : M A := fun g => (Diverges, g).
Definition modify (upd : CodeGenerator -> CodeGenerator) : M unit :=
  fun g => (Ok tt, upd g).
Definition gets {A} (field : CodeGenerator -> A) : M A :=
  fun g => (Ok (field g), g).
Definition lift {A} (r : result A) : M A := fun g => (r, g).

(** The generator of the constructor with default options, before its
    [add_include] calls. *)
Definition CodeGenerator_init (indent : Z) : CodeGenerator :=
  mkCodeGenerator indent true 0 "" "" "" "" ∅ ∅ ∅ [] [] [] [] [] [].

(** ** Includes, external declarations and shorthands *)

Definition append_includes (text : string) : M unit :=
  modify (fun g => set_includes (includes g +:+ text) g).

(** [CodeGenerator::add_include] *)
Definition add_include (new_include : string) (relative_path : bool)
  (use_ifdef : string) : M unit :=
  (* Register the new element *)
  added ← gets (fun g => bool_decide (new_include ∉ added_includes_ g));
  modify (fun g =>
    set_added_includes_ ({[new_include]} ∪ added_includes_ g) g);;
  (* Quick return if it already exists *)
  if negb added then mret tt
  else
    (* Ifdef opening *)
    (if negb (String.eqb use_ifdef "")
     then append_includes ("#ifdef " +:+ use_ifdef +:+ Str.endl)
     else mret tt);;
    (* Print to the header section *)
    (if relative_path
     then append_includes ("#include " +:+ Str.quote +:+ new_include
                           +:+ Str.quote +:+ Str.endl)
     else append_includes ("#include <" +:+ new_include +:+ ">"
                           +:+ Str.endl));;
    (* Ifdef closing *)
    (if negb (String.eqb use_ifdef "")
     then append_includes ("#endif" +:+ Str.endl)
     else mret tt).

(** [CodeGenerator::add_external] *)
Definition add_external (new_external : string) : M unit :=
  modify (fun g =>
    set_added_externals_ ({[new_external]} ∪ added_externals_ g) g).

(** [CodeGenerator::shorthand(name) const] *)
Definition shorthand_get (name : string) : M string :=
  known ← gets (fun g => bool_decide (name ∈ added_shorthands_ g));
  if known : bool then mret ("casadi_" +:+ name)
  else throw ("No such macro: " +:+ name).

(** [CodeGenerator::shorthand(name, allow_adding)] *)
Definition shorthand (name : string) (allow_adding : bool) : M string :=
  added ← gets (fun g => bool_decide (name ∉ added_shorthands_ g));
  modify (fun g =>
    set_added_shorthands_ ({[name]} ∪ added_shorthands_ g) g);;
  if negb allow_adding && negb added
  then throw ("Duplicate macro: " +:+ name)
  else mret ("casadi_" +:+ name).

(** ** The constant pools *)

(** The entries of a [multimap<size_t, V>] with key [k], as [equal_range]
    iterates them: in the order of their insertion. *)
Definition equal_range {K V} `{EqDecision K} (m : list (K * V)) (k : K)
  : list (K * V) :=
  filter (fun e => e.1 = k) m.

Section ConstantPool.

Context {T : Type}.
(** [operator==] on the elements. *)
Variable elt_eqb : T -> T -> bool.

(** Modelled from the spec: [equal] is a template of code_generator.hpp,
    which is not among the sources; it is the test behind "scan the hash
    bucket for an element-wise-equal existing entry": same size and
    equal elements. *)
Fixpoint equal (v1 v2 : list T) : bool :=
  match v1, v2 with
  | [], [] => true
  | x :: v1', y :: v2' => elt_eqb x y && equal v1' v2'
  | _, _ => false
  end.

(** The loop over the bucket: the index of its first entry equal to [v]. *)
Fixpoint locate (v : list T) (constants : list (list T))
  (range : list (Z * Z)) : option Z :=
  match range with
  | [] => None
  | (_, i) :: rest =>
      match constants !! Z.to_nat i with
      | Some w => if equal v w then Some i else locate v constants rest
      | None => locate v constants rest
      end
  end.

(** The body shared by the two [get_constant] overloads, on the vector of
    constants and its hash index. *)
Definition get_constant_in (h : Z) (v : list T) (allow_adding : bool)
  (constants : list (list T)) (added : list (Z * Z))
  : result Z * (list (list T) * list (Z * Z)) :=
  (* Try to locate it in already added constants *)
  match locate v constants (equal_range added h) with
  | Some i => (Ok i, (constants, added))
  | None =>
      if allow_adding then
        (* Add to constants *)
        let ind := Z.of_nat (length constants) in
        (Ok ind, (constants ++ [v], added ++ [(h, ind)]))
      else (Error "Constant not found", (constants, added))
  end.

End ConstantPool.

Section Hashing.

(** [hash_combine(seed, value)] and its overload on a vector of [int], two
    helpers of the library that the sources do not include. *)
Variable hash_combine : Z -> Z -> Z.
Variable hash_combine_vector : Z -> list Z -> Z.

(** [CodeGenerator::hash(const std::vector<double>&)]: the doubles are read
    as [size_t] words, one per double where both have 64 bits. *)
Definition hash_double (v : list double) : Z :=
  fold_left (fun seed d => hash_combine seed (Double.bits d)) v 0.

(** [CodeGenerator::hash(const std::vector<int>&)] *)
Definition hash_int (v : list Z) : Z := hash_combine_vector 0 v.

(** [CodeGenerator::get_constant(const std::vector<double>&, bool)] *)
Definition get_constant_double (v : list double) (allow_adding : bool)
  : M Z := fun g =>
  let out := get_constant_in Double.eqb (hash_double v) v allow_adding
               (double_constants_ g) (added_double_constants_ g) in
  (out.1, set_double_pool out.2.1 out.2.2 g).

(** [CodeGenerator::get_constant(const std::vector<int>&, bool)] *)
Definition get_constant_int (v : list Z) (allow_adding : bool) : M Z :=
  fun g =>
  let out := get_constant_in Z.eqb (hash_int v) v allow_adding
               (integer_constants_ g) (added_integer_constants_ g) in
  (out.1, set_integer_pool out.2.1 out.2.2 g).

End Hashing.

(** ** The indenting buffer *)

(** Modelled from the spec: [indent()] and [unindent()] are inline members
    of code_generator.hpp, which is not among the sources; "Depth rises on
    an opening-brace character and falls on a closing one". *)
Definition indent : M unit :=
  modify (fun g => set_current_indent_ (current_indent_ g + 1) g).
Definition unindent : M unit :=
  modify (fun g => set_current_indent_ (current_indent_ g - 1) g).

Definition append_buffer (text : string) : M unit :=
  modify (fun g => set_buffer (buffer g +:+ text) g).

(** The loop [for (char c : s)] of [print_formatted]. *)
Fixpoint scan_braces (s : string) : M unit :=
  match s with
  | EmptyString => mret tt
  | String c s' =>
      (if Ascii.eqb c "{" then indent
       else if Ascii.eqb c "}" then unindent
       else mret tt);;
      scan_braces s'
  end.

Definition front_is (s : string) (c : ascii) : bool :=
  match s with
  | EmptyString => false
  | String a _ => Ascii.eqb a c
  end.

(** [CodeGenerator::print_formatted] *)
Definition print_formatted (s : string) : M unit :=
  (* Quick return if empty *)
  if String.eqb s "" then mret tt
  else
    (* If new line, add indentation *)
    at_line_start ← gets newline_;
    (if at_line_start : bool then
       let shift := if front_is s "}" then -1 else 0 in
       depth ← gets current_indent_;
       width ← gets indent_;
       if 0 <=? depth + shift then
         append_buffer (Str.spaces (width * (depth + shift)));;
         modify (set_newline_ false)
       else throw "Assertion current_indent_+shift>=0 failed"
     else mret tt);;
    (* Print to body *)
    append_buffer s;;
    (* Brackets change indentation for next row *)
    scan_braces s.

(** [CodeGenerator::operator<<(const string&)]: the text is cut at its
    newline characters; [fragment] is the piece in progress. *)
Fixpoint operator_lshift_from (s fragment : string) : M unit :=
  match s with
  | EmptyString => print_formatted fragment
  | String c s' =>
      if Ascii.eqb c Str.newline then
        print_formatted fragment;;
        append_buffer Str.endl;;
        modify (set_newline_ true);;
        operator_lshift_from s' ""
      else operator_lshift_from s' (fragment +:+ String c EmptyString)
  end.

Definition operator_lshift (s : string) : M unit :=
  operator_lshift_from s "".

(** [flush(this->body)] *)
Definition flush_body : M unit :=
  modify (fun g => set_body (body g +:+ buffer g) g);;
  modify (set_buffer "").

(** The consistency check that opens [CodeGenerator::dump]; what follows it
    reads the object and writes the text of the module. *)
Definition dump_consistency_check : M unit :=
  depth ← gets current_indent_;
  if depth =? 0 then mret tt
  else throw "Assertion current_indent_ == 0 failed".

(** ** Specialising a routine template *)

(** The loop that builds [suffix]: at the first type that is not
    ["casadi_real"], every type of [inst] is appended and the loop ends. *)
Fixpoint make_suffix (rest inst : list string) : string :=
  match rest with
  | [] => ""
  | s :: rest' =>
      if negb (String.eqb s "casadi_real")
      then fold_left (fun suffix s' => suffix +:+ "_" +:+ s') inst ""
      else make_suffix rest' inst
  end.

(** The initial replacements [("T" + str(i+1), inst[i])]. *)
Fixpoint template_parameters (i : Z) (inst : list string)
  : list (string * string) :=
  match inst with
  | [] => []
  | type :: rest => ("T" +:+ str (i + 1), type) :: template_parameters (i + 1) rest
  end.

(** What a turn of a loop ends in: the loop goes on from a new state, or
    it is left with a result. *)
Inductive turn (St Res : Type) : Type :=
| Continue (s : St)
| Exit (r : Res).
Arguments Continue {St Res} s.
Arguments Exit {St Res} r.

(** The depth of the two halves of a loop of depth [S depth]: [depth]
    itself, under a name of its own, which keeps a half folded until its
    turns are asked for. *)
Definition half_depth (depth : nat) : nat := depth.

(** The first [2 ^ depth] turns of the loop with body [body]: twice the
    first [2 ^ depth'] turns, the second half from where the first one
    stops. *)
Fixpoint iterate {St Res} (depth : nat) (body : St -> turn St Res) (s : St)
  : turn St Res :=
  match depth with
  | O => body s
  | S depth' =>
      match iterate (half_depth depth') body s with
      | Continue s' => iterate (half_depth depth') body s'
      | Exit r => Exit r
      end
  end.

(** One turn of the loop [while ((n = line.find(key, n)) != npos)], on the
    line and the position [n]. *)
Definition replace_turn (key sub : string) (state : string * Z)
  : turn (string * Z) (result string) :=
  let n := Str.find state.1 key state.2 in
  if n =? Str.npos then Exit (Ok state.1)
  else
    match Str.replace state.1 n (Str.size key) sub with
    | Ok line => Continue (line, Str.wrap (n + Str.size sub))
    | Error msg => Exit (Error msg)
    | Diverges => Exit Diverges
    end.

(** The loop [while ((n = line.find(key, n)) != npos)] that replaces the
    occurrences of [key] from position [n] on.  A turn that replaces a
    non-empty key shortens what is left of the line to search, and a turn
    that inserts a non-empty text lengthens the line, which [replace] lets
    grow up to [max_size()]: a loop that is left is left within [2 ^ 64]
    turns.  The loop that is not left is the one with an empty key and an
    empty replacement, whose turns change nothing. *)
Definition replace_from (key sub line : string) (n : Z) : result string :=
  match iterate 64 (replace_turn key sub) (line, n) with
  | Exit r => r
  | Continue _ => Diverges
  end.

Definition replace_all (key sub line : string) : result string :=
  replace_from key sub line 0.

Arguments iterate : simpl never.
Arguments replace_from : simpl never.

(** The replacements, applied in the order given (the source walks [rep]
    from its last element to its first). *)
Fixpoint apply_replacements (reversed_rep : list (string * string))
  (line : string) : result string :=
  match reversed_rep with
  | [] => Ok line
  | (key, sub) :: rest =>
      line' ← replace_all key sub line;
      apply_replacements rest line'
  end.

(** The text between the next two double quotes at or after [from], with
    the position [n2] of the second one: [n1] and [n2] are the results of
    [line.find] for a double quote from [from] and from [n1+1], and the text
    is [line.substr(n1+1, n2-n1-1)]. *)
Definition quoted (line : string) (from : Z) : result (string * Z) :=
  let n1 := Str.find line Str.quote from in
  let n2 := Str.find line Str.quote (Str.wrap (n1 + 1)) in
  text ← Str.substr line (Str.wrap (n1 + 1)) (Str.wrap (n2 - n1 - 1));
  Ok (text, n2).

Definition replacements : Type := list (string * string).

(** One turn of the [while (std::getline(stream, line))] loop: the new
    replacement list and the new text of [ret]. *)
Definition sanitize_line (suffix : string) (add_shorthand : bool)
  (line : string) (rep : replacements) (ret : string)
  : M (replacements * string) :=
  (* C++ template declarations are ignored *)
  if Str.starts_with line "template" then mret (rep, ret)
  (* Macro definitions are ignored *)
  else if Str.starts_with line "#define" then mret (rep, ret)
  else if Str.starts_with line "#undef" then mret (rep, ret)
  (* Inline declaration *)
  else if String.eqb line "inline" then mret (rep, ret)
  (* If line starts with "// SYMBOL", add shorthand *)
  else if Str.starts_with line "// SYMBOL" then
    sym ← lift (quoted line 0);
    (if add_shorthand then shorthand (sym.1 +:+ suffix) true;; mret tt
     else mret tt);;
    if negb (String.eqb suffix "")
    then mret (rep ++ [(sym.1, sym.1 +:+ suffix)], ret)
    else mret (rep, ret)
  (* If line starts with "// C-REPLACE", add to list of replacements *)
  else if Str.starts_with line "// C-REPLACE" then
    key ← lift (quoted line 0);
    sub ← lift (quoted line (Str.wrap (key.2 + 1)));
    mret (rep ++ [(key.1, sub.1)], ret)
  else
    (* Ignore other C++ style comment *)
    let n1 := Str.find line "//" 0 in
    let line := if negb (n1 =? Str.npos) then Str.erase line n1 else line in
    (* Remove trailing spaces *)
    let n1 := Str.find_last_not_of line " " in
    if n1 =? Str.npos then mret (rep, ret)
    else
      let line := Str.erase line (n1 + 1) in
      (* Perform string replacements *)
      line ← lift (apply_replacements (rev rep) line);
      (* Append to return *)
      mret (rep, ret +:+ line +:+ Str.endl).

Fixpoint sanitize_lines (suffix : string) (add_shorthand : bool)
  (lines : list string) (rep : replacements) (ret : string) : M string :=
  match lines with
  | [] => mret (ret +:+ Str.endl) (* Trailing newline *)
  | line :: rest =>
      next ← sanitize_line suffix add_shorthand line rep ret;
      sanitize_lines suffix add_shorthand rest next.1 next.2
  end.

(** [CodeGenerator::sanitize_source].  The call [shorthand(sym + suffix)] of
    a non-const member resolves to the overload
    [shorthand(name, allow_adding)].
    Modelled from the spec: the default value of [allow_adding] is declared
    in code_generator.hpp, which is not among the sources; "a directive line
    naming a logical symbol registers a shorthand", so the default adds. *)
Definition sanitize_source (src : string) (inst : list string)
  (add_shorthand : bool) : M string :=
  (* Create suffix if templates type are not all "casadi_real" *)
  let suffix := make_suffix inst inst in
  (* Construct map of name replacements *)
  let rep := template_parameters 0 inst in
  sanitize_lines suffix add_shorthand (Str.getlines src "") rep "".

(** ** Auxiliary routines *)

Section Auxiliaries.

(** The templates [casadi_copy_str], [casadi_swap_str], ... of the generated
    header casadi_runtime_str.h, by kind; and the default argument of
    [add_auxiliary]'s parameter [inst], declared in code_generator.hpp. *)
Variable casadi_str : Auxiliary -> string.
Variable default_inst : list string.

Definition append_auxiliaries (text : string) : M unit :=
  modify (fun g => set_auxiliaries (auxiliaries g +:+ text) g).

(** [this->auxiliaries << sanitize_source(src, inst)] *)
Definition emit_sanitized (src : string) (inst : list string) : M unit :=
  text ← sanitize_source src inst true;
  append_auxiliaries text.

(** [this->auxiliaries << "#ifdef MATLAB_MEX_FILE\n"
                       << sanitize_source(src, inst) << "#endif\n\n"] *)
Definition emit_sanitized_mex (src : string) (inst : list string) : M unit :=
  text ← sanitize_source src inst true;
  append_auxiliaries ("#ifdef MATLAB_MEX_FILE" +:+ Str.endl);;
  append_auxiliaries text;;
  append_auxiliaries ("#endif" +:+ Str.endl +:+ Str.endl).

(** [CodeGenerator::add_auxiliary], with a bound [depth] on the nesting of
    its recursive calls. *)
Fixpoint add_auxiliary_rec (depth : nat) (f : Auxiliary) (inst : list string)
  : M unit :=
  match depth with
  | O => diverge
  | S depth' =>
      let add_auxiliary := add_auxiliary_rec depth' in
      (* Look for existing instantiations, look for duplicates *)
      duplicate ← gets (fun g =>
        existsb (fun it => bool_decide (it.2 = inst))
                (equal_range (added_auxiliaries_ g) f));
      if duplicate : bool then mret tt
      else
        modify (fun g =>
          set_added_auxiliaries_ (added_auxiliaries_ g ++ [(f, inst)]) g);;
        (* Add the appropriate function *)
        match f with
        | AUX_COPY => emit_sanitized (casadi_str AUX_COPY) inst
        | AUX_SWAP => emit_sanitized (casadi_str AUX_SWAP) inst
        | AUX_SCAL => emit_sanitized (casadi_str AUX_SCAL) inst
        | AUX_AXPY => emit_sanitized (casadi_str AUX_AXPY) inst
        | AUX_DOT => emit_sanitized (casadi_str AUX_DOT) inst
        | AUX_BILIN => emit_sanitized (casadi_str AUX_BILIN) inst
        | AUX_RANK1 => emit_sanitized (casadi_str AUX_RANK1) inst
        | AUX_IAMAX => emit_sanitized (casadi_str AUX_IAMAX) inst
        | AUX_INTERPN =>
            add_auxiliary AUX_INTERPN_WEIGHTS default_inst;;
            add_auxiliary AUX_INTERPN_INTERPOLATE default_inst;;
            add_auxiliary AUX_FLIP [];;
            add_auxiliary AUX_FILL default_inst;;
            add_auxiliary AUX_FILL ["int"%string];;
            emit_sanitized (casadi_str AUX_INTERPN) inst
        | AUX_INTERPN_GRAD =>
            add_auxiliary AUX_INTERPN default_inst;;
            emit_sanitized (casadi_str AUX_INTERPN_GRAD) inst
        | AUX_DE_BOOR => emit_sanitized (casadi_str AUX_DE_BOOR) inst
        | AUX_ND_BOOR_EVAL =>
            add_auxiliary AUX_DE_BOOR default_inst;;
            add_auxiliary AUX_FILL default_inst;;
            add_auxiliary AUX_FILL ["int"%string];;
            add_auxiliary AUX_LOW default_inst;;
            emit_sanitized (casadi_str AUX_ND_BOOR_EVAL) inst
        | AUX_FLIP => emit_sanitized (casadi_str AUX_FLIP) inst
        | AUX_LOW => emit_sanitized (casadi_str AUX_LOW) inst
        | AUX_INTERPN_WEIGHTS =>
            add_auxiliary AUX_LOW default_inst;;
            emit_sanitized (casadi_str AUX_INTERPN_WEIGHTS) inst
        | AUX_INTERPN_INTERPOLATE =>
            emit_sanitized (casadi_str AUX_INTERPN_INTERPOLATE) inst
        | AUX_NORM_1 => emit_sanitized (casadi_str AUX_NORM_1) inst
        | AUX_NORM_2 => emit_sanitized (casadi_str AUX_NORM_2) inst
        | AUX_NORM_INF => emit_sanitized (casadi_str AUX_NORM_INF) inst
        | AUX_FILL => emit_sanitized (casadi_str AUX_FILL) inst
        | AUX_MV => emit_sanitized (casadi_str AUX_MV) inst
        | AUX_MV_DENSE => emit_sanitized (casadi_str AUX_MV_DENSE) inst
        | AUX_MTIMES => emit_sanitized (casadi_str AUX_MTIMES) inst
        | AUX_PROJECT => emit_sanitized (casadi_str AUX_PROJECT) inst
        | AUX_DENSIFY =>
            add_auxiliary AUX_FILL default_inst;;
            let inst2 :=
              match inst with
              | [only] => inst ++ [only]
              | _ => inst
              end in
            emit_sanitized (casadi_str AUX_DENSIFY) inst2
        | AUX_TRANS => emit_sanitized (casadi_str AUX_TRANS) inst
        | AUX_TO_MEX => emit_sanitized_mex (casadi_str AUX_TO_MEX) inst
        | AUX_FROM_MEX =>
            add_auxiliary AUX_FILL default_inst;;
            emit_sanitized_mex (casadi_str AUX_FROM_MEX) inst
        | AUX_FINITE_DIFF => emit_sanitized (casadi_str AUX_FINITE_DIFF) inst
        end
  end.

(** The calls nest four deep at most:
    [AUX_INTERPN_GRAD], [AUX_INTERPN], [AUX_INTERPN_WEIGHTS], [AUX_LOW]. *)
Definition add_auxiliary : Auxiliary -> list string -> M unit :=
  add_auxiliary_rec 4.

End Auxiliaries.

(** ** Registering a function *)

Section Dependencies.

(** What the generator asks of a function: [f->codegen_declarations],
    [f->codegen] with the name given to [f], [f->has_refcount_],
    [f->codegen_incref] and [f->codegen_decref], each run on the generator. *)
Variable codegen_declarations : Function -> M unit.
Variable codegen : Function -> string -> M unit.
Variable has_refcount_ : Function -> bool.
Variable codegen_incref : Function -> M unit.
Variable codegen_decref : Function -> M unit.

(** The loop [for (auto&& e : added_functions_) if (e.f==f) return ...]. *)
Fixpoint find_function (fn : Function) (added : list FunctionMeta)
  : option string :=
  match added with
  | [] => None
  | e :: rest =>
      if bool_decide (f e = fn) then Some (codegen_name e)
      else find_function fn rest
  end.

(** [CodeGenerator::add_dependency] *)
Definition add_dependency (fn : Function) : M string :=
  (* Quick return if it already exists *)
  existing ← gets (fun g => find_function fn (added_functions_ g));
  match existing with
  | Some name => mret name
  | None =>
      (* Give it a name *)
      count ← gets (fun g => Z.of_nat (length (added_functions_ g)));
      fname ← shorthand ("f" +:+ str count) true;
      (* Add to list of functions *)
      modify (fun g =>
        set_added_functions_
          (added_functions_ g ++ [mkFunctionMeta fn fname]) g);;
      (* Generate declarations *)
      codegen_declarations fn;;
      (* Print to file *)
      codegen fn fname;;
      (* Codegen reference count functions, if needed *)
      (if has_refcount_ fn then
         operator_lshift "void ";; operator_lshift fname;;
         operator_lshift ("_incref(void) {" +:+ Str.endl);;
         codegen_incref fn;;
         operator_lshift ("}" +:+ Str.endl +:+ Str.endl);;
         operator_lshift "void ";; operator_lshift fname;;
         operator_lshift ("_decref(void) {" +:+ Str.endl);;
         codegen_decref fn;;
         operator_lshift ("}" +:+ Str.endl +:+ Str.endl)
       else mret tt);;
      (* Flush to body *)
      flush_body;;
      mret fname
  end.

End Dependencies.

(** * Properties *)

(** ** Custom IO schemes *)

Section IOSchemeCustomFacts.
Import IOSchemeCustom.

Lemma fill_entrymap_notin entries : forall i m name,
  name ∉ entries -> fill_entrymap entries i m !! name = m !! name.
Proof.
  induction entries as [|e rest IH]; intros i m name Hn; simpl; [done|].
  apply not_elem_of_cons in Hn as [Hne Hn].
  rewrite IH by done. by rewrite lookup_insert_ne.
Qed.

Lemma fill_entrymap_lookup entries : forall i m k name,
  NoDup entries -> entries !! k = Some name ->
  fill_entrymap entries i m !! name = Some (i + Z.of_nat k).
Proof.
  induction entries as [|e rest IH]; intros i m k name Hnd Hk; [done|].
  apply NoDup_cons in Hnd as [Hne Hnd].
  destruct k as [|k]; simpl in *.
  - injection Hk as ->. rewrite fill_entrymap_notin by done.
    rewrite lookup_insert_eq. f_equal. lia.
  - rewrite (IH _ _ k name) by done. f_equal. lia.
Qed.

Lemma entry_in_range s i :
  0 <= i < size s -> exists e, entries_ s !! Z.to_nat i = Some e /\ entry s i = Ok e.
Proof.
  intros Hi. unfold entry.
  assert (Hb : (0 <=? i) && (i <? size s) = true).
  { apply andb_true_iff. split; [apply Z.leb_le | apply Z.ltb_lt]; lia. }
  rewrite Hb.
  destruct (lookup_lt_is_Some_2 (entries_ s) (Z.to_nat i)) as [e He].
  { unfold size in Hi. lia. }
  exists e. by rewrite He.
Qed.

(** C10: in a custom scheme built from pairwise distinct names, [index] is a
    left inverse of [entry] on the valid indices; [entry] outside
    [0 <= i < size()] and [index] of a name that is not an entry are errors. *)
Theorem index_entry_roundtrip (entries : list string) :
  NoDup entries ->
  let s := IOSchemeCustomInternal entries in
  (forall i, 0 <= i < size s ->
     exists e, entry s i = Ok e /\ index s e = Ok i) /\
  (forall i, ~ (0 <= i < size s) -> is_error (entry s i)) /\
  (forall name, name ∉ entries -> is_error (index s name)).
Proof.
  intros Hnd s. split; [|split].
  - intros i Hi. destruct (entry_in_range s i Hi) as (e & He & Hentry).
    exists e. split; [done|]. unfold index. simpl in *.
    rewrite (fill_entrymap_lookup entries 0 ∅ (Z.to_nat i) e Hnd He).
    f_equal. lia.
  - intros i Hi. unfold entry.
    destruct ((0 <=? i) && (i <? size s)) eqn:Hb; [|done].
    apply andb_true_iff in Hb as [H1 H2].
    apply Z.leb_le in H1. apply Z.ltb_lt in H2. lia.
  - intros name Hn. unfold index. simpl.
    by rewrite fill_entrymap_notin, lookup_empty.
Qed.

Lemma index_entry_roundtrip_witness :
  let s := IOSchemeCustomInternal ["x"; "p"; "lam"]%string in
  (forall i, 0 <= i < size s ->
     exists e, entry s i = Ok e /\ index s e = Ok i) /\
  (forall i, ~ (0 <= i < size s) -> is_error (entry s i)) /\
  (forall name, name ∉ ["x"; "p"; "lam"]%string -> is_error (index s name)).
Proof.
  apply (index_entry_roundtrip ["x"; "p"; "lam"]%string).
  apply (bool_decide_unpack (NoDup ["x"; "p"; "lam"]%string)). reflexivity.
Defined.

End IOSchemeCustomFacts.

(** *** Rendering of a double constant *)

Lemma as_int_fits n : Double.fits_int (Double.as_int n) = true.
Proof.
  unfold Double.fits_int, Double.as_int, Double.INT_MIN, Double.INT_MAX.
  pose proof (Z.mod_pos_bound (n + 2 ^ 31) (2 ^ 32) ltac:(lia)).
  apply andb_true_iff. split; [apply Z.leb_le | apply Z.leb_le]; lia.
Qed.

Lemma unit_scaled_pos : 0 < Double.unit_scaled.
Proof. unfold Double.unit_scaled. apply Z.pow_pos_nonneg; lia. Qed.

Lemma quot_unit_scaled n : Z.quot (n * Double.unit_scaled) Double.unit_scaled = n.
Proof. apply Z.quot_mul. pose proof unit_scaled_pos. lia. Qed.

(** Whatever [int] an unrepresentable conversion produces, the comparison
    [v_int == v] succeeds exactly on the whole numbers of the [int] range. *)
Lemma int_eqb_to_int unrepresentable v x :
  Double.classify v = Double.Fin x ->
  Double.int_eqb (Double.to_int unrepresentable v) v =
    Double.is_integral v && Double.fits_int (Double.truncate v).
Proof.
  intros Hc.
  assert (Hx : x = Double.scaled v).
  { unfold Double.classify in Hc.
    destruct (Double.isnan v); [done|]. destruct (Double.isinf v); [done|].
    by injection Hc. }
  unfold Double.int_eqb, Double.is_integral, Double.to_int. rewrite Hc.
  unfold Double.truncate. rewrite <- Hx.
  pose proof unit_scaled_pos as HU.
  destruct (Double.fits_int (Z.quot x Double.unit_scaled)) eqn:Hfit.
  - rewrite andb_true_r.
    destruct (x mod Double.unit_scaled =? 0) eqn:Hm.
    + apply Z.eqb_eq in Hm. apply bool_decide_eq_true. f_equal.
      rewrite <- (Z.rem_mod_eq_0 x Double.unit_scaled) in Hm by lia.
      pose proof (Z.quot_rem' x Double.unit_scaled). lia.
    + apply Z.eqb_neq in Hm. apply bool_decide_eq_false. intros Heq.
      apply Hm. injection Heq as Heq. rewrite Heq. apply Z.mod_mul. lia.
  - rewrite andb_false_r. apply bool_decide_eq_false. intros Heq.
    injection Heq as Heq.
    rewrite Heq, quot_unit_scaled, as_int_fits in Hfit. done.
Qed.

(** C8 (as amended): the text of a double constant is [NAN] for a NaN,
    [INFINITY] or [-INFINITY] for an infinity, the decimal digits of the
    value followed by a point when the value is a whole number of the [int]
    range, and the scientific rendering in every other case, the whole
    numbers outside the [int] range included. *)
Theorem constant_double_cases scientific unrepresentable (v : double) :
  constant_double scientific unrepresentable v =
    match Double.classify v with
    | Double.NaN => "NAN"
    | Double.Inf negative => if negative then "-INFINITY" else "INFINITY"
    | Double.Fin _ =>
        if Double.is_integral v && Double.fits_int (Double.truncate v)
        then str (Double.truncate v) +:+ "."
        else scientific v
    end.
Proof.
  unfold constant_double.
  destruct (Double.classify v) as [|negative|x] eqn:Hc.
  - unfold Double.classify in Hc.
    destruct (Double.isnan v); [done|]. by destruct (Double.isinf v).
  - unfold Double.ltb_zero. rewrite Hc. unfold Double.classify in Hc.
    destruct (Double.isnan v); [done|].
    destruct (Double.isinf v); [|done]. by destruct negative.
  - rewrite (int_eqb_to_int unrepresentable v x Hc).
    unfold Double.classify in Hc.
    destruct (Double.isnan v); [done|]. destruct (Double.isinf v); [done|].
    destruct (Double.is_integral v && Double.fits_int (Double.truncate v))
      eqn:Hb; [|done].
    apply andb_true_iff in Hb as [_ Hfit].
    unfold Double.to_int. by rewrite Hfit.
Qed.

(** The double [2147483648.0], that is [2^31]. *)
Definition two_pow_31 : double := Double.of_bits 0x41E0000000000000.

(** C8 (as stated) fails at [2^31]: the value is finite and a whole number,
    yet its text is the scientific rendering, with every stream formatter
    and every outcome of the unrepresentable conversion. *)
Lemma constant_double_two_pow_31 :
  Double.classify two_pow_31 = Double.Fin (2 ^ 31 * Double.unit_scaled) /\
  Double.is_integral two_pow_31 = true /\
  (forall scientific unrepresentable,
     constant_double scientific unrepresentable two_pow_31
       = scientific two_pow_31).
Proof.
  split; [by vm_compute | split; [by vm_compute |]].
  intros scientific unrepresentable. unfold constant_double.
  change (Double.isnan two_pow_31) with false.
  change (Double.isinf two_pow_31) with false. cbv iota.
  rewrite (int_eqb_to_int unrepresentable two_pow_31
             (2 ^ 31 * Double.unit_scaled)) by (by vm_compute).
  by vm_compute.
Qed.


(** ** Reasoning about member functions *)

Lemma bind_ok {A B} (c : M A) (k : A -> M B) g a g' :
  c g = (Ok a, g') -> (c ≫= k) g = k a g'.
Proof. intros H. unfold mbind, M_bind. by rewrite H. Qed.

Lemma bind_error {A B} (c : M A) (k : A -> M B) g msg g' :
  c g = (Error msg, g') -> (c ≫= k) g = (Error msg, g').
Proof. intros H. unfold mbind, M_bind. by rewrite H. Qed.

Lemma bind_diverges {A B} (c : M A) (k : A -> M B) g g' :
  c g = (Diverges, g') -> (c ≫= k) g = (Diverges, g').
Proof. intros H. unfold mbind, M_bind. by rewrite H. Qed.

Lemma bind_gets {A B} (field : CodeGenerator -> A) (k : A -> M B) g :
  (gets field ≫= k) g = k (field g) g.
Proof. reflexivity. Qed.

Lemma bind_modify {B} (upd : CodeGenerator -> CodeGenerator)
  (k : unit -> M B) g :
  (modify upd ≫= k) g = k tt (upd g).
Proof. reflexivity. Qed.

Lemma bind_mret {A B} (a : A) (k : A -> M B) g : (mret a ≫= k) g = k a g.
Proof. reflexivity. Qed.

Lemma bind_assoc {A B C} (c : M A) (k : A -> M B) (k' : B -> M C) g :
  ((c ≫= k) ≫= k') g = (c ≫= (fun a => k a ≫= k')) g.
Proof.
  unfold mbind, M_bind. destruct (c g) as [[a| |] g']; reflexivity.
Qed.

(** Writing a field back with the value it holds changes nothing. *)
Lemma set_added_includes_same g : set_added_includes_ (added_includes_ g) g = g.
Proof. by destruct g. Qed.
Lemma set_added_externals_same g :
  set_added_externals_ (added_externals_ g) g = g.
Proof. by destruct g. Qed.
Lemma set_added_shorthands_same g :
  set_added_shorthands_ (added_shorthands_ g) g = g.
Proof. by destruct g. Qed.
Lemma set_double_pool_same g :
  set_double_pool (double_constants_ g) (added_double_constants_ g) g = g.
Proof. by destruct g. Qed.
Lemma set_integer_pool_same g :
  set_integer_pool (integer_constants_ g) (added_integer_constants_ g) g = g.
Proof. by destruct g. Qed.

Lemma insert_present (x : string) (s : gset string) : x ∈ s -> {[x]} ∪ s = s.
Proof.
  intros Hx. apply subseteq_union_1_L. by apply singleton_subseteq_l.
Qed.

(** ** Includes and external declarations *)

(** The text one new include request adds to the includes section. *)
Definition include_text (new_include : string) (relative_path : bool)
  (use_ifdef : string) : string :=
  (if String.eqb use_ifdef "" then ""
   else "#ifdef " +:+ use_ifdef +:+ Str.endl)
  +:+ (if relative_path
       then "#include " +:+ Str.quote +:+ new_include +:+ Str.quote
            +:+ Str.endl
       else "#include <" +:+ new_include +:+ ">" +:+ Str.endl)
  +:+ (if String.eqb use_ifdef "" then "" else "#endif" +:+ Str.endl).

Lemma string_app_cons (c : ascii) (s t : string) :
  String c s +:+ t = String c (s +:+ t).
Proof. reflexivity. Qed.

Lemma string_app_empty_l (s : string) : "" +:+ s = s.
Proof. reflexivity. Qed.

Lemma string_app_empty_r (s : string) : s +:+ "" = s.
Proof.
  induction s as [|c s IH]; [done|]. by rewrite string_app_cons, IH.
Qed.

Lemma string_app_assoc (a b c : string) : (a +:+ b) +:+ c = a +:+ (b +:+ c).
Proof.
  induction a as [|x a IH]; [done|]. by rewrite !string_app_cons, IH.
Qed.

Lemma add_include_spec new_include relative_path use_ifdef g :
  add_include new_include relative_path use_ifdef g =
    (Ok tt,
     if bool_decide (new_include ∈ added_includes_ g) then g
     else set_includes
            (includes g +:+ include_text new_include relative_path use_ifdef)
            (set_added_includes_ ({[new_include]} ∪ added_includes_ g) g)).
Proof.
  unfold add_include. rewrite bind_gets, bind_modify.
  destruct (decide (new_include ∈ added_includes_ g)) as [Hin|Hnin].
  - rewrite (bool_decide_eq_false_2 (new_include ∉ _)) by (intros ?; done).
    rewrite (bool_decide_eq_true_2 _ Hin). simpl.
    rewrite insert_present by done. by rewrite set_added_includes_same.
  - rewrite (bool_decide_eq_true_2 (new_include ∉ _) Hnin).
    rewrite (bool_decide_eq_false_2 _ Hnin). simpl.
    unfold include_text, append_includes.
    destruct (String.eqb use_ifdef ""), relative_path; simpl;
      unfold mbind, M_bind, modify, mret, M_ret; simpl;
      rewrite ?string_app_assoc, ?string_app_empty_r; reflexivity.
Qed.

Lemma add_external_spec new_external g :
  add_external new_external g =
    (Ok tt,
     if bool_decide (new_external ∈ added_externals_ g) then g
     else set_added_externals_ ({[new_external]} ∪ added_externals_ g) g).
Proof.
  unfold add_external, modify. f_equal. case_bool_decide; [|done].
  rewrite insert_present by done. by rewrite set_added_externals_same.
Qed.

(** C9: include and external-declaration requests are told apart by their
    text alone.  A request whose text is registered leaves the generator as
    it is, whatever its other arguments; a request with a new text is
    registered, and for an include its lines are appended to the includes
    section.  So a request made twice acts once. *)
Theorem include_external_dedup g :
  (forall new_include relative_path use_ifdef,
     add_include new_include relative_path use_ifdef g =
       (Ok tt,
        if bool_decide (new_include ∈ added_includes_ g) then g
        else set_includes
               (includes g
                +:+ include_text new_include relative_path use_ifdef)
               (set_added_includes_ ({[new_include]} ∪ added_includes_ g) g))
     /\ forall relative_path' use_ifdef',
          let g1 := (add_include new_include relative_path use_ifdef g).2 in
          add_include new_include relative_path' use_ifdef' g1 = (Ok tt, g1))
  /\
  (forall new_external,
     add_external new_external g =
       (Ok tt,
        if bool_decide (new_external ∈ added_externals_ g) then g
        else set_added_externals_ ({[new_external]} ∪ added_externals_ g) g)
     /\ let g1 := (add_external new_external g).2 in
        add_external new_external g1 = (Ok tt, g1)).
Proof.
  split.
  - intros new_include relative_path use_ifdef.
    split; [apply add_include_spec|].
    intros relative_path' use_ifdef' g1. rewrite add_include_spec.
    rewrite bool_decide_eq_true_2; [done|].
    subst g1. rewrite add_include_spec. simpl.
    case_bool_decide; [done|]. simpl. set_solver.
  - intros new_external. split; [apply add_external_spec|].
    intros g1. rewrite add_external_spec.
    rewrite bool_decide_eq_true_2; [done|].
    subst g1. rewrite add_external_spec. simpl.
    case_bool_decide; [done|]. simpl. set_solver.
Qed.

(** ** The constant pools *)

(** Every index of the hash index points into the vector of constants. *)
Definition pool_wf {T} (constants : list (list T)) (added : list (Z * Z))
  : Prop :=
  Forall (fun e => 0 <= e.2 < Z.of_nat (length constants)) added.

Section PoolFacts.

Context {T : Type} (elt_eqb : T -> T -> bool).
Hypothesis elt_sym : forall x y, elt_eqb x y = true -> elt_eqb y x = true.
Hypothesis elt_trans : forall x y z,
  elt_eqb x y = true -> elt_eqb y z = true -> elt_eqb x z = true.

Local Abbreviation equal := (equal elt_eqb).
Local Abbreviation locate := (locate elt_eqb).
Local Abbreviation get_constant_in := (get_constant_in elt_eqb).

Lemma equal_Forall2 (v w : list T) :
  equal v w = true <-> Forall2 (fun x y => elt_eqb x y = true) v w.
Proof.
  revert w. induction v as [|x v IH]; intros [|y w]; simpl.
  - split; [constructor | done].
  - split; [done | inversion 1].
  - split; [done | inversion 1].
  - rewrite andb_true_iff, IH. split.
    + intros [? ?]. by constructor.
    + inversion 1; subst. done.
Qed.

Lemma equal_sym (v w : list T) : equal v w = true -> equal w v = true.
Proof.
  revert w. induction v as [|x v IH]; intros [|y w]; simpl; try done.
  rewrite !andb_true_iff. intros [? ?]. split; [by apply elt_sym | by apply IH].
Qed.

Lemma equal_trans (u v w : list T) :
  equal u v = true -> equal v w = true -> equal u w = true.
Proof.
  revert v w. induction u as [|x u IH]; intros [|y v] [|z w]; simpl; try done.
  rewrite !andb_true_iff. intros [? ?] [? ?].
  split; [by eapply elt_trans | by eapply IH].
Qed.

(** Sequences that compare equal match the same entries. *)
Lemma equal_congr (v1 v2 w : list T) :
  equal v1 v2 = true -> equal v1 w = equal v2 w.
Proof.
  intros H12.
  destruct (equal v1 w) eqn:H1, (equal v2 w) eqn:H2; try done.
  - rewrite (equal_trans v2 v1 w) in H2; [done | by apply equal_sym | done].
  - rewrite (equal_trans v1 v2 w) in H1; done.
Qed.

Lemma locate_congr (v1 v2 : list T) constants range :
  equal v1 v2 = true -> locate v1 constants range = locate v2 constants range.
Proof.
  intros H12. induction range as [|[k i] range IH]; simpl; [done|].
  destruct (constants !! Z.to_nat i) as [w|]; [|done].
  by rewrite (equal_congr v1 v2 w H12), IH.
Qed.

Lemma locate_Some (v : list T) constants range i :
  locate v constants range = Some i ->
  exists w, constants !! Z.to_nat i = Some w /\ equal v w = true.
Proof.
  induction range as [|[k j] range IH]; simpl; [done|].
  destruct (constants !! Z.to_nat j) as [w|] eqn:Hw; [|done].
  destruct (equal v w) eqn:He; [|done].
  intros [= <-]. by exists w.
Qed.

Lemma locate_in_range (v : list T) constants range i :
  locate v constants range = Some i -> exists k, (k, i) ∈ range.
Proof.
  induction range as [|[k j] range IH]; simpl; [done|].
  assert (Hrest : locate v constants range = Some i ->
                  exists k', (k', i) ∈ (k, j) :: range).
  { intros H. destruct (IH H) as [k' ?]. exists k'. by right. }
  destruct (constants !! Z.to_nat j) as [w|]; [|done].
  destruct (equal v w); [|done].
  intros [= <-]. exists k. by left.
Qed.

Lemma locate_app_Some (v : list T) constants range range' i :
  locate v constants range = Some i ->
  locate v constants (range ++ range') = Some i.
Proof.
  induction range as [|[k j] range IH]; simpl; [done|].
  destruct (constants !! Z.to_nat j) as [w|]; [|done].
  by destruct (equal v w).
Qed.

Lemma locate_app_None (v : list T) constants range range' :
  locate v constants range = None ->
  locate v constants (range ++ range') = locate v constants range'.
Proof.
  induction range as [|[k j] range IH]; simpl; [done|].
  destruct (constants !! Z.to_nat j) as [w|]; [|done].
  by destruct (equal v w).
Qed.

Lemma locate_more_constants (v : list T) constants more range :
  Forall (fun e => 0 <= e.2 < Z.of_nat (length constants)) range ->
  locate v (constants ++ more) range = locate v constants range.
Proof.
  induction 1 as [|[k j] range Hj _ IH]; simpl; [done|].
  simpl in Hj. rewrite lookup_app_l by lia. by rewrite IH.
Qed.

Lemma equal_range_app {V} (m m' : list (Z * V)) k :
  equal_range (m ++ m') k = equal_range m k ++ equal_range m' k.
Proof. apply filter_app. Qed.

Lemma pool_wf_range (constants : list (list T)) added h :
  pool_wf constants added ->
  Forall (fun e => 0 <= e.2 < Z.of_nat (length constants))
         (equal_range added h).
Proof.
  unfold pool_wf, equal_range. rewrite !Forall_forall.
  intros H e He. apply H. by apply list_elem_of_filter in He as [_ ?].
Qed.

(** An entry located in a pool is located at the same index in every pool
    that extends it. *)
Lemma locate_stable (v : list T) constants added more more_added h i :
  pool_wf constants added ->
  locate v constants (equal_range added h) = Some i ->
  locate v (constants ++ more) (equal_range (added ++ more_added) h) = Some i.
Proof.
  intros Hwf Hloc. rewrite equal_range_app. apply locate_app_Some.
  by rewrite locate_more_constants by by apply pool_wf_range.
Qed.

(** What one [get_constant] call does to a pool. *)
Lemma get_constant_in_extends h (v : list T) allow_adding constants added :
  let out := get_constant_in h v allow_adding constants added in
  exists more more_added,
    out.2.1 = constants ++ more /\ out.2.2 = added ++ more_added /\
    (pool_wf constants added -> pool_wf out.2.1 out.2.2).
Proof.
  unfold get_constant_in.
  destruct (locate v constants (equal_range added h)) as [i|].
  - exists [], []. simpl. by rewrite !app_nil_r.
  - destruct allow_adding; simpl.
    + exists [v], [(h, Z.of_nat (length constants))].
      split; [done|]. split; [done|]. unfold pool_wf. intros Hwf.
      apply Forall_app. split.
      * eapply Forall_impl; [exact Hwf|]. intros e He. simpl in *.
        rewrite length_app. simpl. lia.
      * constructor; [|constructor]. simpl. rewrite length_app. simpl. lia.
    + exists [], []. simpl. by rewrite !app_nil_r.
Qed.

(** After interning [v], a sequence equal to itself, [v] is located at the
    id returned. *)
Lemma get_constant_in_located h (v : list T) constants added :
  pool_wf constants added -> equal v v = true ->
  let out := get_constant_in h v true constants added in
  exists i, out.1 = Ok i /\ locate v out.2.1 (equal_range out.2.2 h) = Some i.
Proof.
  intros Hwf Hrefl. unfold get_constant_in.
  destruct (locate v constants (equal_range added h)) as [i|] eqn:Hloc; simpl.
  - by exists i.
  - exists (Z.of_nat (length constants)). split; [done|].
    rewrite equal_range_app, locate_app_None.
    + unfold equal_range. rewrite filter_cons_True by done. simpl.
      rewrite Nat2Z.id, lookup_app_r by lia.
      rewrite Nat.sub_diag. simpl. by rewrite Hrefl.
    + by rewrite locate_more_constants by by apply pool_wf_range.
Qed.

(** [get_constant] finds what is located. *)
Lemma get_constant_in_found h (v : list T) allow_adding constants added i :
  locate v constants (equal_range added h) = Some i ->
  get_constant_in h v allow_adding constants added = (Ok i, (constants, added)).
Proof. intros H. unfold get_constant_in. by rewrite H. Qed.

(** With [allow_adding], [get_constant] returns the id of an entry equal to
    [v] and leaves the pool as it is, or appends [v] and returns its index. *)
Lemma get_constant_in_id h (v : list T) constants added :
  pool_wf constants added ->
  let out := get_constant_in h v true constants added in
  exists i, out.1 = Ok i /\
    ((0 <= i < Z.of_nat (length constants) /\ out.2.1 = constants /\
      exists w, constants !! Z.to_nat i = Some w /\ equal v w = true) \/
     (i = Z.of_nat (length constants) /\ out.2.1 = constants ++ [v])).
Proof.
  intros Hwf. unfold get_constant_in.
  destruct (locate v constants (equal_range added h)) as [j|] eqn:Hloc; simpl.
  - exists j. split; [done|]. left.
    destruct (locate_Some _ _ _ _ Hloc) as (w & Hw & He).
    destruct (locate_in_range _ _ _ _ Hloc) as [k Hk].
    pose proof (pool_wf_range constants added h Hwf) as Hr.
    rewrite Forall_forall in Hr. split; [exact (Hr _ Hk)|].
    split; [done|]. by exists w.
  - exists (Z.of_nat (length constants)). split; [done|]. by right.
Qed.

(** A read-only lookup of a sequence that no entry equals fails, and the
    pool stays as it is. *)
Lemma get_constant_in_not_found h (v : list T) constants added :
  Forall (fun w => equal v w = false) constants ->
  get_constant_in h v false constants added =
    (Error "Constant not found", (constants, added)).
Proof.
  intros Hnone. unfold get_constant_in.
  assert (Hloc : forall range, locate v constants range = None).
  { induction range as [|[k j] range IH]; simpl; [done|].
    destruct (constants !! Z.to_nat j) as [w|] eqn:Hw; [|done].
    rewrite Forall_forall in Hnone.
    assert (Hin : w ∈ constants) by (eapply list_elem_of_lookup_2; exact Hw).
    by rewrite (Hnone w Hin). }
  by rewrite Hloc.
Qed.

(** Interned again after the pool has grown, a sequence that compares equal
    to [v1] and hashes alike gets the id of [v1]. *)
Lemma same_id_in h (v1 v2 : list T) constants added more more_added :
  pool_wf constants added -> equal v1 v2 = true ->
  let out := get_constant_in h v1 true constants added in
  exists i, out.1 = Ok i /\
    (get_constant_in h v2 true (out.2.1 ++ more) (out.2.2 ++ more_added)).1
      = Ok i.
Proof.
  intros Hwf H12 out.
  assert (Hrefl : equal v1 v1 = true).
  { eapply equal_trans; [exact H12 | by apply equal_sym]. }
  destruct (get_constant_in_located h v1 constants added Hwf Hrefl)
    as (i & Hi & Hloc).
  destruct (get_constant_in_extends h v1 true constants added)
    as (_ & _ & _ & _ & Hwf1).
  exists i. split; [exact Hi|].
  erewrite get_constant_in_found; [done|].
  rewrite <- (locate_congr v1 v2) by done.
  apply locate_stable; [by apply Hwf1 | exact Hloc].
Qed.

(** Sequences that compare unequal get distinct ids, whatever their
    hashes. *)
Lemma distinct_id_in h1 h2 (v1 v2 : list T) constants added more more_added :
  pool_wf constants added -> equal v1 v2 = false ->
  let out := get_constant_in h1 v1 true constants added in
  pool_wf (out.2.1 ++ more) (out.2.2 ++ more_added) ->
  exists i1 i2, out.1 = Ok i1 /\
    (get_constant_in h2 v2 true (out.2.1 ++ more) (out.2.2 ++ more_added)).1
      = Ok i2 /\ i1 <> i2.
Proof.
  intros Hwf H12 out Hwf2.
  destruct (get_constant_in_id h1 v1 constants added Hwf) as (i1 & Hi1 & Hc1).
  destruct (get_constant_in_id h2 v2 _ _ Hwf2) as (i2 & Hi2 & Hc2).
  exists i1, i2. split; [exact Hi1|]. split; [exact Hi2|].
  fold out in Hc1.
  assert (H1 : 0 <= i1 < Z.of_nat (length out.2.1) /\
               exists w1, out.2.1 !! Z.to_nat i1 = Some w1 /\
                 (equal v1 w1 = true \/ w1 = v1)).
  { destruct Hc1 as [(Hr & -> & w & Hw & He) | [-> ->]].
    - split; [done|]. exists w. eauto.
    - rewrite length_app, Nat2Z.id. simpl. split; [lia|]. exists v1.
      rewrite lookup_app_r by lia. rewrite Nat.sub_diag. eauto. }
  destruct H1 as (Hr1 & w1 & Hw1 & He1).
  intros <-.
  destruct Hc2 as [(_ & _ & w2 & Hw2 & He2) | [Heq _]].
  - rewrite lookup_app_l in Hw2 by lia.
    assert (w2 = w1) as -> by congruence.
    destruct He1 as [He1 | ->].
    + rewrite (equal_trans v1 w1 v2) in H12; [done | done | by apply equal_sym].
    + apply equal_sym in He2. congruence.
  - rewrite length_app in Heq. lia.
Qed.

End PoolFacts.

(** *** The pools of a generator *)

Lemma double_eqb_sym x y : Double.eqb x y = true -> Double.eqb y x = true.
Proof.
  unfold Double.eqb.
  destruct (Double.classify x), (Double.classify y); try done;
    intros H; apply bool_decide_eq_true in H; by rewrite H, bool_decide_eq_true.
Qed.

Lemma double_eqb_trans x y z :
  Double.eqb x y = true -> Double.eqb y z = true -> Double.eqb x z = true.
Proof.
  unfold Double.eqb.
  destruct (Double.classify x), (Double.classify y), (Double.classify z);
    try done; intros H1 H2;
    apply bool_decide_eq_true in H1; apply bool_decide_eq_true in H2;
    apply bool_decide_eq_true; congruence.
Qed.

(** A double that is not a NaN equals itself. *)
Lemma double_eqb_refl x : Double.isnan x = false -> Double.eqb x x = true.
Proof.
  intros Hx. unfold Double.eqb, Double.classify. rewrite Hx.
  destruct (Double.isinf x); by rewrite bool_decide_eq_true.
Qed.

Lemma int_eqb_sym (x y : Z) : (x =? y) = true -> (y =? x) = true.
Proof. rewrite !Z.eqb_eq. done. Qed.

Lemma int_eqb_trans (x y z : Z) :
  (x =? y) = true -> (y =? z) = true -> (x =? z) = true.
Proof. rewrite !Z.eqb_eq. congruence. Qed.

Lemma equal_int_refl (v : list Z) : equal Z.eqb v v = true.
Proof. induction v as [|x v IH]; simpl; [done|]. by rewrite Z.eqb_refl. Qed.

Lemma equal_double_refl (v : list double) :
  Forall (fun x => Double.isnan x = false) v -> equal Double.eqb v v = true.
Proof.
  induction 1 as [|x v Hx _ IH]; [done|].
  change (Double.eqb x x && equal Double.eqb v v = true).
  by rewrite double_eqb_refl, IH.
Qed.

Definition pools_wf (g : CodeGenerator) : Prop :=
  pool_wf (double_constants_ g) (added_double_constants_ g) /\
  pool_wf (integer_constants_ g) (added_integer_constants_ g).

(** [g'] holds the constants of [g] at the same ids, and maybe more. *)
Definition pools_extend (g g' : CodeGenerator) : Prop :=
  (exists more more_added,
     double_constants_ g' = double_constants_ g ++ more /\
     added_double_constants_ g' = added_double_constants_ g ++ more_added) /\
  (exists more more_added,
     integer_constants_ g' = integer_constants_ g ++ more /\
     added_integer_constants_ g' = added_integer_constants_ g ++ more_added).

Lemma pools_extend_refl g : pools_extend g g.
Proof. split; exists [], []; by rewrite !app_nil_r. Qed.

Lemma pools_extend_trans g1 g2 g3 :
  pools_extend g1 g2 -> pools_extend g2 g3 -> pools_extend g1 g3.
Proof.
  intros [(m1 & a1 & H1 & H1') (n1 & b1 & K1 & K1')]
         [(m2 & a2 & H2 & H2') (n2 & b2 & K2 & K2')].
  split.
  - exists (m1 ++ m2), (a1 ++ a2). by rewrite H2, H2', H1, H1', !app_assoc.
  - exists (n1 ++ n2), (b1 ++ b2). by rewrite K2, K2', K1, K1', !app_assoc.
Qed.

(** Requests to the pools, as they may come between two internings. *)
Inductive request : Type :=
| RequestDouble (v : list double) (allow_adding : bool)
| RequestInt (v : list Z) (allow_adding : bool).

Section PoolRequests.

Variable hash_combine : Z -> Z -> Z.
Variable hash_combine_vector : Z -> list Z -> Z.


Definition serve (r : request) (g : CodeGenerator) : CodeGenerator :=
  match r with
  | RequestDouble v allow_adding => (get_constant_double hash_combine v allow_adding g).2
  | RequestInt v allow_adding => (get_constant_int hash_combine_vector v allow_adding g).2
  end.

Definition serve_all (requests : list request) (g : CodeGenerator)
  : CodeGenerator :=
  fold_left (fun g r => serve r g) requests g.

Lemma get_constant_double_extends v allow_adding g :
  pools_wf g ->
  pools_extend g (get_constant_double hash_combine v allow_adding g).2 /\
  pools_wf (get_constant_double hash_combine v allow_adding g).2.
Proof.
  intros [Hd Hi]. unfold get_constant_double.
  destruct (get_constant_in_extends Double.eqb (hash_double hash_combine v) v allow_adding
              (double_constants_ g) (added_double_constants_ g))
    as (more & more_added & H1 & H2 & Hwf).
  split; [split|split]; simpl.
  - by exists more, more_added.
  - exists [], []. by rewrite !app_nil_r.
  - by apply Hwf.
  - done.
Qed.

Lemma get_constant_int_extends v allow_adding g :
  pools_wf g ->
  pools_extend g (get_constant_int hash_combine_vector v allow_adding g).2 /\
  pools_wf (get_constant_int hash_combine_vector v allow_adding g).2.
Proof.
  intros [Hd Hi]. unfold get_constant_int.
  destruct (get_constant_in_extends Z.eqb (hash_int hash_combine_vector v) v allow_adding
              (integer_constants_ g) (added_integer_constants_ g))
    as (more & more_added & H1 & H2 & Hwf).
  split; [split|split]; simpl.
  - exists [], []. by rewrite !app_nil_r.
  - by exists more, more_added.
  - done.
  - by apply Hwf.
Qed.

Lemma serve_all_extends requests : forall g,
  pools_wf g ->
  pools_extend g (serve_all requests g) /\ pools_wf (serve_all requests g).
Proof.
  induction requests as [|r requests IH]; intros g Hwf; simpl.
  - split; [apply pools_extend_refl | done].
  - assert (Hr : pools_extend g (serve r g) /\ pools_wf (serve r g)).
    { destruct r; simpl;
        [by apply get_constant_double_extends
        | by apply get_constant_int_extends]. }
    destruct Hr as [He Hw]. destruct (IH _ Hw) as [He' Hw'].
    split; [by eapply pools_extend_trans | done].
Qed.

End PoolRequests.

Lemma equal_int_eq (v w : list Z) : equal Z.eqb v w = true <-> v = w.
Proof.
  revert w. induction v as [|x v IH]; intros [|y w]; simpl; try done.
  rewrite andb_true_iff, Z.eqb_eq, IH. split; [intros [-> ->] | intros [= -> ->]]; done.
Qed.

Section Interning.

Variable hash_combine : Z -> Z -> Z.
Variable hash_combine_vector : Z -> list Z -> Z.


(** [v1] is interned, then the [requests] are served, then [v2] is
    interned: both internings return the same id. *)
Definition same_id_double (v1 v2 : list double) (requests : list request)
  (g : CodeGenerator) : Prop :=
  let first := get_constant_double hash_combine v1 true g in
  exists i, first.1 = Ok i /\
    (get_constant_double hash_combine v2 true (serve_all hash_combine hash_combine_vector requests first.2)).1 = Ok i.

Definition same_id_int (v1 v2 : list Z) (requests : list request)
  (g : CodeGenerator) : Prop :=
  let first := get_constant_int hash_combine_vector v1 true g in
  exists i, first.1 = Ok i /\
    (get_constant_int hash_combine_vector v2 true (serve_all hash_combine hash_combine_vector requests first.2)).1 = Ok i.

(** The same scenario, with two ids that differ. *)
Definition distinct_ids_double (v1 v2 : list double) (requests : list request)
  (g : CodeGenerator) : Prop :=
  let first := get_constant_double hash_combine v1 true g in
  exists i1 i2, first.1 = Ok i1 /\
    (get_constant_double hash_combine v2 true (serve_all hash_combine hash_combine_vector requests first.2)).1 = Ok i2 /\
    i1 <> i2.

Definition distinct_ids_int (v1 v2 : list Z) (requests : list request)
  (g : CodeGenerator) : Prop :=
  let first := get_constant_int hash_combine_vector v1 true g in
  exists i1 i2, first.1 = Ok i1 /\
    (get_constant_int hash_combine_vector v2 true (serve_all hash_combine hash_combine_vector requests first.2)).1 = Ok i2 /\
    i1 <> i2.

Lemma same_id_double_equal v1 v2 requests g :
  pools_wf g -> equal Double.eqb v1 v2 = true ->
  hash_double hash_combine v1 = hash_double hash_combine v2 ->
  same_id_double v1 v2 requests g.
Proof.
  intros Hwf H12 Hh. unfold same_id_double.
  destruct (get_constant_double_extends hash_combine v1 true g Hwf)
    as [_ Hwf1].
  destruct (serve_all_extends hash_combine hash_combine_vector requests
              _ Hwf1) as [[(more & more_added & Hc & Ha) _] _].
  unfold get_constant_double in *.
  simpl in *. rewrite Hc, Ha, <- Hh.
  apply (same_id_in Double.eqb double_eqb_sym double_eqb_trans);
    [by destruct Hwf | done].
Qed.

Lemma same_id_int_equal v requests g :
  pools_wf g -> same_id_int v v requests g.
Proof.
  intros Hwf. unfold same_id_int.
  destruct (get_constant_int_extends hash_combine_vector v true g Hwf)
    as [_ Hwf1].
  destruct (serve_all_extends hash_combine hash_combine_vector requests
              _ Hwf1) as [[_ (more & more_added & Hc & Ha)] _].
  unfold get_constant_int in *.
  simpl in *. rewrite Hc, Ha.
  apply (same_id_in Z.eqb int_eqb_sym int_eqb_trans);
    [by destruct Hwf | apply equal_int_refl].
Qed.

Lemma distinct_ids_double_unequal v1 v2 requests g :
  pools_wf g -> equal Double.eqb v1 v2 = false ->
  distinct_ids_double v1 v2 requests g.
Proof.
  intros Hwf H12. unfold distinct_ids_double.
  destruct (get_constant_double_extends hash_combine v1 true g Hwf)
    as [_ Hwf1].
  destruct (serve_all_extends hash_combine hash_combine_vector requests
              _ Hwf1) as [[(more & more_added & Hc & Ha) _] [Hwf2 _]].
  unfold get_constant_double in *.
  simpl in *. rewrite Hc, Ha in *.
  apply (distinct_id_in Double.eqb double_eqb_sym double_eqb_trans);
    [by destruct Hwf | done | done].
Qed.

Lemma distinct_ids_int_unequal v1 v2 requests g :
  pools_wf g -> v1 <> v2 -> distinct_ids_int v1 v2 requests g.
Proof.
  intros Hwf H12. unfold distinct_ids_int.
  destruct (get_constant_int_extends hash_combine_vector v1 true g Hwf)
    as [_ Hwf1].
  destruct (serve_all_extends hash_combine hash_combine_vector requests
              _ Hwf1) as [[_ (more & more_added & Hc & Ha)] [_ Hwf2]].
  unfold get_constant_int in *.
  simpl in *. rewrite Hc, Ha in *.
  apply (distinct_id_in Z.eqb int_eqb_sym int_eqb_trans);
    [by destruct Hwf | | done].
  destruct (equal Z.eqb v1 v2) eqn:He; [|done].
  by apply equal_int_eq in He.
Qed.

(** C1 (as amended): in a generator whose hash indices point into their
    pools, two integer sequences with the same elements get the same id,
    whatever is requested of the pools in between; so do two double
    sequences that compare equal element by element and have the same hash,
    as does a sequence without NaN interned twice.  Two sequences that do
    not compare equal get distinct ids, whether their hashes collide or
    not. *)
Theorem intern_ids g :
  pools_wf g ->
  (forall v1 v2 requests,
     Forall2 eq v1 v2 -> same_id_int v1 v2 requests g) /\
  (forall v1 v2 requests,
     Forall2 (fun x y => Double.eqb x y = true) v1 v2 ->
     hash_double hash_combine v1 = hash_double hash_combine v2 ->
     same_id_double v1 v2 requests g) /\
  (forall v requests,
     Forall (fun x => Double.isnan x = false) v ->
     same_id_double v v requests g) /\
  (forall v1 v2 requests,
     v1 <> v2 -> distinct_ids_int v1 v2 requests g) /\
  (forall v1 v2 requests,
     equal Double.eqb v1 v2 = false -> distinct_ids_double v1 v2 requests g).
Proof.
  intros Hwf. repeat split.
  - intros v1 v2 requests H12.
    assert (v1 = v2) as ->.
    { induction H12; [done | by f_equal]. }
    by apply same_id_int_equal.
  - intros v1 v2 requests H12 Hh.
    apply same_id_double_equal; [done | | done]. by apply equal_Forall2.
  - intros v requests Hv.
    apply same_id_double_equal; [done | by apply equal_double_refl | done].
  - intros. by apply distinct_ids_int_unequal.
  - intros. by apply distinct_ids_double_unequal.
Qed.

(** C5: a read-only lookup of a sequence that compares unequal to every
    entry of its pool fails with "Constant not found" and leaves the
    generator, its pools and hash indices included, as it was. *)
Theorem readonly_lookup_fails g :
  (forall v,
     Forall (fun w => equal Double.eqb v w = false) (double_constants_ g) ->
     get_constant_double hash_combine v false g = (Error "Constant not found", g)) /\
  (forall v,
     Forall (fun w => equal Z.eqb v w = false) (integer_constants_ g) ->
     get_constant_int hash_combine_vector v false g = (Error "Constant not found", g)).
Proof.
  split; intros v Hv.
  - unfold get_constant_double.
    rewrite get_constant_in_not_found by done. simpl.
    by rewrite set_double_pool_same.
  - unfold get_constant_int.
    rewrite get_constant_in_not_found by done. simpl.
    by rewrite set_integer_pool_same.
Qed.

End Interning.

(** *** Examples on concrete pools *)

(** A combiner for the examples, of the kind such hashes use. *)
Definition example_hash_combine (seed value : Z) : Z :=
  Z.lxor seed
    ((value + 0x9e3779b9 + Z.shiftl seed 6 + Z.shiftr seed 2) mod 2 ^ 64).

Definition example_hash_combine_vector (seed : Z) (v : list Z) : Z :=
  fold_left example_hash_combine v seed.

(** The doubles [1.0], [2.0], [0.5], [0.0], [-0.0] and a quiet NaN. *)
Definition one : double := Double.of_bits 0x3FF0000000000000.
Definition two : double := Double.of_bits 0x4000000000000000.
Definition half : double := Double.of_bits 0x3FE0000000000000.
Definition plus_zero : double := Double.of_bits 0.
Definition minus_zero : double := Double.of_bits 0x8000000000000000.
Definition quiet_nan : double := Double.of_bits 0x7FF8000000000000.

Lemma pools_wf_init indent : pools_wf (CodeGenerator_init indent).
Proof. split; constructor. Qed.

Lemma intern_ids_witness :
  let g := CodeGenerator_init 2 in
  let between := [RequestDouble [half] true; RequestInt [7] true;
                  RequestDouble [two; one] false] in
  same_id_double example_hash_combine example_hash_combine_vector
    [one; two] [one; two] between g /\
  same_id_int example_hash_combine example_hash_combine_vector
    [1; 2; 3] [1; 2; 3] between g /\
  distinct_ids_double example_hash_combine example_hash_combine_vector
    [one; two] [two; one] between g.
Proof.
  intros g between.
  destruct (intern_ids example_hash_combine example_hash_combine_vector g
              (pools_wf_init 2)) as (Hint & _ & Hdouble & _ & Hdistinct).
  split; [|split].
  - apply Hdouble. by repeat constructor.
  - apply Hint. by repeat constructor.
  - by apply Hdistinct.
Defined.

(** C1 (as stated) fails for doubles: a sequence holding a NaN is interned
    twice in a fresh generator and gets the ids 0 and 1, with every hash
    combiner: the entry found in its bucket does not compare equal to it. *)
Lemma intern_nan_twice :
  Double.isnan quiet_nan = true /\
  forall hash_combine,
    let first := get_constant_double hash_combine [quiet_nan] true
                   (CodeGenerator_init 2) in
    first.1 = Ok 0 /\
    (get_constant_double hash_combine [quiet_nan] true first.2).1 = Ok 1.
Proof.
  split; [done|]. intros hash_combine first. split; [done|].
  subst first. unfold get_constant_double, get_constant_in. simpl.
  unfold equal_range. rewrite filter_cons_True by done. done.
Qed.

(** Sequences that compare equal may still hash apart: [0.0 == -0.0], but
    the two have different bits, and a combiner that tells these apart
    gives them two ids. *)
Lemma intern_zero_signs hash_combine :
  hash_combine 0 (Double.bits plus_zero)
    <> hash_combine 0 (Double.bits minus_zero) ->
  equal Double.eqb [plus_zero] [minus_zero] = true /\
  let first := get_constant_double hash_combine [plus_zero] true
                 (CodeGenerator_init 2) in
  first.1 = Ok 0 /\
  (get_constant_double hash_combine [minus_zero] true first.2).1 = Ok 1.
Proof.
  intros Hh. split; [done|]. intros first. split; [done|].
  subst first. unfold get_constant_double, get_constant_in. simpl.
  unfold equal_range. rewrite filter_cons_False; [done|].
  simpl. intros Heq. apply Hh. exact Heq.
Qed.

Lemma readonly_lookup_fails_witness :
  let g := serve_all example_hash_combine example_hash_combine_vector
             [RequestDouble [one; two] true; RequestInt [1; 2; 3] true]
             (CodeGenerator_init 2) in
  get_constant_double example_hash_combine [two; one] false g
    = (Error "Constant not found", g) /\
  get_constant_int example_hash_combine_vector [1; 2] false g
    = (Error "Constant not found", g).
Proof.
  intros g.
  destruct (readonly_lookup_fails example_hash_combine
              example_hash_combine_vector g) as [Hdouble Hint].
  split; [apply Hdouble | apply Hint]; by repeat constructor.
Defined.

(** ** The indenting buffer *)

(** Opening braces minus closing braces of a text. *)
Fixpoint brace_delta (s : string) : Z :=
  match s with
  | EmptyString => 0
  | String c s' =>
      (if Ascii.eqb c "{" then 1 else if Ascii.eqb c "}" then -1 else 0)
      + brace_delta s'
  end.

(** From depth [d], no closing brace of the text takes the depth below
    zero. *)
Fixpoint never_below_zero (s : string) (d : Z) : bool :=
  match s with
  | EmptyString => true
  | String c s' =>
      if Ascii.eqb c "{" then never_below_zero s' (d + 1)
      else if Ascii.eqb c "}" then (1 <=? d) && never_below_zero s' (d - 1)
      else never_below_zero s' d
  end.

(** Every closing brace closes an earlier opening one, and none stays
    open. *)
Definition balanced (s : string) : Prop :=
  never_below_zero s 0 = true /\ brace_delta s = 0.

(** [*this << t1 << t2 << ...] *)
Fixpoint emit_all (texts : list string) : M unit :=
  match texts with
  | [] => mret tt
  | text :: rest => operator_lshift text;; emit_all rest
  end.

Fixpoint concat_strings (texts : list string) : string :=
  match texts with
  | [] => ""
  | text :: rest => text +:+ concat_strings rest
  end.

Lemma set_current_indent_same g :
  set_current_indent_ (current_indent_ g) g = g.
Proof. by destruct g. Qed.

Lemma set_current_indent_twice a b g :
  set_current_indent_ a (set_current_indent_ b g) = set_current_indent_ a g.
Proof. done. Qed.

Lemma scan_braces_spec s : forall g,
  scan_braces s g =
    (Ok tt, set_current_indent_ (current_indent_ g + brace_delta s) g).
Proof.
  induction s as [|c s IH]; intros g; simpl.
  - by rewrite Z.add_0_r, set_current_indent_same.
  - destruct (Ascii.eqb c "{"); [|destruct (Ascii.eqb c "}")].
    + unfold indent. rewrite bind_modify, IH. simpl.
      rewrite set_current_indent_twice. do 2 f_equal. lia.
    + unfold unindent. rewrite bind_modify, IH. simpl.
      rewrite set_current_indent_twice. do 2 f_equal. lia.
    + rewrite bind_mret, IH. do 2 f_equal.
Qed.

Lemma brace_delta_app a b : brace_delta (a +:+ b) = brace_delta a + brace_delta b.
Proof.
  induction a as [|c a IH]; [done|].
  rewrite string_app_cons. simpl. rewrite IH. lia.
Qed.

Lemma never_below_zero_app a : forall b d,
  never_below_zero (a +:+ b) d =
    never_below_zero a d && never_below_zero b (d + brace_delta a).
Proof.
  induction a as [|c a IH]; intros b d.
  - rewrite string_app_empty_l. simpl. by rewrite Z.add_0_r.
  - rewrite string_app_cons. simpl.
    destruct (Ascii.eqb c "{"); [|destruct (Ascii.eqb c "}")].
    + rewrite IH. do 2 f_equal. lia.
    + rewrite IH, andb_assoc. do 2 f_equal. lia.
    + rewrite IH. do 2 f_equal.
Qed.

Lemma never_below_zero_end s : forall d,
  0 <= d -> never_below_zero s d = true -> 0 <= d + brace_delta s.
Proof.
  induction s as [|c s IH]; intros d Hd; simpl; [lia|].
  destruct (Ascii.eqb c "{"); [|destruct (Ascii.eqb c "}")].
  - intros H. apply IH in H; lia.
  - rewrite andb_true_iff, Z.leb_le. intros [H1 H]. apply IH in H; lia.
  - intros H. apply IH in H; lia.
Qed.

Lemma never_below_zero_front s d :
  front_is s "}" = true -> never_below_zero s d = true -> 1 <= d.
Proof.
  destruct s as [|c s]; simpl; [done|]. intros Hc.
  destruct (Ascii.eqb c "{") eqn:Ho.
  { apply Ascii.eqb_eq in Ho, Hc. congruence. }
  rewrite Hc, andb_true_iff, Z.leb_le. tauto.
Qed.

(** What a successful [print_formatted] leaves: the text in the buffer,
    after the indentation if a line starts, and the depth moved by the
    braces of the text. *)
Definition printed (s : string) (g : CodeGenerator) : CodeGenerator :=
  let shift := if front_is s "}" then -1 else 0 in
  let lead :=
    if newline_ g
    then Str.spaces (indent_ g * (current_indent_ g + shift)) else "" in
  set_current_indent_ (current_indent_ g + brace_delta s)
    (set_newline_ false (set_buffer (buffer g +:+ lead +:+ s) g)).

Lemma print_formatted_empty g : print_formatted "" g = (Ok tt, g).
Proof. done. Qed.

Lemma string_eqb_cons_empty c s : String.eqb (String c s) "" = false.
Proof. done. Qed.

Lemma print_formatted_ok s g :
  s <> "" ->
  (newline_ g = true ->
   0 <= current_indent_ g + (if front_is s "}" then -1 else 0)) ->
  print_formatted s g = (Ok tt, printed s g).
Proof.
  intros Hs Hdepth. destruct s as [|c s]; [done|].
  unfold print_formatted. rewrite string_eqb_cons_empty, bind_gets.
  unfold printed. destruct (newline_ g) eqn:Hnl.
  - rewrite !bind_assoc, bind_gets, !bind_assoc, bind_gets.
    specialize (Hdepth eq_refl). apply Z.leb_le in Hdepth. rewrite Hdepth.
    unfold append_buffer.
    rewrite !bind_assoc, bind_modify, bind_modify, bind_modify.
    rewrite scan_braces_spec. simpl.
    by rewrite string_app_assoc.
  - rewrite bind_mret. unfold append_buffer. rewrite bind_modify.
    rewrite scan_braces_spec. simpl.
    destruct g; simpl in *. subst. by rewrite string_app_empty_l.
Qed.

(** The assertion of [print_formatted]: at a line start the depth, one less
    for a text that begins with a closing brace, must not be negative. *)
Lemma print_formatted_underflow s g :
  s <> "" -> newline_ g = true ->
  current_indent_ g + (if front_is s "}" then -1 else 0) < 0 ->
  print_formatted s g =
    (Error "Assertion current_indent_+shift>=0 failed", g).
Proof.
  intros Hs Hnl Hdepth. destruct s as [|c s]; [done|].
  unfold print_formatted. rewrite string_eqb_cons_empty, bind_gets, Hnl.
  rewrite !bind_assoc, bind_gets, !bind_assoc, bind_gets.
  apply Z.leb_gt in Hdepth. by rewrite Hdepth.
Qed.

Lemma print_formatted_depth s g r g' :
  print_formatted s g = (r, g') ->
  indent_ g' = indent_ g /\
  (r = Ok tt -> current_indent_ g' = current_indent_ g + brace_delta s).
Proof.
  destruct s as [|c s].
  - rewrite print_formatted_empty. intros [= <- <-]. simpl. split; [done|lia].
  - destruct (newline_ g) eqn:Hnl.
    + destruct (Z.ltb_spec
                  (current_indent_ g
                   + (if front_is (String c s) "}" then -1 else 0)) 0).
      * rewrite print_formatted_underflow by done. by intros [= <- <-].
      * rewrite print_formatted_ok by (done || intros; lia).
        by intros [= <- <-].
    + rewrite print_formatted_ok by (done || congruence).
      by intros [= <- <-].
Qed.

Lemma print_formatted_safe s g :
  0 <= current_indent_ g ->
  never_below_zero s (current_indent_ g) = true ->
  exists g', print_formatted s g = (Ok tt, g') /\
    indent_ g' = indent_ g /\
    current_indent_ g' = current_indent_ g + brace_delta s.
Proof.
  intros Hd Hs. destruct s as [|c s].
  - exists g. rewrite print_formatted_empty. simpl. split; [done|]. lia.
  - exists (printed (String c s) g).
    rewrite print_formatted_ok; [done | done |]. intros _.
    destruct (front_is (String c s) "}") eqn:Hf; [|lia].
    pose proof (never_below_zero_front _ _ Hf Hs). lia.
Qed.

Lemma newline_is_no_brace :
  Ascii.eqb Str.newline "{" = false /\ Ascii.eqb Str.newline "}" = false.
Proof. done. Qed.

Lemma operator_lshift_from_depth s : forall fragment g r g',
  operator_lshift_from s fragment g = (r, g') ->
  indent_ g' = indent_ g /\
  (r = Ok tt ->
   current_indent_ g' = current_indent_ g + brace_delta (fragment +:+ s)).
Proof.
  induction s as [|c s IH]; intros fragment g r g'; simpl.
  - rewrite string_app_empty_r. apply print_formatted_depth.
  - destruct (Ascii.eqb c Str.newline) eqn:Hc.
    + apply Ascii.eqb_eq in Hc. subst c.
      destruct (print_formatted fragment g) as [[[]| |] g1] eqn:Hp.
      * rewrite (bind_ok _ _ _ _ _ Hp).
        unfold append_buffer. rewrite bind_modify, bind_modify.
        intros H. apply IH in H as [Hi Hd].
        apply print_formatted_depth in Hp as [Hi1 Hd1]. simpl in *.
        split; [congruence|]. intros Hr.
        rewrite (Hd Hr), (Hd1 eq_refl), string_app_empty_l, brace_delta_app.
        simpl. lia.
      * rewrite (bind_error _ _ _ _ _ Hp). intros [= <- <-].
        apply print_formatted_depth in Hp as [Hi1 _]. done.
      * rewrite (bind_diverges _ _ _ _ Hp). intros [= <- <-].
        apply print_formatted_depth in Hp as [Hi1 _]. done.
    + intros H. apply IH in H as [Hi Hd]. split; [done|].
      intros Hr. rewrite (Hd Hr). by rewrite string_app_assoc.
Qed.

Lemma operator_lshift_from_safe s : forall fragment g,
  0 <= current_indent_ g ->
  never_below_zero (fragment +:+ s) (current_indent_ g) = true ->
  exists g', operator_lshift_from s fragment g = (Ok tt, g').
Proof.
  induction s as [|c s IH]; intros fragment g Hd Hs; simpl.
  - rewrite string_app_empty_r in Hs.
    destruct (print_formatted_safe fragment g Hd Hs) as (g' & H & _).
    by exists g'.
  - destruct (Ascii.eqb c Str.newline) eqn:Hc.
    + apply Ascii.eqb_eq in Hc. subst c.
      rewrite never_below_zero_app in Hs.
      apply andb_true_iff in Hs as [Hs1 Hs2]. simpl in Hs2.
      destruct (print_formatted_safe fragment g Hd Hs1) as (g1 & H & _ & Hd1).
      rewrite (bind_ok _ _ _ _ _ H).
      unfold append_buffer. rewrite bind_modify, bind_modify.
      apply IH; simpl; rewrite Hd1.
      * by apply never_below_zero_end.
      * by rewrite string_app_empty_l.
    + apply IH; [done|]. by rewrite string_app_assoc.
Qed.

Lemma emit_all_depth texts : forall g r g',
  emit_all texts g = (r, g') ->
  indent_ g' = indent_ g /\
  (r = Ok tt ->
   current_indent_ g' = current_indent_ g + brace_delta (concat_strings texts)).
Proof.
  induction texts as [|text rest IH]; intros g r g'; simpl.
  - intros [= <- <-]. split; [done|]. simpl. lia.
  - destruct (operator_lshift text g) as [[[]| |] g1] eqn:H1.
    + rewrite (bind_ok _ _ _ _ _ H1). intros H.
      apply IH in H as [Hi Hd].
      apply operator_lshift_from_depth in H1 as [Hi1 Hd1].
      split; [congruence|]. intros Hr.
      rewrite (Hd Hr), (Hd1 eq_refl), string_app_empty_l, brace_delta_app. lia.
    + rewrite (bind_error _ _ _ _ _ H1). intros [= <- <-].
      apply operator_lshift_from_depth in H1 as [Hi1 _]. done.
    + rewrite (bind_diverges _ _ _ _ H1). intros [= <- <-].
      apply operator_lshift_from_depth in H1 as [Hi1 _]. done.
Qed.

Lemma emit_all_safe texts : forall g,
  0 <= current_indent_ g ->
  never_below_zero (concat_strings texts) (current_indent_ g) = true ->
  exists g', emit_all texts g = (Ok tt, g').
Proof.
  induction texts as [|text rest IH]; intros g Hd Hs; simpl.
  - by exists g.
  - simpl in Hs. rewrite never_below_zero_app in Hs.
    apply andb_true_iff in Hs as [Hs1 Hs2].
    destruct (operator_lshift_from_safe text "" g Hd) as [g1 H1].
    { by rewrite string_app_empty_l. }
    unfold operator_lshift. rewrite (bind_ok _ _ _ _ _ H1).
    apply operator_lshift_from_depth in H1 as [_ Hd1].
    specialize (Hd1 eq_refl). rewrite string_app_empty_l in Hd1.
    apply IH; rewrite Hd1; [by apply never_below_zero_end | done].
Qed.

(** C4 (as amended): texts whose braces are balanced, streamed into a
    generator at depth zero, are all accepted and leave the depth at zero,
    so that the check of [dump] passes; whenever texts are accepted the
    depth has moved by their opening minus their closing braces.  A text
    that starts a line with a closing brace is printed after the
    indentation of one level less than the depth.  A line start is refused
    when the depth, one less for a text that begins with a closing brace,
    is negative, and [dump] refuses a depth other than zero.  The depth is
    an integer that a closing brace lowers by one, never wrapped and never
    clamped. *)
Theorem indentation_depth g :
  (forall texts,
     current_indent_ g = 0 -> balanced (concat_strings texts) ->
     exists g', emit_all texts g = (Ok tt, g') /\
       current_indent_ g' = 0 /\ dump_consistency_check g' = (Ok tt, g')) /\
  (forall texts g',
     emit_all texts g = (Ok tt, g') ->
     current_indent_ g' =
       current_indent_ g + brace_delta (concat_strings texts)) /\
  (forall s,
     newline_ g = true -> front_is s "}" = true -> 1 <= current_indent_ g ->
     exists g', print_formatted s g = (Ok tt, g') /\
       buffer g' =
         buffer g
         +:+ Str.spaces (indent_ g * (current_indent_ g - 1)) +:+ s) /\
  (forall s,
     s <> "" -> newline_ g = true ->
     current_indent_ g + (if front_is s "}" then -1 else 0) < 0 ->
     is_error (print_formatted s g).1 /\ (print_formatted s g).2 = g) /\
  (current_indent_ g <> 0 -> is_error (dump_consistency_check g).1) /\
  (forall s, (scan_braces s g).1 = Ok tt /\
     current_indent_ (scan_braces s g).2 = current_indent_ g + brace_delta s).
Proof.
  repeat split.
  - intros texts Hd [Hs Hb].
    destruct (emit_all_safe texts g) as [g' Hg']; [lia | by rewrite Hd |].
    exists g'. split; [done|].
    destruct (emit_all_depth _ _ _ _ Hg') as [_ Hd'].
    specialize (Hd' eq_refl). rewrite Hd, Hb in Hd'. simpl in Hd'.
    split; [done|]. unfold dump_consistency_check.
    by rewrite bind_gets, Hd'.
  - intros texts g' H. by apply (emit_all_depth _ _ _ _ H).
  - intros s Hnl Hf Hd. exists (printed s g).
    rewrite print_formatted_ok.
    + split; [done|]. unfold printed. simpl. by rewrite Hnl, Hf.
    + by destruct s.
    + intros _. rewrite Hf. lia.
  - by rewrite print_formatted_underflow.
  - by rewrite print_formatted_underflow.
  - intros Hd. unfold dump_consistency_check. rewrite bind_gets.
    apply Z.eqb_neq in Hd. by rewrite Hd.
  - by rewrite scan_braces_spec.
  - by rewrite scan_braces_spec.
Qed.

(** A function body streamed in three pieces. *)
Definition example_body : list string :=
  ["int f(void) {" +:+ Str.endl +:+ "if (x) {" +:+ Str.endl;
   "return 1;" +:+ Str.endl +:+ "}";
   " else { return 0; }" +:+ Str.endl +:+ "}" +:+ Str.endl].

Lemma indentation_depth_witness :
  let g := CodeGenerator_init 2 in
  (exists g', emit_all example_body g = (Ok tt, g') /\
     current_indent_ g' = 0 /\ dump_consistency_check g' = (Ok tt, g')) /\
  (exists g', print_formatted "} else {" (set_current_indent_ 2 g) = (Ok tt, g') /\
     buffer g' = "" +:+ Str.spaces (2 * (2 - 1)) +:+ "} else {") /\
  is_error (print_formatted "}" g).1 /\
  is_error (dump_consistency_check (set_current_indent_ (-1) g)).1.
Proof.
  intros g. split; [|split; [|split]].
  - destruct (indentation_depth g) as (Hbalanced & _).
    apply (Hbalanced example_body); [done|]. split; by vm_compute.
  - destruct (indentation_depth (set_current_indent_ 2 g))
      as (_ & _ & Hclosing & _).
    apply (Hclosing "} else {"); [done | done | simpl; lia].
  - destruct (indentation_depth g) as (_ & _ & _ & Hunder & _).
    apply (Hunder "}"); [done | done | simpl; lia].
  - destruct (indentation_depth (set_current_indent_ (-1) g))
      as (_ & _ & _ & _ & Hdump & _).
    apply Hdump. simpl. lia.
Defined.

(** C4 (as stated) fails for a closing brace inside a line: at depth zero
    the text [a }] is accepted and leaves the depth at -1, and the text
    [a }{] is accepted and passes the check of [dump] afterwards, so that
    the passage below zero is never reported. *)
Lemma closing_brace_inside_line :
  let g := CodeGenerator_init 2 in
  operator_lshift "a }" g
    = (Ok tt, set_current_indent_ (-1)
                (set_newline_ false (set_buffer "a }" g))) /\
  (operator_lshift "a }{" g).1 = Ok tt /\
  (dump_consistency_check (operator_lshift "a }{" g).2).1 = Ok tt.
Proof. by vm_compute. Qed.

(** ** Specialising a routine template *)

Lemma starts_with_prefix (s pat : string) :
  Str.starts_with s pat = String.prefix pat s.
Proof.
  unfold Str.starts_with, Str.find.
  assert (Hsize : (Str.size s <? 0) = false).
  { apply Z.ltb_ge. unfold Str.size. lia. }
  rewrite Hsize. change (Z.to_nat 0) with 0%nat.
  destruct s as [|c s].
  - by destruct pat.
  - cbn [String.index].
    destruct (String.prefix pat (String c s)); [done|].
    destruct (String.index 0 pat s) as [n|]; [|done].
    apply Z.eqb_neq. lia.
Qed.

(** A line that starts with the symbol directive is none of the lines that
    are dropped before the directive is looked for. *)
Lemma symbol_line_not_dropped (line : string) :
  Str.starts_with line "// SYMBOL" = true ->
  Str.starts_with line "template" = false /\
  Str.starts_with line "#define" = false /\
  Str.starts_with line "#undef" = false /\
  String.eqb line "inline" = false.
Proof.
  rewrite !starts_with_prefix. destruct line as [|c line]; [done|].
  cbn [String.prefix]. destruct (ascii_dec "/" c) as [<-|]; [|done].
  intros _. done.
Qed.

Lemma substring_cons_lt (s : string) : forall n len c t,
  String.substring n len s = String c t -> (n < String.length s)%nat.
Proof.
  induction s as [|a s IH]; intros n len c t.
  - by destruct n, len.
  - destruct n as [|n]; simpl; [lia|].
    intros H. apply IH in H. lia.
Qed.

(** [find] of a non-empty pattern returns [npos] or a position inside the
    text. *)
Lemma find_bound (s pat : string) pos :
  pat <> "" ->
  Str.find s pat pos = Str.npos \/ 0 <= Str.find s pat pos < Str.size s.
Proof.
  intros Hpat. unfold Str.find.
  destruct (Str.size s <? pos); [by left|].
  destruct (String.index (Z.to_nat pos) pat s) as [n|] eqn:Hn; [|by left].
  right. apply index_correct1 in Hn.
  destruct pat as [|c pat]; [done|].
  apply substring_cons_lt in Hn. unfold Str.size. lia.
Qed.

Lemma wrap_succ_bound (s : string) n :
  n = Str.npos \/ 0 <= n < Str.size s ->
  0 <= Str.wrap (n + 1) <= Str.size s.
Proof.
  unfold Str.wrap. intros [-> | Hn].
  - unfold Str.npos. replace (2 ^ 64 - 1 + 1) with (2 ^ 64) by lia.
    rewrite Z.mod_same by lia. unfold Str.size. lia.
  - pose proof (Z.mod_pos_bound (n + 1) (2 ^ 64) ltac:(lia)).
    pose proof (Z.mod_le (n + 1) (2 ^ 64) ltac:(lia) ltac:(lia)). lia.
Qed.

(** The extraction of a quoted text never throws: the position handed to
    [substr] is inside the line. *)
Lemma quoted_ok (line : string) from :
  exists text n2, quoted line from = Ok (text, n2).
Proof.
  unfold quoted.
  set (n1 := Str.find line Str.quote from).
  set (n2 := Str.find line Str.quote (Str.wrap (n1 + 1))).
  assert (Hn1 : 0 <= Str.wrap (n1 + 1) <= Str.size line).
  { apply wrap_succ_bound. by apply find_bound. }
  unfold Str.substr.
  assert (Hlt : (Str.size line <? Str.wrap (n1 + 1)) = false).
  { apply Z.ltb_ge. lia. }
  rewrite Hlt. eauto.
Qed.

(** The suffix is empty exactly when every type of the instantiation is
    ["casadi_real"]; otherwise it lists all the types. *)
Definition all_default (inst : list string) : bool :=
  forallb (fun s => String.eqb s "casadi_real") inst.

Definition type_suffix (inst : list string) : string :=
  fold_left (fun suffix s' => suffix +:+ "_" +:+ s') inst "".

Lemma make_suffix_spec (rest inst : list string) :
  make_suffix rest inst = if all_default rest then "" else type_suffix inst.
Proof.
  induction rest as [|s rest IH]; [done|].
  cbn [make_suffix all_default forallb].
  destruct (String.eqb s "casadi_real"); simpl; [exact IH | done].
Qed.

Lemma fold_suffix_cons (inst : list string) : forall acc c,
  exists t, fold_left (fun suffix s' => suffix +:+ "_" +:+ s') inst
              (String c acc) = String c t.
Proof.
  induction inst as [|s inst IH]; intros acc c; simpl; [by eexists|].
  rewrite string_app_cons. apply IH.
Qed.

Lemma type_suffix_nonempty (inst : list string) :
  inst <> [] -> type_suffix inst <> "".
Proof.
  destruct inst as [|s inst]; [done|]. intros _. unfold type_suffix. simpl.
  rewrite string_app_empty_l.
  change ("_" +:+ s) with (String "_" s).
  destruct (fold_suffix_cons inst s "_") as [t ->]. done.
Qed.

Lemma make_suffix_empty_iff (inst : list string) :
  make_suffix inst inst = "" <-> all_default inst = true.
Proof.
  rewrite make_suffix_spec. destruct (all_default inst) eqn:Hall; [done|].
  split; [|done]. intros H. exfalso.
  apply (type_suffix_nonempty inst); [|done]. by intros ->.
Qed.

Lemma all_default_false_iff (inst : list string) :
  all_default inst = false <-> Exists (fun s => s <> "casadi_real") inst.
Proof.
  induction inst as [|s inst IH]; simpl.
  - split; [done | inversion 1].
  - rewrite Exists_cons, <- IH.
    destruct (String.eqb_spec s "casadi_real") as [->|Hne]; simpl.
    + split; [by right | intros [?|?]; done].
    + split; [by left | done].
Qed.

Lemma shorthand_adding name g :
  shorthand name true g =
    (Ok ("casadi_" +:+ name),
     set_added_shorthands_ ({[name]} ∪ added_shorthands_ g) g).
Proof. unfold shorthand. by rewrite bind_gets, bind_modify. Qed.

(** *** What [sanitize_source] changes *)

(** [g'] is [g] with more shorthands, and nothing else changed. *)
Definition more_shorthands (g g' : CodeGenerator) : Prop :=
  exists names, g' = set_added_shorthands_ names g /\
                added_shorthands_ g ⊆ names.

Lemma more_shorthands_refl g : more_shorthands g g.
Proof. exists (added_shorthands_ g). by rewrite set_added_shorthands_same. Qed.

Lemma more_shorthands_trans g1 g2 g3 :
  more_shorthands g1 g2 -> more_shorthands g2 g3 -> more_shorthands g1 g3.
Proof.
  intros (n1 & -> & H1) (n2 & -> & H2). exists n2. split; [done|].
  simpl in H2. set_solver.
Qed.

Lemma more_shorthands_insert name g :
  more_shorthands g
    (set_added_shorthands_ ({[name]} ∪ added_shorthands_ g) g).
Proof. eexists. split; [done|]. set_solver. Qed.

Lemma lift_bind {A B} (r : result A) (k : A -> M B) g :
  (lift r ≫= k) g =
    match r with
    | Ok a => k a g
    | Error msg => (Error msg, g)
    | Diverges => (Diverges, g)
    end.
Proof. by destruct r. Qed.

Lemma sanitize_line_frame suffix add_shorthand line rep ret g r g' :
  sanitize_line suffix add_shorthand line rep ret g = (r, g') ->
  more_shorthands g g'.
Proof.
  unfold sanitize_line.
  repeat match goal with
         | |- context [if ?b then _ else _] =>
             lazymatch b with
             | Str.starts_with _ _ => destruct b
             | String.eqb line _ => destruct b
             end
         end;
    try (intros [= <- <-]; apply more_shorthands_refl).
  - rewrite lift_bind. destruct (quoted line 0) as [sym| |];
      try (intros [= <- <-]; apply more_shorthands_refl).
    destruct add_shorthand.
    + rewrite bind_assoc, (bind_ok _ _ _ _ _ (shorthand_adding _ _)).
      rewrite bind_mret.
      destruct (negb (String.eqb suffix "")); intros [= <- <-];
        apply more_shorthands_insert.
    + rewrite bind_mret.
      destruct (negb (String.eqb suffix "")); intros [= <- <-];
        apply more_shorthands_refl.
  - rewrite lift_bind. destruct (quoted line 0) as [key| |];
      try (intros [= <- <-]; apply more_shorthands_refl).
    rewrite lift_bind. destruct (quoted line _) as [sub| |];
      intros [= <- <-]; apply more_shorthands_refl.
  - cbv zeta.
    match goal with |- context [if ?b then _ else _] => destruct b end;
      try (intros [= <- <-]; apply more_shorthands_refl).
    rewrite lift_bind.
    match goal with |- context [apply_replacements ?a ?b] =>
      destruct (apply_replacements a b) end;
      intros [= <- <-]; apply more_shorthands_refl.
Qed.

Lemma sanitize_lines_frame suffix add_shorthand lines :
  forall rep ret g r g',
  sanitize_lines suffix add_shorthand lines rep ret g = (r, g') ->
  more_shorthands g g'.
Proof.
  induction lines as [|line lines IH]; intros rep ret g r g'; simpl.
  - intros [= <- <-]. apply more_shorthands_refl.
  - destruct (sanitize_line suffix add_shorthand line rep ret g)
      as [[next| |] g1] eqn:H1;
      pose proof (sanitize_line_frame _ _ _ _ _ _ _ _ H1) as Hf.
    + rewrite (bind_ok _ _ _ _ _ H1). intros H. apply IH in H.
      by eapply more_shorthands_trans.
    + rewrite (bind_error _ _ _ _ _ H1). by intros [= <- <-].
    + rewrite (bind_diverges _ _ _ _ H1). by intros [= <- <-].
Qed.

(** [sanitize_source] changes the generator by registering shorthands, and
    in no other way. *)
Lemma sanitize_source_frame src inst add_shorthand g r g' :
  sanitize_source src inst add_shorthand g = (r, g') -> more_shorthands g g'.
Proof. apply sanitize_lines_frame. Qed.

(** The outcome of a line does not depend on the generator nor on whether
    shorthands are registered. *)
Lemma sanitize_line_result suffix line rep ret add1 add2 g1 g2 :
  (sanitize_line suffix add1 line rep ret g1).1 =
  (sanitize_line suffix add2 line rep ret g2).1.
Proof.
  unfold sanitize_line.
  repeat match goal with
         | |- context [if ?b then _ else _] =>
             lazymatch b with
             | Str.starts_with _ _ => destruct b
             | String.eqb line _ => destruct b
             end
         end; try done.
  - rewrite !lift_bind. destruct (quoted line 0) as [sym| |]; try done.
    destruct add1, add2;
      rewrite ?bind_assoc, ?(bind_ok _ _ _ _ _ (shorthand_adding _ _)),
        ?bind_mret;
      by destruct (negb (String.eqb suffix "")).
  - rewrite !lift_bind. destruct (quoted line 0) as [key| |]; try done.
    rewrite !lift_bind. by destruct (quoted line _) as [sub| |].
  - cbv zeta.
    match goal with |- context [if ?b then _ else _] => destruct b end;
      try done.
    rewrite !lift_bind.
    match goal with |- context [apply_replacements ?a ?b] =>
      by destruct (apply_replacements a b) end.
Qed.

Lemma sanitize_lines_result suffix lines : forall rep ret add1 add2 g1 g2,
  (sanitize_lines suffix add1 lines rep ret g1).1 =
  (sanitize_lines suffix add2 lines rep ret g2).1.
Proof.
  induction lines as [|line lines IH]; intros rep ret add1 add2 g1 g2;
    simpl; [done|].
  pose proof (sanitize_line_result suffix line rep ret add1 add2 g1 g2) as H.
  unfold mbind, M_bind.
  destruct (sanitize_line suffix add1 line rep ret g1) as [[n1| |] h1],
           (sanitize_line suffix add2 line rep ret g2) as [[n2| |] h2];
    simpl in H |- *; try done.
  - injection H as ->. apply IH.
  - by injection H as ->.
Qed.

(** The text [sanitize_source] makes of a template, a function of the
    template and the instantiation alone. *)
Definition sanitized (src : string) (inst : list string) : result string :=
  (sanitize_source src inst false (CodeGenerator_init 0)).1.

Lemma sanitize_source_result src inst add_shorthand g :
  (sanitize_source src inst add_shorthand g).1 = sanitized src inst.
Proof. apply sanitize_lines_result. Qed.

(** *** The symbol directive *)

(** The turns of the loop [while (std::getline(stream, line))] over
    [lines]: the replacements and the text of [ret] after them. *)
Fixpoint sanitize_prefix (suffix : string) (add_shorthand : bool)
  (lines : list string) (rep : replacements) (ret : string)
  : M (replacements * string) :=
  match lines with
  | [] => mret (rep, ret)
  | line :: rest =>
      next ← sanitize_line suffix add_shorthand line rep ret;
      sanitize_prefix suffix add_shorthand rest next.1 next.2
  end.

Lemma sanitize_lines_app suffix add_shorthand before :
  forall after rep ret g,
  sanitize_lines suffix add_shorthand (before ++ after) rep ret g =
    (next ← sanitize_prefix suffix add_shorthand before rep ret;
     sanitize_lines suffix add_shorthand after next.1 next.2) g.
Proof.
  induction before as [|line before IH]; intros after rep ret g; [done|].
  cbn [app sanitize_lines sanitize_prefix]. unfold mbind, M_bind.
  destruct (sanitize_line suffix add_shorthand line rep ret g)
    as [[next| |] g1]; [|done|done].
  by rewrite IH.
Qed.

(** What a line that starts with the symbol directive does. *)
Lemma sanitize_line_symbol suffix add_shorthand line rep ret g sym n2 :
  Str.starts_with line "// SYMBOL" = true ->
  quoted line 0 = Ok (sym, n2) ->
  sanitize_line suffix add_shorthand line rep ret g =
    (Ok (if String.eqb suffix "" then rep
         else rep ++ [(sym, sym +:+ suffix)], ret),
     if add_shorthand
     then set_added_shorthands_
            ({[sym +:+ suffix]} ∪ added_shorthands_ g) g
     else g).
Proof.
  intros Hline Hq.
  destruct (symbol_line_not_dropped line Hline) as (H1 & H2 & H3 & H4).
  unfold sanitize_line. rewrite H1, H2, H3, H4, Hline.
  unfold lift. rewrite (bind_ok _ _ g (sym, n2) g) by (by rewrite Hq).
  cbn [fst]. destruct add_shorthand.
  - rewrite bind_assoc, (bind_ok _ _ _ _ _ (shorthand_adding _ _)).
    rewrite bind_mret. by destruct (String.eqb suffix "").
  - rewrite bind_mret. by destruct (String.eqb suffix "").
Qed.

(** C7 (as amended): [sanitize_source] comes to a line of the template that
    starts with the symbol directive, the lines before it having been
    processed.  The suffix is not empty exactly when the instantiation
    holds a type other than ["casadi_real"], and then lists the types.
    When [add_shorthand] is set, the line registers [sym + suffix], [sym]
    being the quoted name, which with an empty suffix is [sym] itself, and
    the shorthand is registered when [sanitize_source] is over, whatever
    its outcome; when [add_shorthand] is not set the line registers
    nothing.  The lines after it are processed with the rename of [sym] to
    the suffixed name at the end of the replacements when the suffix is not
    empty, and with the replacements as they were when it is empty; the
    line adds nothing to the text. *)
Theorem symbol_directive (src : string) (inst : list string)
  (add_shorthand : bool) (before after : list string) (line : string)
  (g : CodeGenerator) :
  Str.getlines src "" = before ++ line :: after ->
  Str.starts_with line "// SYMBOL" = true ->
  let suffix := make_suffix inst inst in
  exists sym n2,
    quoted line 0 = Ok (sym, n2) /\
    (suffix <> "" <-> Exists (fun s => s <> "casadi_real") inst) /\
    (suffix <> "" -> suffix = type_suffix inst) /\
    (suffix = "" -> sym +:+ suffix = sym) /\
    forall rep ret g1,
      sanitize_prefix suffix add_shorthand before
        (template_parameters 0 inst) "" g = (Ok (rep, ret), g1) ->
      sanitize_source src inst add_shorthand g =
        sanitize_lines suffix add_shorthand after
          (if String.eqb suffix "" then rep
           else rep ++ [(sym, sym +:+ suffix)])
          ret
          (if add_shorthand
           then set_added_shorthands_
                  ({[sym +:+ suffix]} ∪ added_shorthands_ g1) g1
           else g1) /\
      (add_shorthand = true ->
       sym +:+ suffix
         ∈ added_shorthands_ (sanitize_source src inst add_shorthand g).2).
Proof.
  intros Hlines Hline suffix.
  destruct (quoted_ok line 0) as (sym & n2 & Hq).
  exists sym, n2. split; [done|].
  split; [|split; [|split]].
  - rewrite <- all_default_false_iff. subst suffix.
    rewrite make_suffix_empty_iff. by destruct (all_default inst).
  - subst suffix. rewrite make_suffix_spec.
    by destruct (all_default inst).
  - intros ->. apply string_app_empty_r.
  - intros rep ret g1 Hbefore.
    assert (Hrun : sanitize_source src inst add_shorthand g =
              sanitize_lines suffix add_shorthand after
                (if String.eqb suffix "" then rep
                 else rep ++ [(sym, sym +:+ suffix)])
                ret
                (if add_shorthand
                 then set_added_shorthands_
                        ({[sym +:+ suffix]} ∪ added_shorthands_ g1) g1
                 else g1)).
    { unfold sanitize_source. fold suffix.
      rewrite Hlines, sanitize_lines_app, (bind_ok _ _ _ _ _ Hbefore).
      cbn [sanitize_lines fst snd].
      by rewrite (bind_ok _ _ _ _ _
                    (sanitize_line_symbol suffix add_shorthand line rep ret
                       g1 sym n2 Hline Hq)). }
    split; [exact Hrun|]. intros ->. rewrite Hrun.
    match goal with |- context [sanitize_lines ?a ?b ?c ?d ?e ?h] =>
      destruct (sanitize_lines a b c d e h) as [r g'] eqn:Hrest
    end.
    apply sanitize_lines_frame in Hrest as (names & -> & Hsub).
    simpl in *. apply Hsub, elem_of_union. left. by apply elem_of_singleton.
Qed.

(** A template with a line before and a line after the directive of the
    fill routine. *)
Definition symbol_fill_src : string :=
  "template<typename T1>" +:+ Str.endl
  +:+ "// SYMBOL " +:+ Str.quote +:+ "fill" +:+ Str.quote +:+ Str.endl
  +:+ "void casadi_fill(T1* x);" +:+ Str.endl.

Lemma symbol_directive_witness :
  sanitize_source symbol_fill_src ["int"%string] true (CodeGenerator_init 2)
    = (Ok ("void casadi_fill_int(int* x);" +:+ Str.endl +:+ Str.endl),
       set_added_shorthands_ {["fill_int"%string]} (CodeGenerator_init 2)) /\
  sanitize_source symbol_fill_src ["casadi_real"%string] true
    (CodeGenerator_init 2)
    = (Ok ("void casadi_fill(casadi_real* x);" +:+ Str.endl +:+ Str.endl),
       set_added_shorthands_ {["fill"%string]} (CodeGenerator_init 2)).
Proof.
  split.
  - destruct (symbol_directive symbol_fill_src ["int"%string] true
                ["template<typename T1>"%string]
                ["void casadi_fill(T1* x);"%string]
                ("// SYMBOL " +:+ Str.quote +:+ "fill" +:+ Str.quote)
                (CodeGenerator_init 2) eq_refl eq_refl)
      as (sym & n2 & Hq & _ & _ & _ & Hrun).
    vm_compute in Hq. injection Hq as <- _.
    destruct (Hrun [("T1", "int")]%string ""%string (CodeGenerator_init 2)
                eq_refl) as [-> _].
    by vm_compute.
  - destruct (symbol_directive symbol_fill_src ["casadi_real"%string] true
                ["template<typename T1>"%string]
                ["void casadi_fill(T1* x);"%string]
                ("// SYMBOL " +:+ Str.quote +:+ "fill" +:+ Str.quote)
                (CodeGenerator_init 2) eq_refl eq_refl)
      as (sym & n2 & Hq & _ & _ & _ & Hrun).
    vm_compute in Hq. injection Hq as <- _.
    destruct (Hrun [("T1", "casadi_real")]%string ""%string
                (CodeGenerator_init 2) eq_refl) as [-> _].
    by vm_compute.
Defined.

(** C7 (as stated) fails when [add_shorthand] is false: the directive line
    of the template registers no shorthand, with a suffix or without, and
    the generator stays as it is; the rename is recorded all the same, as
    the text shows. *)
Lemma symbol_directive_not_added :
  sanitize_source symbol_fill_src ["int"%string] false (CodeGenerator_init 2)
    = (Ok ("void casadi_fill_int(int* x);" +:+ Str.endl +:+ Str.endl),
       CodeGenerator_init 2) /\
  sanitize_source symbol_fill_src ["casadi_real"%string] false
    (CodeGenerator_init 2)
    = (Ok ("void casadi_fill(casadi_real* x);" +:+ Str.endl +:+ Str.endl),
       CodeGenerator_init 2).
Proof. split; by vm_compute. Qed.

(** ** Auxiliary routines *)

(** The pair is in the record of emitted instantiations: the outcome of the
    search that opens [add_auxiliary]. *)
Definition recorded (f : Auxiliary) (inst : list string) (g : CodeGenerator)
  : bool :=
  existsb (fun it => bool_decide (it.2 = inst))
          (equal_range (added_auxiliaries_ g) f).

Definition record (f : Auxiliary) (inst : list string) (g : CodeGenerator)
  : CodeGenerator :=
  set_added_auxiliaries_ (added_auxiliaries_ g ++ [(f, inst)]) g.

Lemma recorded_iff f inst g :
  recorded f inst g = true <-> (f, inst) ∈ added_auxiliaries_ g.
Proof.
  unfold recorded, equal_range. rewrite existsb_exists. split.
  - intros ([f' inst'] & Hin & Heq). apply bool_decide_eq_true in Heq.
    apply list_elem_of_In, list_elem_of_filter in Hin as [Hf Hin].
    simpl in *. by subst.
  - intros Hin. exists (f, inst). split; [|by apply bool_decide_eq_true].
    apply list_elem_of_In, list_elem_of_filter. done.
Qed.

Lemma recorded_false_iff f inst g :
  recorded f inst g = false <-> (f, inst) ∉ added_auxiliaries_ g.
Proof.
  rewrite <- recorded_iff. by destruct (recorded f inst g).
Qed.

Section AuxiliaryFacts.

Variable casadi_str : Auxiliary -> string.
Variable default_inst : list string.

Local Abbreviation aux_rec := (add_auxiliary_rec casadi_str default_inst).
Local Abbreviation aux_add := (add_auxiliary casadi_str default_inst).

(** The routines the source requests before it emits a routine of kind
    [f], in the order of the requests. *)
Definition prerequisites (f : Auxiliary) : list (Auxiliary * list string) :=
  match f with
  | AUX_INTERPN =>
      [(AUX_INTERPN_WEIGHTS, default_inst);
       (AUX_INTERPN_INTERPOLATE, default_inst);
       (AUX_FLIP, []); (AUX_FILL, default_inst); (AUX_FILL, ["int"%string])]
  | AUX_INTERPN_GRAD => [(AUX_INTERPN, default_inst)]
  | AUX_ND_BOOR_EVAL =>
      [(AUX_DE_BOOR, default_inst); (AUX_FILL, default_inst);
       (AUX_FILL, ["int"%string]); (AUX_LOW, default_inst)]
  | AUX_INTERPN_WEIGHTS => [(AUX_LOW, default_inst)]
  | AUX_DENSIFY => [(AUX_FILL, default_inst)]
  | AUX_FROM_MEX => [(AUX_FILL, default_inst)]
  | _ => []
  end.

(** The instantiation the template of kind [f] is specialised with. *)
Definition template_inst (f : Auxiliary) (inst : list string) : list string :=
  match f, inst with
  | AUX_DENSIFY, [only] => [only; only]
  | _, _ => inst
  end.

(** The text the auxiliary section receives for a routine of kind [f] whose
    specialised template is [text]. *)
Definition routine_text (f : Auxiliary) (text : string) : string :=
  match f with
  | AUX_TO_MEX | AUX_FROM_MEX =>
      ("#ifdef MATLAB_MEX_FILE" +:+ Str.endl) +:+ text
      +:+ ("#endif" +:+ Str.endl +:+ Str.endl)
  | _ => text
  end.

Definition emit_own (f : Auxiliary) (inst : list string) : M unit :=
  match f with
  | AUX_TO_MEX | AUX_FROM_MEX => emit_sanitized_mex (casadi_str f) inst
  | _ => emit_sanitized (casadi_str f) (template_inst f inst)
  end.

Fixpoint with_prerequisites (depth : nat)
  (requests : list (Auxiliary * list string)) (k : M unit) : M unit :=
  match requests with
  | [] => k
  | (f, inst) :: rest =>
      aux_rec depth f inst;; with_prerequisites depth rest k
  end.

(** Every case of the switch requests its prerequisites and then emits its
    own routine. *)
Lemma add_auxiliary_rec_unfold depth f inst :
  aux_rec (S depth) f inst =
    (duplicate ← gets (recorded f inst);
     if duplicate : bool then mret tt
     else modify (record f inst);;
          with_prerequisites depth (prerequisites f) (emit_own f inst)).
Proof. destruct f; try reflexivity. by destruct inst as [|? [|? ?]]. Qed.

(** [g'] has the record and the auxiliary section of [g], each with more at
    its end; a record without repetition stays so. *)
Definition auxiliaries_grow (g g' : CodeGenerator) : Prop :=
  (exists more, added_auxiliaries_ g' = added_auxiliaries_ g ++ more) /\
  (exists text, auxiliaries g' = auxiliaries g +:+ text) /\
  (NoDup (added_auxiliaries_ g) -> NoDup (added_auxiliaries_ g')).

Lemma auxiliaries_grow_refl g : auxiliaries_grow g g.
Proof.
  split; [exists []; by rewrite app_nil_r|].
  split; [exists ""; by rewrite string_app_empty_r | done].
Qed.

Lemma auxiliaries_grow_trans g1 g2 g3 :
  auxiliaries_grow g1 g2 -> auxiliaries_grow g2 g3 -> auxiliaries_grow g1 g3.
Proof.
  intros ([m1 H1] & [t1 K1] & N1) ([m2 H2] & [t2 K2] & N2).
  split; [exists (m1 ++ m2); by rewrite H2, H1, app_assoc|].
  split; [exists (t1 +:+ t2); by rewrite K2, K1, string_app_assoc | auto].
Qed.

Lemma more_shorthands_grow g g' : more_shorthands g g' -> auxiliaries_grow g g'.
Proof.
  intros (names & -> & _).
  split; [exists []; simpl; by rewrite app_nil_r|].
  split; [exists ""; simpl; by rewrite string_app_empty_r | done].
Qed.

Lemma append_auxiliaries_grow text g :
  auxiliaries_grow g (set_auxiliaries (auxiliaries g +:+ text) g).
Proof.
  split; [exists []; by rewrite app_nil_r|]. split; [by exists text | done].
Qed.

Lemma record_grow f inst g :
  recorded f inst g = false -> auxiliaries_grow g (record f inst g).
Proof.
  intros Hr. apply recorded_false_iff in Hr.
  split; [by exists [(f, inst)]|].
  split; [exists ""; by rewrite string_app_empty_r|].
  simpl. intros Hnd. apply NoDup_app. split; [done|].
  split; [|apply NoDup_singleton].
  intros x Hx Hx'. apply list_elem_of_singleton in Hx'. by subst.
Qed.

(** [this->auxiliaries << sanitize_source(src, inst)], when it returns,
    has appended the sanitized text. *)
Lemma emit_sanitized_ok src inst g g' :
  emit_sanitized src inst g = (Ok tt, g') ->
  exists text, sanitized src inst = Ok text /\
    auxiliaries g' = auxiliaries g +:+ text /\
    added_auxiliaries_ g' = added_auxiliaries_ g.
Proof.
  unfold emit_sanitized.
  destruct (sanitize_source src inst true g) as [[text| |] g1] eqn:Hs.
  - rewrite (bind_ok _ _ _ _ _ Hs). unfold append_auxiliaries, modify.
    intros [= <-]. exists text.
    pose proof (sanitize_source_result src inst true g) as Hr.
    rewrite Hs in Hr. simpl in Hr.
    apply sanitize_source_frame in Hs as (names & -> & _).
    by split.
  - by rewrite (bind_error _ _ _ _ _ Hs).
  - by rewrite (bind_diverges _ _ _ _ Hs).
Qed.

Lemma emit_sanitized_mex_ok src inst g g' :
  emit_sanitized_mex src inst g = (Ok tt, g') ->
  exists text, sanitized src inst = Ok text /\
    auxiliaries g' =
      auxiliaries g
      +:+ (("#ifdef MATLAB_MEX_FILE" +:+ Str.endl) +:+ text
           +:+ ("#endif" +:+ Str.endl +:+ Str.endl)) /\
    added_auxiliaries_ g' = added_auxiliaries_ g.
Proof.
  unfold emit_sanitized_mex.
  destruct (sanitize_source src inst true g) as [[text| |] g1] eqn:Hs.
  - rewrite (bind_ok _ _ _ _ _ Hs). unfold append_auxiliaries.
    rewrite !bind_modify. unfold modify. intros [= <-]. exists text.
    pose proof (sanitize_source_result src inst true g) as Hr.
    rewrite Hs in Hr. simpl in Hr.
    apply sanitize_source_frame in Hs as (names & -> & _).
    split; [by symmetry|]. simpl. by rewrite !string_app_assoc.
  - by rewrite (bind_error _ _ _ _ _ Hs).
  - by rewrite (bind_diverges _ _ _ _ Hs).
Qed.

Lemma emit_sanitized_grow src inst g r g' :
  emit_sanitized src inst g = (r, g') -> auxiliaries_grow g g'.
Proof.
  unfold emit_sanitized.
  destruct (sanitize_source src inst true g) as [[text| |] g1] eqn:Hs;
    pose proof (more_shorthands_grow _ _ (sanitize_source_frame _ _ _ _ _ _ Hs)).
  - rewrite (bind_ok _ _ _ _ _ Hs). unfold append_auxiliaries, modify.
    intros [= <- <-]. eapply auxiliaries_grow_trans; [done|].
    apply append_auxiliaries_grow.
  - rewrite (bind_error _ _ _ _ _ Hs). by intros [= <- <-].
  - rewrite (bind_diverges _ _ _ _ Hs). by intros [= <- <-].
Qed.

Lemma emit_sanitized_mex_grow src inst g r g' :
  emit_sanitized_mex src inst g = (r, g') -> auxiliaries_grow g g'.
Proof.
  unfold emit_sanitized_mex.
  destruct (sanitize_source src inst true g) as [[text| |] g1] eqn:Hs;
    pose proof (more_shorthands_grow _ _ (sanitize_source_frame _ _ _ _ _ _ Hs)).
  - rewrite (bind_ok _ _ _ _ _ Hs). unfold append_auxiliaries.
    rewrite !bind_modify. unfold modify.
    intros [= <- <-]. eapply auxiliaries_grow_trans; [done|].
    eapply auxiliaries_grow_trans; [apply append_auxiliaries_grow|].
    eapply auxiliaries_grow_trans; apply append_auxiliaries_grow.
  - rewrite (bind_error _ _ _ _ _ Hs). by intros [= <- <-].
  - rewrite (bind_diverges _ _ _ _ Hs). by intros [= <- <-].
Qed.

Lemma emit_own_grow f inst g r g' :
  emit_own f inst g = (r, g') -> auxiliaries_grow g g'.
Proof.
  destruct f; simpl;
    first [apply emit_sanitized_grow | apply emit_sanitized_mex_grow].
Qed.

Lemma emit_own_ok f inst g g' :
  emit_own f inst g = (Ok tt, g') ->
  exists text, sanitized (casadi_str f) (template_inst f inst) = Ok text /\
    auxiliaries g' = auxiliaries g +:+ routine_text f text /\
    added_auxiliaries_ g' = added_auxiliaries_ g.
Proof.
  destruct f; simpl;
    first [apply emit_sanitized_ok | apply emit_sanitized_mex_ok].
Qed.

(** A request, whatever its outcome, only adds to the record and to the
    auxiliary section; when the bound on the nesting is not zero the pair
    requested is in the record afterwards. *)
Lemma add_auxiliary_rec_grow depth : forall f inst g r g',
  aux_rec depth f inst g = (r, g') ->
  auxiliaries_grow g g' /\
  (depth <> 0%nat -> (f, inst) ∈ added_auxiliaries_ g').
Proof.
  induction depth as [|depth IH]; intros f inst g r g'.
  - simpl. intros [= <- <-]. split; [apply auxiliaries_grow_refl | done].
  - rewrite add_auxiliary_rec_unfold, bind_gets.
    destruct (recorded f inst g) eqn:Hrec.
    + intros [= <- <-]. split; [apply auxiliaries_grow_refl|].
      intros _. by apply recorded_iff.
    + rewrite bind_modify.
      assert (Hin : (f, inst) ∈ added_auxiliaries_ (record f inst g)).
      { simpl. apply elem_of_app. right. by apply list_elem_of_singleton. }
      pose proof (record_grow f inst g Hrec) as Hg.
      revert Hin Hg. generalize (record f inst g). clear Hrec.
      induction (prerequisites f) as [|[p pi] rest IHrest];
        intros g1 Hin Hg; simpl.
      * intros H. apply emit_own_grow in H.
        pose proof (auxiliaries_grow_trans _ _ _ Hg H) as Hgrow.
        split; [done|]. intros _. destruct H as [[more ->] _].
        apply elem_of_app. by left.
      * destruct (aux_rec depth p pi g1) as [[[]| |] g2] eqn:Hp;
          destruct (IH _ _ _ _ _ Hp) as [Hg2 _].
        -- rewrite (bind_ok _ _ _ _ _ Hp). apply IHrest.
           ++ destruct Hg2 as [[more ->] _]. apply elem_of_app. by left.
           ++ by eapply auxiliaries_grow_trans.
        -- rewrite (bind_error _ _ _ _ _ Hp). intros [= <- <-].
           split; [by eapply auxiliaries_grow_trans|]. intros _.
           destruct Hg2 as [[more ->] _]. apply elem_of_app. by left.
        -- rewrite (bind_diverges _ _ _ _ Hp). intros [= <- <-].
           split; [by eapply auxiliaries_grow_trans|]. intros _.
           destruct Hg2 as [[more ->] _]. apply elem_of_app. by left.
Qed.

End AuxiliaryFacts.

Section AuxiliaryClaims.

Variable casadi_str : Auxiliary -> string.
Variable default_inst : list string.

Local Abbreviation aux_rec := (add_auxiliary_rec casadi_str default_inst).
Local Abbreviation aux_add := (add_auxiliary casadi_str default_inst).
Local Abbreviation prerequisites := (prerequisites default_inst).
Local Abbreviation emit_own := (emit_own casadi_str).
Local Abbreviation with_prerequisites :=
  (with_prerequisites casadi_str default_inst).

(** How deep the requests below a kind nest. *)
Definition rank (f : Auxiliary) : nat :=
  match f with
  | AUX_INTERPN_GRAD => 3
  | AUX_INTERPN => 2
  | AUX_INTERPN_WEIGHTS | AUX_ND_BOOR_EVAL | AUX_DENSIFY | AUX_FROM_MEX => 1
  | _ => 0
  end.

Lemma prerequisites_rank f :
  Forall (fun p => (rank p.1 < rank f)%nat) (prerequisites f).
Proof. destruct f; simpl; repeat constructor. Qed.

(** A bound above the rank of the kind is enough: the result is the same
    with every such bound. *)
Lemma add_auxiliary_rec_enough d1 : forall d2 f inst g,
  (rank f < d1)%nat -> (rank f < d2)%nat ->
  aux_rec d1 f inst g = aux_rec d2 f inst g.
Proof.
  induction d1 as [|d1 IH]; intros d2 f inst g H1 H2; [lia|].
  destruct d2 as [|d2]; [lia|].
  rewrite !add_auxiliary_rec_unfold, !bind_gets.
  destruct (recorded f inst g); [done|]. rewrite !bind_modify.
  generalize (record f inst g).
  pose proof (prerequisites_rank f) as Hrank.
  induction Hrank as [|[p pi] rest Hp _ IHrest]; intros g1; simpl; [done|].
  simpl in Hp. unfold mbind, M_bind.
  rewrite (IH d2 p pi g1) by lia.
  destruct (aux_rec d2 p pi g1) as [[[]| |] g2]; [apply IHrest | done | done].
Qed.

Lemma add_auxiliary_rec_3 f inst g :
  (rank f < 3)%nat -> aux_rec 3 f inst g = aux_add f inst g.
Proof.
  intros H. unfold add_auxiliary. apply add_auxiliary_rec_enough; lia.
Qed.

Lemma add_auxiliary_recorded f inst g :
  (f, inst) ∈ added_auxiliaries_ g -> aux_add f inst g = (Ok tt, g).
Proof.
  intros Hin. apply recorded_iff in Hin. unfold add_auxiliary.
  by rewrite add_auxiliary_rec_unfold, bind_gets, Hin.
Qed.

Lemma with_prerequisites_ok depth f inst requests : forall g g',
  with_prerequisites depth requests (emit_own f inst) g = (Ok tt, g') ->
  exists before text,
    sanitized (casadi_str f) (template_inst f inst) = Ok text /\
    auxiliaries g' = (auxiliaries g +:+ before) +:+ routine_text f text.
Proof.
  induction requests as [|[p pi] rest IH]; intros g g'; simpl.
  - intros H. apply emit_own_ok in H as (text & Ht & Ha & _).
    exists "", text. by rewrite string_app_empty_r.
  - destruct (aux_rec depth p pi g) as [[[]| |] g1] eqn:Hp.
    + rewrite (bind_ok _ _ _ _ _ Hp). intros H.
      apply IH in H as (before & text & Ht & Ha).
      apply add_auxiliary_rec_grow in Hp as [(_ & [t Hg] & _) _].
      exists (t +:+ before), text. split; [done|].
      by rewrite Ha, Hg, !string_app_assoc.
    + by rewrite (bind_error _ _ _ _ _ Hp).
    + by rewrite (bind_diverges _ _ _ _ Hp).
Qed.

Lemma add_auxiliary_after f inst g r g' :
  aux_add f inst g = (r, g') ->
  (f, inst) ∈ added_auxiliaries_ g' /\
  aux_add f inst g' = (Ok tt, g') /\
  (NoDup (added_auxiliaries_ g) -> NoDup (added_auxiliaries_ g')).
Proof.
  intros H. unfold add_auxiliary in H.
  apply add_auxiliary_rec_grow in H as [(_ & _ & Hnd) Hin].
  specialize (Hin ltac:(done)).
  split; [done|]. split; [by apply add_auxiliary_recorded | done].
Qed.

Lemma add_auxiliary_fresh f inst g g' :
  (f, inst) ∉ added_auxiliaries_ g ->
  aux_add f inst g = (Ok tt, g') ->
  exists before text,
    sanitized (casadi_str f) (template_inst f inst) = Ok text /\
    auxiliaries g' = (auxiliaries g +:+ before) +:+ routine_text f text.
Proof.
  intros Hnew. apply recorded_false_iff in Hnew.
  unfold add_auxiliary.
  rewrite add_auxiliary_rec_unfold, bind_gets, Hnew, bind_modify.
  intros H. by apply with_prerequisites_ok in H.
Qed.

(** The requests [add_auxiliary(p, pinst)] for the pairs of [requests],
    one after the other. *)
Fixpoint request_all (requests : list (Auxiliary * list string)) : M unit :=
  match requests with
  | [] => mret tt
  | (p, pinst) :: rest => aux_add p pinst;; request_all rest
  end.

(** The pairs that a request for [(f, inst)] emits at most: what the
    requests for its prerequisites emit, and then the pair. *)
Fixpoint requested (depth : nat) (f : Auxiliary) (inst : list string)
  : list (Auxiliary * list string) :=
  match depth with
  | O => [(f, inst)]
  | S depth' =>
      flat_map (fun p => requested depth' p.1 p.2) (prerequisites f)
      ++ [(f, inst)]
  end.

(** [sanitize_source] returns a text for the template of the pair. *)
Definition sanitizes (p : Auxiliary * list string) : Prop :=
  match sanitized (casadi_str p.1) (template_inst p.1 p.2) with
  | Ok _ => True
  | _ => False
  end.

Lemma rank_le_3 f : (rank f <= 3)%nat.
Proof. destruct f; simpl; lia. Qed.

Lemma with_prerequisites_requests (k : M unit) requests : forall g,
  Forall (fun p => (rank p.1 < 3)%nat) requests ->
  with_prerequisites 3 requests k g = (request_all requests;; k) g.
Proof.
  induction requests as [|[p pinst] rest IH]; intros g Hrank; [done|].
  apply Forall_cons in Hrank as [Hp Hrest]. simpl in Hp.
  cbn [with_prerequisites request_all]. rewrite bind_assoc.
  destruct (aux_add p pinst g) as [[[]| |] g1] eqn:H; pose proof H as H3;
    rewrite <- (add_auxiliary_rec_3 p pinst g Hp) in H3.
  - rewrite (bind_ok _ _ _ _ _ H), (bind_ok _ _ _ _ _ H3). by apply IH.
  - by rewrite (bind_error _ _ _ _ _ H), (bind_error _ _ _ _ _ H3).
  - by rewrite (bind_diverges _ _ _ _ H), (bind_diverges _ _ _ _ H3).
Qed.

Lemma add_auxiliary_unrecorded f inst g :
  (f, inst) ∉ added_auxiliaries_ g ->
  aux_add f inst g =
    (request_all (prerequisites f);; emit_own f inst) (record f inst g).
Proof.
  intros Hnew. apply recorded_false_iff in Hnew. unfold add_auxiliary.
  rewrite add_auxiliary_rec_unfold, bind_gets, Hnew, bind_modify.
  apply with_prerequisites_requests.
  eapply Forall_impl; [apply prerequisites_rank|].
  intros p Hp. simpl in Hp. pose proof (rank_le_3 f). lia.
Qed.

Lemma emit_own_returns f inst g :
  sanitizes (f, inst) -> exists g', emit_own f inst g = (Ok tt, g').
Proof.
  unfold sanitizes. cbn [fst snd].
  assert (He : forall src inst',
            match sanitized src inst' with Ok _ => True | _ => False end ->
            (exists g', emit_sanitized src inst' g = (Ok tt, g')) /\
            (exists g', emit_sanitized_mex src inst' g = (Ok tt, g'))).
  { intros src inst' Hs.
    rewrite <- (sanitize_source_result src inst' true g) in Hs.
    unfold emit_sanitized, emit_sanitized_mex.
    destruct (sanitize_source src inst' true g) as [[text| |] g1] eqn:Hrun;
      [|done|done].
    rewrite !(bind_ok _ _ _ _ _ Hrun). split; by eexists. }
  destruct f; cbn [emit_own]; intros Hs; apply (He _ _ Hs).
Qed.

Lemma add_auxiliary_rec_returns depth : forall f inst g,
  (rank f <= depth)%nat -> Forall sanitizes (requested depth f inst) ->
  exists g', aux_rec (S depth) f inst g = (Ok tt, g').
Proof.
  induction depth as [|depth IH]; intros f inst g Hrank Hs;
    rewrite add_auxiliary_rec_unfold, bind_gets;
    (destruct (recorded f inst g); [by eexists|]); rewrite bind_modify;
    generalize (record f inst g); cbn [requested] in Hs.
  - assert (Hnone : prerequisites f = []).
    { pose proof (prerequisites_rank f) as Hp.
      destruct (prerequisites f) as [|p rest]; [done|].
      apply Forall_cons in Hp as [Hp _]. lia. }
    rewrite Hnone. intros g1. cbn [with_prerequisites].
    apply emit_own_returns. exact (proj1 (Forall_singleton _ _) Hs).
  - apply Forall_app in Hs as [Hpre Hown].
    apply (proj1 (Forall_singleton _ _)) in Hown.
    pose proof (prerequisites_rank f) as Hp.
    induction Hp as [|[p pinst] rest Hp _ IHrest]; intros g1;
      cbn [with_prerequisites].
    + by apply emit_own_returns.
    + cbn [flat_map fst snd] in Hpre.
      apply Forall_app in Hpre as [Hthis Hrest]. simpl in Hp.
      destruct (IH p pinst g1 ltac:(lia) Hthis) as [g2 Hg2].
      rewrite (bind_ok _ _ _ _ _ Hg2). by apply IHrest.
Qed.

(** A request for a pair that is not in the record returns when
    [sanitize_source] returns for the templates that come into it. *)
Lemma add_auxiliary_returns f inst g :
  Forall sanitizes (requested 3 f inst) ->
  exists g', aux_add f inst g = (Ok tt, g').
Proof. apply add_auxiliary_rec_returns, rank_le_3. Qed.

(** C2: a request for a pair that is in the record leaves the generator as
    it is.  After a request the pair is in the record, so that the same
    request made again changes nothing, and a record without repetition
    stays without repetition: no pair is emitted twice.  A request for a
    pair that is not in the record, the kind being in the record with other
    instantiations or not, records the pair, requests the prerequisites of
    the kind and then emits the routine.  It returns when [sanitize_source]
    returns for the templates that come into it, and has then appended the
    specialised template, once, to the auxiliary section as the requests
    for the prerequisites left it, without a change of the record they
    left; for a kind without prerequisites the section is the one before
    the request with the routine at its end, and the record the one before
    with the pair at its end. *)
Theorem auxiliary_emitted_once (f : Auxiliary) (inst : list string)
  (g : CodeGenerator) :
  ((f, inst) ∈ added_auxiliaries_ g -> aux_add f inst g = (Ok tt, g)) /\
  (forall r g',
     aux_add f inst g = (r, g') ->
     (f, inst) ∈ added_auxiliaries_ g' /\
     aux_add f inst g' = (Ok tt, g') /\
     (NoDup (added_auxiliaries_ g) -> NoDup (added_auxiliaries_ g'))) /\
  ((f, inst) ∉ added_auxiliaries_ g ->
   aux_add f inst g =
     (request_all (prerequisites f);; emit_own f inst) (record f inst g)) /\
  ((f, inst) ∉ added_auxiliaries_ g ->
   Forall sanitizes (requested 3 f inst) ->
   exists g1 text g',
     request_all (prerequisites f) (record f inst g) = (Ok tt, g1) /\
     sanitized (casadi_str f) (template_inst f inst) = Ok text /\
     aux_add f inst g = (Ok tt, g') /\
     auxiliaries g' = auxiliaries g1 +:+ routine_text f text /\
     added_auxiliaries_ g' = added_auxiliaries_ g1 /\
     (prerequisites f = [] ->
      auxiliaries g' = auxiliaries g +:+ routine_text f text /\
      added_auxiliaries_ g' = added_auxiliaries_ g ++ [(f, inst)])).
Proof.
  split; [apply add_auxiliary_recorded|].
  split; [apply add_auxiliary_after|].
  split; [apply add_auxiliary_unrecorded|].
  intros Hnew Hs.
  destruct (add_auxiliary_returns f inst g Hs) as [g' Hrun].
  pose proof Hrun as Hrun'.
  rewrite (add_auxiliary_unrecorded f inst g Hnew) in Hrun'.
  destruct (request_all (prerequisites f) (record f inst g))
    as [[[]| |] g1] eqn:Hpre;
    [|by rewrite (bind_error _ _ _ _ _ Hpre) in Hrun'
     |by rewrite (bind_diverges _ _ _ _ Hpre) in Hrun'].
  rewrite (bind_ok _ _ _ _ _ Hpre) in Hrun'.
  apply emit_own_ok in Hrun' as (text & Ht & Ha & Hr).
  exists g1, text, g'. do 5 (split; [done|]).
  intros Hnone. rewrite Hnone in Hpre. injection Hpre as <-.
  split; [by rewrite Ha | by rewrite Hr].
Qed.

End AuxiliaryClaims.

Section Densify.

Variable casadi_str : Auxiliary -> string.
Variable default_inst : list string.

Local Abbreviation aux_add := (add_auxiliary casadi_str default_inst).

(** C6: a first request for the densify routine with the single type
    [type] records the pair, requests the fill routine with the default
    instantiation and then specialises the densify template with
    [type; type].  When the request returns, the auxiliary section has
    received the fill routine, unless it was in the record already, and
    after it the densify routine; the fill pair is in the record, which has
    no repetition if it had none, and further requests for either routine
    change nothing. *)
Theorem densify_single_type (type : string) (g : CodeGenerator) :
  (AUX_DENSIFY, [type]) ∉ added_auxiliaries_ g ->
  aux_add AUX_DENSIFY [type] g =
    (aux_add AUX_FILL default_inst;;
     emit_sanitized (casadi_str AUX_DENSIFY) [type; type])
      (record AUX_DENSIFY [type] g) /\
  forall g',
    aux_add AUX_DENSIFY [type] g = (Ok tt, g') ->
    exists fill_text densify_text,
      sanitized (casadi_str AUX_DENSIFY) [type; type] = Ok densify_text /\
      (if recorded AUX_FILL default_inst g then fill_text = ""
       else sanitized (casadi_str AUX_FILL) default_inst = Ok fill_text) /\
      auxiliaries g' = (auxiliaries g +:+ fill_text) +:+ densify_text /\
      (AUX_FILL, default_inst) ∈ added_auxiliaries_ g' /\
      (NoDup (added_auxiliaries_ g) -> NoDup (added_auxiliaries_ g')) /\
      aux_add AUX_FILL default_inst g' = (Ok tt, g') /\
      aux_add AUX_DENSIFY [type] g' = (Ok tt, g').
Proof.
  intros Hnew. apply recorded_false_iff in Hnew.
  assert (Hunfold :
    aux_add AUX_DENSIFY [type] g =
      (aux_add AUX_FILL default_inst;;
       emit_sanitized (casadi_str AUX_DENSIFY) [type; type])
        (record AUX_DENSIFY [type] g)).
  { unfold add_auxiliary at 1.
    rewrite add_auxiliary_rec_unfold, bind_gets, Hnew, bind_modify.
    cbn [with_prerequisites prerequisites emit_own template_inst].
    unfold mbind, M_bind.
    by rewrite (add_auxiliary_rec_3 casadi_str default_inst AUX_FILL)
      by (simpl; lia). }
  split; [exact Hunfold|].
  intros g' Hrun.
  destruct (add_auxiliary_after casadi_str default_inst _ _ _ _ _ Hrun)
    as (_ & Hagain & Hnd).
  rewrite Hunfold in Hrun.
  set (g1 := record AUX_DENSIFY [type] g) in *.
  assert (Hrec1 : recorded AUX_FILL default_inst g1
                  = recorded AUX_FILL default_inst g).
  { unfold recorded, equal_range. subst g1. simpl.
    rewrite filter_app, filter_cons_False by done.
    by rewrite filter_nil, app_nil_r. }
  destruct (aux_add AUX_FILL default_inst g1) as [[[]| |] g2] eqn:Hfill;
    [|by rewrite (bind_error _ _ _ _ _ Hfill) in Hrun
     |by rewrite (bind_diverges _ _ _ _ Hfill) in Hrun].
  rewrite (bind_ok _ _ _ _ _ Hfill) in Hrun.
  apply emit_sanitized_ok in Hrun as (densify_text & Hd & Ha & Hr).
  pose proof (add_auxiliary_recorded casadi_str default_inst AUX_FILL
                default_inst g1) as Hknown.
  pose proof (add_auxiliary_fresh casadi_str default_inst AUX_FILL
                default_inst g1) as Hfresh.
  destruct (add_auxiliary_after casadi_str default_inst _ _ _ _ _ Hfill)
    as (Hin2 & _ & _).
  assert (Hin' : (AUX_FILL, default_inst) ∈ added_auxiliaries_ g')
    by (by rewrite Hr).
  destruct (recorded AUX_FILL default_inst g) eqn:Hrec.
  - exists "", densify_text.
    rewrite Hknown in Hfill by (by apply recorded_iff; rewrite Hrec1).
    injection Hfill as <-.
    rewrite string_app_empty_r. repeat split; try done.
    by apply add_auxiliary_recorded.
  - assert (Hnotin : (AUX_FILL, default_inst) ∉ added_auxiliaries_ g1)
      by (by apply recorded_false_iff; rewrite Hrec1).
    destruct (Hfresh _ Hnotin Hfill) as (before & fill_text & Hf & Ha2).
    (* the fill routine has no prerequisite: nothing comes before it *)
    assert (Hbefore : auxiliaries g2 = auxiliaries g1 +:+ fill_text).
    { apply recorded_false_iff in Hnotin. unfold add_auxiliary in Hfill.
      rewrite add_auxiliary_rec_unfold, bind_gets, Hnotin, bind_modify
        in Hfill.
      simpl in Hfill. apply emit_sanitized_ok in Hfill as (t & Ht & Hg2 & _).
      simpl in Ht, Hf. rewrite Ht in Hf. injection Hf as ->. exact Hg2. }
    exists fill_text, densify_text. rewrite Ha, Hbefore.
    repeat split; try done. by apply add_auxiliary_recorded.
Qed.

End Densify.

(** *** Examples with two templates *)

Fixpoint unlines (lines : list string) : string :=
  match lines with
  | [] => ""
  | line :: rest => line +:+ Str.endl +:+ unlines rest
  end.

Definition example_fill_str : string :=
  unlines
    ["// SYMBOL " +:+ Str.quote +:+ "fill" +:+ Str.quote;
     "template<typename T1>";
     "void casadi_fill(T1* x, int n, T1 alpha) {";
     "  int i;";
     "  if (x) {";
     "    for (i=0; i<n; ++i) *x++ = alpha;";
     "  }";
     "}"].

Definition example_densify_str : string :=
  unlines
    ["// SYMBOL " +:+ Str.quote +:+ "densify" +:+ Str.quote;
     "template<typename T1, typename T2>";
     "void casadi_densify(const T1* x, const int* sp_x, T2* y, int tr) {";
     "  if (!y) return;         // nothing to do";
     "  casadi_fill(y, sp_x[0]*sp_x[1], CASADI_CAST(T2, 0));";
     "}"].

Definition example_casadi_str (f : Auxiliary) : string :=
  match f with
  | AUX_FILL => example_fill_str
  | AUX_DENSIFY => example_densify_str
  | _ => ""
  end.

Definition example_default_inst : list string := ["casadi_real"%string].

Lemma auxiliary_emitted_once_witness :
  let add := add_auxiliary example_casadi_str example_default_inst in
  let g1 := (add AUX_FILL ["int"%string] (CodeGenerator_init 2)).2 in
  add AUX_FILL ["int"%string] g1 = (Ok tt, g1) /\
  exists text g2,
    sanitized example_fill_str ["casadi_real"%string] = Ok text /\
    add AUX_FILL ["casadi_real"%string] g1 = (Ok tt, g2) /\
    auxiliaries g2 = auxiliaries g1 +:+ text /\
    added_auxiliaries_ g2 =
      [(AUX_FILL, ["int"%string]); (AUX_FILL, ["casadi_real"%string])].
Proof.
  intros add g1. split.
  - destruct (auxiliary_emitted_once example_casadi_str example_default_inst
                AUX_FILL ["int"%string] (CodeGenerator_init 2))
      as (_ & Hafter & _).
    destruct (Hafter _ _ (surjective_pairing _)) as (_ & H & _). exact H.
  - destruct (auxiliary_emitted_once example_casadi_str example_default_inst
                AUX_FILL ["casadi_real"%string] g1) as (_ & _ & _ & Hfresh).
    destruct Hfresh as (g0 & text & g2 & _ & Ht & Hrun & _ & _ & Hown).
    + apply recorded_false_iff. by vm_compute.
    + cbn [requested prerequisites flat_map app].
      apply Forall_singleton. by vm_compute.
    + destruct (Hown eq_refl) as [Ha Hr].
      exists text, g2. split; [exact Ht|]. split; [exact Hrun|].
      split; [exact Ha | exact Hr].
Defined.

Lemma densify_single_type_witness :
  let run := add_auxiliary example_casadi_str example_default_inst
               AUX_DENSIFY ["double"%string] (CodeGenerator_init 2) in
  run.1 = Ok tt /\
  exists fill_text densify_text,
    sanitized example_densify_str ["double"; "double"]%string
      = Ok densify_text /\
    sanitized example_fill_str ["casadi_real"%string] = Ok fill_text /\
    auxiliaries run.2 = ("" +:+ fill_text) +:+ densify_text.
Proof.
  intros run. split; [by vm_compute|].
  destruct (densify_single_type example_casadi_str example_default_inst
              "double" (CodeGenerator_init 2)) as [_ H].
  { apply recorded_false_iff. by vm_compute. }
  destruct (H run.2) as (fill_text & densify_text & Hd & Hf & Ha & _).
  { rewrite (surjective_pairing (add_auxiliary _ _ _ _ _)).
    f_equal; by vm_compute. }
  exists fill_text, densify_text. split; [exact Hd|].
  split; [exact Hf | exact Ha].
Defined.

(** ** Registering a function *)

(** The computation leaves the functions registered so far in place. *)
Definition keeps_functions {A} (c : M A) : Prop :=
  forall g r g', c g = (r, g') ->
    exists more, added_functions_ g' = added_functions_ g ++ more.

Lemma keeps_mret {A} (a : A) : keeps_functions (mret a).
Proof. intros g r g' [= <- <-]. exists []. by rewrite app_nil_r. Qed.

Lemma keeps_throw {A} msg : keeps_functions (throw (A:=A) msg).
Proof. intros g r g' [= <- <-]. exists []. by rewrite app_nil_r. Qed.

Lemma keeps_gets {A} (field : CodeGenerator -> A) : keeps_functions (gets field).
Proof. intros g r g' [= <- <-]. exists []. by rewrite app_nil_r. Qed.

Lemma keeps_modify (upd : CodeGenerator -> CodeGenerator) :
  (forall g, added_functions_ (upd g) = added_functions_ g) ->
  keeps_functions (modify upd).
Proof.
  intros Hupd g r g' [= <- <-]. exists []. by rewrite Hupd, app_nil_r.
Qed.

Lemma keeps_bind {A B} (c : M A) (k : A -> M B) :
  keeps_functions c -> (forall a, keeps_functions (k a)) ->
  keeps_functions (c ≫= k).
Proof.
  intros Hc Hk g r g'. unfold mbind, M_bind.
  destruct (c g) as [[a| |] g1] eqn:H1; destruct (Hc _ _ _ H1) as [m1 E1].
  - intros H2. destruct (Hk a _ _ _ H2) as [m2 E2].
    exists (m1 ++ m2). by rewrite E2, E1, app_assoc.
  - intros [= <- <-]. by exists m1.
  - intros [= <- <-]. by exists m1.
Qed.

Lemma keeps_scan_braces s : keeps_functions (scan_braces s).
Proof.
  induction s as [|c s IH]; simpl; [apply keeps_mret|].
  apply keeps_bind; [|done].
  destruct (Ascii.eqb c "{"); [by apply keeps_modify|].
  destruct (Ascii.eqb c "}"); [by apply keeps_modify | apply keeps_mret].
Qed.

Lemma keeps_print_formatted s : keeps_functions (print_formatted s).
Proof.
  unfold print_formatted. destruct (String.eqb s ""); [apply keeps_mret|].
  apply keeps_bind; [apply keeps_gets|]. intros at_line_start.
  apply keeps_bind.
  - destruct at_line_start; [|apply keeps_mret].
    apply keeps_bind; [apply keeps_gets|]. intros depth.
    apply keeps_bind; [apply keeps_gets|]. intros width.
    destruct (0 <=? _); [|apply keeps_throw].
    apply keeps_bind; [by apply keeps_modify|]. intros _.
    by apply keeps_modify.
  - intros _. apply keeps_bind; [by apply keeps_modify|]. intros _.
    apply keeps_scan_braces.
Qed.

Lemma keeps_operator_lshift_from s : forall fragment,
  keeps_functions (operator_lshift_from s fragment).
Proof.
  induction s as [|c s IH]; intros fragment; simpl.
  - apply keeps_print_formatted.
  - destruct (Ascii.eqb c Str.newline); [|apply IH].
    apply keeps_bind; [apply keeps_print_formatted|]. intros _.
    apply keeps_bind; [by apply keeps_modify|]. intros _.
    apply keeps_bind; [by apply keeps_modify|]. intros _. apply IH.
Qed.

Lemma keeps_operator_lshift s : keeps_functions (operator_lshift s).
Proof. apply keeps_operator_lshift_from. Qed.

Lemma keeps_flush_body : keeps_functions flush_body.
Proof.
  apply keeps_bind; [by apply keeps_modify|]. intros _. by apply keeps_modify.
Qed.

Lemma bind_inv_ok {A B} (c : M A) (k : A -> M B) g b g' :
  (c ≫= k) g = (Ok b, g') ->
  exists a g1, c g = (Ok a, g1) /\ k a g1 = (Ok b, g').
Proof.
  unfold mbind, M_bind. destruct (c g) as [[a| |] g1]; [eauto | done | done].
Qed.

Section DependencyFacts.

Variable codegen_declarations : Function -> M unit.
Variable codegen : Function -> string -> M unit.
Variable has_refcount_ : Function -> bool.
Variable codegen_incref : Function -> M unit.
Variable codegen_decref : Function -> M unit.

(** The callbacks of a function work through the members of the
    generator, which register functions and never remove one. *)
Hypothesis declarations_keep : forall fn,
  keeps_functions (codegen_declarations fn).
Hypothesis codegen_keeps : forall fn fname,
  keeps_functions (codegen fn fname).
Hypothesis incref_keeps : forall fn, keeps_functions (codegen_incref fn).
Hypothesis decref_keeps : forall fn, keeps_functions (codegen_decref fn).

Local Abbreviation add_dep :=
  (add_dependency codegen_declarations codegen has_refcount_
     codegen_incref codegen_decref).

Lemma find_function_app fn added more name :
  find_function fn added = Some name ->
  find_function fn (added ++ more) = Some name.
Proof.
  induction added as [|e added IH]; simpl; [done|].
  by destruct (bool_decide (f e = fn)).
Qed.

Lemma find_function_last fn added name :
  find_function fn added = None ->
  find_function fn (added ++ [mkFunctionMeta fn name]) = Some name.
Proof.
  induction added as [|e added IH]; simpl.
  - by rewrite bool_decide_eq_true_2.
  - by destruct (bool_decide (f e = fn)).
Qed.

Lemma add_dependency_known fn g name :
  find_function fn (added_functions_ g) = Some name ->
  add_dep fn g = (Ok name, g).
Proof. intros H. unfold add_dependency. by rewrite bind_gets, H. Qed.

(** A first registration names the function [casadi_f<n>], [n] being the
    number of functions registered before, and the function is found under
    that name afterwards. *)
Lemma add_dependency_first fn g name g' :
  find_function fn (added_functions_ g) = None ->
  add_dep fn g = (Ok name, g') ->
  name = "casadi_f" +:+ str (Z.of_nat (length (added_functions_ g))) /\
  find_function fn (added_functions_ g') = Some name.
Proof.
  intros Hnone. unfold add_dependency. rewrite bind_gets, Hnone, bind_gets.
  rewrite (bind_ok _ _ _ _ _ (shorthand_adding _ _)), bind_modify.
  set (fname := "casadi_" +:+ _).
  set (g1 := set_added_functions_ _ _).
  intros H.
  assert (Hkeep : keeps_functions
    (codegen_declarations fn;; codegen fn fname;;
     (if has_refcount_ fn then
        operator_lshift "void ";; operator_lshift fname;;
        operator_lshift ("_incref(void) {" +:+ Str.endl);;
        codegen_incref fn;;
        operator_lshift ("}" +:+ Str.endl +:+ Str.endl);;
        operator_lshift "void ";; operator_lshift fname;;
        operator_lshift ("_decref(void) {" +:+ Str.endl);;
        codegen_decref fn;;
        operator_lshift ("}" +:+ Str.endl +:+ Str.endl)
      else mret tt);;
     flush_body)).
  { repeat first
      [ apply keeps_operator_lshift | apply keeps_flush_body
      | apply keeps_mret | apply declarations_keep | apply codegen_keeps
      | apply incref_keeps | apply decref_keeps
      | match goal with
        | |- keeps_functions (if ?b then _ else _) => destruct b
        end
      | apply keeps_bind; [|intros _] ]. }
  apply bind_inv_ok in H as ([] & g2 & H2 & H).
  apply bind_inv_ok in H as ([] & g3 & H3 & H).
  apply bind_inv_ok in H as ([] & g4 & H4 & H).
  apply bind_inv_ok in H as ([] & g5 & H5 & H).
  injection H as <- <-.
  assert (Hrun : (codegen_declarations fn;; codegen fn fname;;
     (if has_refcount_ fn then
        operator_lshift "void ";; operator_lshift fname;;
        operator_lshift ("_incref(void) {" +:+ Str.endl);;
        codegen_incref fn;;
        operator_lshift ("}" +:+ Str.endl +:+ Str.endl);;
        operator_lshift "void ";; operator_lshift fname;;
        operator_lshift ("_decref(void) {" +:+ Str.endl);;
        codegen_decref fn;;
        operator_lshift ("}" +:+ Str.endl +:+ Str.endl)
      else mret tt);;
     flush_body) g1 = (Ok tt, g5)).
  { rewrite (bind_ok _ _ _ _ _ H2), (bind_ok _ _ _ _ _ H3).
    by rewrite (bind_ok _ _ _ _ _ H4). }
  destruct (Hkeep _ _ _ Hrun) as [more Hmore].
  split.
  - subst fname. reflexivity.
  - rewrite Hmore. apply find_function_app. subst g1. simpl.
    by apply find_function_last.
Qed.

(** C3: a function that is registered is answered with its name and the
    generator stays as it is; so after a registration that returned, a
    second one for the same function returns the same name and leaves the
    list of functions, the buffer and the body untouched. *)
Theorem add_dependency_twice (fn : Function) (g : CodeGenerator) :
  (forall name,
     find_function fn (added_functions_ g) = Some name ->
     add_dep fn g = (Ok name, g)) /\
  (forall name g',
     add_dep fn g = (Ok name, g') -> add_dep fn g' = (Ok name, g')).
Proof.
  split; [apply add_dependency_known|].
  intros name g' H.
  destruct (find_function fn (added_functions_ g)) as [known|] eqn:Hfind.
  - rewrite (add_dependency_known _ _ _ Hfind) in H.
    injection H as <- <-. by apply add_dependency_known.
  - apply add_dependency_known.
    by destruct (add_dependency_first _ _ _ _ Hfind H).
Qed.

End DependencyFacts.

(** A function whose body is one statement, with reference counting. *)
Definition example_codegen (fn : Function) (fname : string) : M unit :=
  operator_lshift ("int " +:+ fname +:+ "(void) {" +:+ Str.endl);;
  operator_lshift ("return " +:+ str (Z.of_nat fn) +:+ ";" +:+ Str.endl);;
  operator_lshift ("}" +:+ Str.endl +:+ Str.endl).

Definition example_refcount (fn : Function) : M unit :=
  operator_lshift ("counter++;" +:+ Str.endl).

Lemma add_dependency_twice_witness :
  let add := add_dependency (fun _ => mret tt) example_codegen
               (fun _ => true) example_refcount example_refcount in
  let first := add 7%nat (CodeGenerator_init 2) in
  first.1 = Ok "casadi_f0"%string /\
  add 7%nat first.2 = (Ok "casadi_f0"%string, first.2).
Proof.
  intros add first. split; [by vm_compute|].
  assert (Hcodegen : forall fn fname,
            keeps_functions (example_codegen fn fname)).
  { intros fn fname. unfold example_codegen.
    repeat first [apply keeps_operator_lshift
                 | apply keeps_bind; [|intros _]]. }
  destruct (add_dependency_twice (fun _ => mret tt) example_codegen
              (fun _ => true) example_refcount example_refcount
              (fun _ => keeps_mret tt) Hcodegen
              (fun _ => keeps_operator_lshift _)
              (fun _ => keeps_operator_lshift _)
              7%nat (CodeGenerator_init 2)) as [_ Hagain].
  apply Hagain. rewrite (surjective_pairing (add_dependency _ _ _ _ _ _ _)).
  f_equal; by vm_compute.
Defined.

(** * Further properties of the code *)

(** ** Custom IO schemes with repeated names *)

Section IOSchemeCustomMore.
Import IOSchemeCustom.

(** The constructor's loop leaves each name at its last position. *)
Lemma fill_entrymap_last entries : forall i m name,
  name ∈ entries ->
  exists k,
    fill_entrymap entries i m !! name = Some (i + Z.of_nat k) /\
    entries !! k = Some name /\
    forall j, (k < j)%nat -> entries !! j <> Some name.
Proof.
  induction entries as [|e rest IH]; intros i m name Hin.
  - by apply elem_of_nil in Hin.
  - simpl. destruct (decide (name ∈ rest)) as [Hrest|Hrest].
    + destruct (IH (i + 1) (<[e:=i]> m) name Hrest) as (k & Hk & He & Hlast).
      exists (S k). split; [rewrite Hk; f_equal; lia|]. split; [done|].
      intros [|j] Hj; [lia|]. simpl. apply Hlast. lia.
    + apply elem_of_cons in Hin as [->|Hin]; [|done].
      exists 0%nat. rewrite fill_entrymap_notin by done.
      rewrite lookup_insert_eq. split; [f_equal; lia|]. split; [done|].
      intros [|j] Hj; [lia|]. simpl. intros Hj'.
      apply Hrest. by eapply list_elem_of_lookup_2.
Qed.

(** [entry] is a left inverse of [index] on the names of the scheme,
    repeated or not: [index] answers, and with the last position at which
    the name stands. *)
Theorem entry_index_roundtrip (entries : list string) (name : string) :
  name ∈ entries ->
  let s := IOSchemeCustomInternal entries in
  exists i,
    index s name = Ok i /\ 0 <= i < size s /\ entry s i = Ok name /\
    forall j, i < j -> entry s j <> Ok name.
Proof.
  intros Hin s.
  destruct (fill_entrymap_last entries 0 ∅ name Hin) as (k & Hk & He & Hlast).
  exists (Z.of_nat k). unfold index. simpl. rewrite Hk.
  split; [done|].
  assert (Hrange : 0 <= Z.of_nat k < size s).
  { apply lookup_lt_Some in He. unfold size. simpl. lia. }
  split; [done|]. split.
  - destruct (entry_in_range s (Z.of_nat k) Hrange) as (e & He' & ->).
    simpl in He'. rewrite Nat2Z.id in He'. congruence.
  - intros j Hj. unfold entry.
    destruct ((0 <=? j) && (j <? size s)); [|done]. simpl.
    destruct (entries !! Z.to_nat j) as [e|] eqn:Hej; [|done].
    intros [= ->]. apply (Hlast (Z.to_nat j)); [lia | done].
Qed.

Lemma entry_index_roundtrip_witness :
  let s := IOSchemeCustomInternal ["x"; "p"; "x"]%string in
  exists i,
    index s "x" = Ok i /\ 0 <= i < size s /\ entry s i = Ok "x"%string /\
    forall j, i < j -> entry s j <> Ok "x"%string.
Proof.
  apply (entry_index_roundtrip ["x"; "p"; "x"]%string "x").
  apply (bool_decide_unpack ("x"%string ∈ ["x"; "p"; "x"]%string)).
  reflexivity.
Defined.

End IOSchemeCustomMore.

(** ** Shorthands *)

Lemma shorthand_get_known name g :
  name ∈ added_shorthands_ g ->
  shorthand_get name g = (Ok ("casadi_" +:+ name), g).
Proof.
  intros H. unfold shorthand_get. by rewrite bind_gets, bool_decide_eq_true_2.
Qed.

Lemma shorthand_get_unknown name g :
  name ∉ added_shorthands_ g ->
  shorthand_get name g = (Error ("No such macro: " +:+ name), g).
Proof.
  intros H. unfold shorthand_get. by rewrite bind_gets, bool_decide_eq_false_2.
Qed.

(** A shorthand that was registered resolves to its prefixed name; it can
    be registered again when adding is allowed, which changes nothing, and
    is refused as a duplicate otherwise; a name that was not registered
    does not resolve.  The failures leave the generator as it was. *)
Theorem shorthand_register_resolve (name : string) (g : CodeGenerator) :
  let g1 := (shorthand name true g).2 in
  (shorthand name true g).1 = Ok ("casadi_" +:+ name) /\
  shorthand_get name g1 = (Ok ("casadi_" +:+ name), g1) /\
  shorthand name true g1 = (Ok ("casadi_" +:+ name), g1) /\
  shorthand name false g1 = (Error ("Duplicate macro: " +:+ name), g1) /\
  (forall other,
     other <> name -> other ∉ added_shorthands_ g ->
     shorthand_get other g1 = (Error ("No such macro: " +:+ other), g1) /\
     (shorthand other false g1).1 = Ok ("casadi_" +:+ other)).
Proof.
  intros g1. subst g1. rewrite shorthand_adding. simpl.
  set (g1 := set_added_shorthands_ _ g).
  assert (Hin : name ∈ added_shorthands_ g1).
  { simpl. apply elem_of_union. left. by apply elem_of_singleton. }
  assert (Hsame : set_added_shorthands_ ({[name]} ∪ added_shorthands_ g1) g1
                  = g1).
  { rewrite insert_present by done. apply set_added_shorthands_same. }
  split; [done|]. split; [by apply shorthand_get_known|].
  split; [by rewrite shorthand_adding, Hsame|]. split.
  - unfold shorthand. rewrite bind_gets, bind_modify, Hsame.
    by rewrite bool_decide_eq_false_2 by (by intros ?).
  - intros other Hne Hnew.
    assert (Hout : other ∉ added_shorthands_ g1).
    { simpl. intros Hx. apply elem_of_union in Hx as [Hx|Hx]; [|done].
      by apply elem_of_singleton in Hx. }
    split; [by apply shorthand_get_unknown|].
    unfold shorthand. rewrite bind_gets, bind_modify.
    by rewrite bool_decide_eq_true_2.
Qed.

Lemma shorthand_register_resolve_witness :
  let g1 := (shorthand "fill" true (CodeGenerator_init 2)).2 in
  shorthand_get "copy" g1 = (Error "No such macro: copy", g1) /\
  (shorthand "copy" false g1).1 = Ok "casadi_copy"%string.
Proof.
  destruct (shorthand_register_resolve "fill" (CodeGenerator_init 2))
    as (_ & _ & _ & _ & Hother).
  apply (Hother "copy"); [done|]. apply not_elem_of_empty.
Defined.

(** ** More on the constant pools *)

Section PoolLookup.

Variable hash_combine : Z -> Z -> Z.
Variable hash_combine_vector : Z -> list Z -> Z.

Lemma lookup_after_intern_double v requests g :
  pools_wf g -> equal Double.eqb v v = true ->
  let first := get_constant_double hash_combine v true g in
  let later := serve_all hash_combine hash_combine_vector requests first.2 in
  exists i, first.1 = Ok i /\
    get_constant_double hash_combine v false later = (Ok i, later).
Proof.
  intros Hwf Hrefl first later.
  destruct (get_constant_double_extends hash_combine v true g Hwf)
    as [_ Hwf1].
  destruct (serve_all_extends hash_combine hash_combine_vector requests
              _ Hwf1) as [[(more & more_added & Hc & Ha) _] _].
  fold first in Hwf1, Hc, Ha. fold later in Hc, Ha.
  destruct Hwf as [Hwfd _].
  destruct (get_constant_in_located Double.eqb (hash_double hash_combine v)
              v _ _ Hwfd Hrefl) as (i & Hi & Hloc).
  destruct (get_constant_in_extends Double.eqb (hash_double hash_combine v)
              v true (double_constants_ g) (added_double_constants_ g))
    as (_ & _ & _ & _ & Hwf').
  exists i. split; [exact Hi|].
  unfold get_constant_double at 1.
  erewrite get_constant_in_found.
  - simpl. by rewrite set_double_pool_same.
  - rewrite Hc, Ha. subst first. unfold get_constant_double. simpl.
    apply locate_stable; [by apply Hwf' | exact Hloc].
Qed.

Lemma lookup_after_intern_int v requests g :
  pools_wf g ->
  let first := get_constant_int hash_combine_vector v true g in
  let later := serve_all hash_combine hash_combine_vector requests first.2 in
  exists i, first.1 = Ok i /\
    get_constant_int hash_combine_vector v false later = (Ok i, later).
Proof.
  intros Hwf first later.
  destruct (get_constant_int_extends hash_combine_vector v true g Hwf)
    as [_ Hwf1].
  destruct (serve_all_extends hash_combine hash_combine_vector requests
              _ Hwf1) as [[_ (more & more_added & Hc & Ha)] _].
  fold first in Hwf1, Hc, Ha. fold later in Hc, Ha.
  destruct Hwf as [_ Hwfi].
  destruct (get_constant_in_located Z.eqb (hash_int hash_combine_vector v)
              v _ _ Hwfi (equal_int_refl v)) as (i & Hi & Hloc).
  destruct (get_constant_in_extends Z.eqb (hash_int hash_combine_vector v)
              v true (integer_constants_ g) (added_integer_constants_ g))
    as (_ & _ & _ & _ & Hwf').
  exists i. split; [exact Hi|].
  unfold get_constant_int at 1.
  erewrite get_constant_in_found.
  - simpl. by rewrite set_integer_pool_same.
  - rewrite Hc, Ha. subst first. unfold get_constant_int. simpl.
    apply locate_stable; [by apply Hwf' | exact Hloc].
Qed.

(** What was interned is found by the read-only lookup, under the id it
    was given and without a change of the generator, whatever was requested
    of the pools in the meantime: for every integer sequence, and for every
    double sequence without NaN. *)
Theorem lookup_after_intern (requests : list request) (g : CodeGenerator) :
  pools_wf g ->
  (forall v,
     let first := get_constant_int hash_combine_vector v true g in
     let later :=
       serve_all hash_combine hash_combine_vector requests first.2 in
     exists i, first.1 = Ok i /\
       get_constant_int hash_combine_vector v false later = (Ok i, later)) /\
  (forall v,
     Forall (fun x => Double.isnan x = false) v ->
     let first := get_constant_double hash_combine v true g in
     let later :=
       serve_all hash_combine hash_combine_vector requests first.2 in
     exists i, first.1 = Ok i /\
       get_constant_double hash_combine v false later = (Ok i, later)).
Proof.
  intros Hwf. split.
  - intros v. by apply lookup_after_intern_int.
  - intros v Hv. apply lookup_after_intern_double; [done|].
    by apply equal_double_refl.
Qed.

End PoolLookup.

Lemma lookup_after_intern_witness :
  let between := [RequestInt [4; 5] true; RequestDouble [half] true] in
  let first := get_constant_double example_hash_combine [one; two] true
                 (CodeGenerator_init 2) in
  let later := serve_all example_hash_combine example_hash_combine_vector
                 between first.2 in
  exists i, first.1 = Ok i /\
    get_constant_double example_hash_combine [one; two] false later
      = (Ok i, later).
Proof.
  destruct (lookup_after_intern example_hash_combine
              example_hash_combine_vector
              [RequestInt [4; 5] true; RequestDouble [half] true]
              (CodeGenerator_init 2) (pools_wf_init 2)) as [_ Hdouble].
  apply (Hdouble [one; two]). by repeat constructor.
Defined.

(** *** The integer pool holds no sequence twice *)

Section IntegerPool.

Variable hash_combine : Z -> Z -> Z.
Variable hash_combine_vector : Z -> list Z -> Z.

(** Every constant is listed in the hash index, under its hash. *)
Definition integer_pool_indexed (constants : list (list Z))
  (added : list (Z * Z)) : Prop :=
  forall i c, constants !! i = Some c ->
    (hash_int hash_combine_vector c, Z.of_nat i) ∈ added.

Lemma locate_finds (v : list Z) constants range k i :
  (k, Z.of_nat i) ∈ range -> constants !! i = Some v ->
  locate Z.eqb v constants range <> None.
Proof.
  intros Hin Hc. induction range as [|[k' j] range IH]; simpl.
  - by apply elem_of_nil in Hin.
  - destruct (constants !! Z.to_nat j) as [w|] eqn:Hw.
    + destruct (equal Z.eqb v w) eqn:He; [done|].
      apply elem_of_cons in Hin as [[= ? ?]|Hin]; [|by apply IH].
      subst k' j. rewrite Nat2Z.id, Hc in Hw. injection Hw as <-.
      by rewrite equal_int_refl in He.
    + apply elem_of_cons in Hin as [[= ? ?]|Hin]; [|by apply IH].
      subst k' j. rewrite Nat2Z.id in Hw. congruence.
Qed.

Lemma get_constant_in_int_nodup (v : list Z) allow_adding constants added :
  integer_pool_indexed constants added -> NoDup constants ->
  let out := get_constant_in Z.eqb (hash_int hash_combine_vector v) v
               allow_adding constants added in
  integer_pool_indexed out.2.1 out.2.2 /\ NoDup out.2.1.
Proof.
  intros Hidx Hnd. unfold get_constant_in.
  destruct (locate Z.eqb v constants _) as [i|] eqn:Hloc; [done|].
  destruct allow_adding; [|done]. simpl. split.
  - intros i c Hi. apply elem_of_app.
    destruct (decide (i < length constants)%nat) as [Hlt|Hge].
    + left. apply Hidx. by rewrite lookup_app_l in Hi.
    + right. rewrite lookup_app_r in Hi by lia.
      destruct (i - length constants)%nat as [|n] eqn:Hn; [|done].
      injection Hi as <-. apply list_elem_of_singleton.
      do 2 f_equal. lia.
  - apply NoDup_app. split; [done|]. split; [|apply NoDup_singleton].
    intros c Hc Hc'. apply list_elem_of_singleton in Hc'. subst c.
    apply list_elem_of_lookup in Hc as [i Hi].
    apply (locate_finds v constants
             (equal_range added (hash_int hash_combine_vector v))
             (hash_int hash_combine_vector v) i); [|done|done].
    unfold equal_range. apply list_elem_of_filter. split; [done|].
    by apply Hidx.
Qed.

Definition integer_pool_ok (g : CodeGenerator) : Prop :=
  integer_pool_indexed (integer_constants_ g) (added_integer_constants_ g) /\
  NoDup (integer_constants_ g).

Lemma serve_integer_pool_ok r g :
  integer_pool_ok g ->
  integer_pool_ok (serve hash_combine hash_combine_vector r g).
Proof.
  intros [Hidx Hnd]. destruct r as [v b|v b]; simpl.
  - done.
  - unfold get_constant_int. simpl.
    by apply get_constant_in_int_nodup.
Qed.

(** Whatever is requested of the pools of a new generator, the integer
    pool never holds the same sequence under two ids, and each of its
    sequences is listed in the hash index under its hash. *)
Theorem integer_pool_no_duplicates (requests : list request) (indent : Z) :
  let g := serve_all hash_combine hash_combine_vector requests
             (CodeGenerator_init indent) in
  NoDup (integer_constants_ g) /\
  integer_pool_indexed (integer_constants_ g) (added_integer_constants_ g).
Proof.
  assert (H : forall g, integer_pool_ok g ->
            integer_pool_ok
              (serve_all hash_combine hash_combine_vector requests g)).
  { induction requests as [|r requests IH]; intros g Hg; [done|].
    simpl. apply IH. by apply serve_integer_pool_ok. }
  intros g. destruct (H (CodeGenerator_init indent)) as [Hidx Hnd]; [|done].
  split; [|apply NoDup_nil_2]. by intros i c Hi.
Qed.

End IntegerPool.

(** ** Streaming a text in pieces *)

Lemma bind_mret_r (c : M unit) g : (c;; mret tt) g = c g.
Proof.
  unfold mbind, M_bind. by destruct (c g) as [[[]| |] g'].
Qed.

Lemma front_is_app a b c : a <> "" -> front_is (a +:+ b) c = front_is a c.
Proof. by destruct a. Qed.

Lemma app_not_empty a b : a <> "" -> a +:+ b <> "".
Proof. by destruct a. Qed.

Lemma printed_app a b g :
  a <> "" -> b <> "" -> printed (a +:+ b) g = printed b (printed a g).
Proof.
  intros Ha Hb. unfold printed. simpl.
  rewrite front_is_app, brace_delta_app by done.
  destruct g as [w nl d buf ? ? ? ? ? ? ? ? ? ? ? ?]; simpl.
  rewrite !string_app_assoc, string_app_empty_l, Z.add_assoc. done.
Qed.

(** Printing a text is printing its two halves one after the other. *)
Lemma print_formatted_app a b g :
  print_formatted (a +:+ b) g = (print_formatted a;; print_formatted b) g.
Proof.
  destruct (decide (a = "")) as [->|Ha]; [done|].
  destruct (decide (b = "")) as [->|Hb].
  { rewrite string_app_empty_r. symmetry. apply bind_mret_r. }
  pose proof (app_not_empty a b Ha) as Hab.
  destruct (newline_ g) eqn:Hnl.
  - destruct (Z.ltb_spec
                (current_indent_ g + (if front_is a "}" then -1 else 0)) 0).
    + rewrite print_formatted_underflow;
        [|done|done|by rewrite front_is_app].
      by rewrite (bind_error _ _ _ _ _ (print_formatted_underflow a g Ha Hnl H)).
    + rewrite print_formatted_ok;
        [|done|intros _; rewrite front_is_app by done; lia].
      rewrite (bind_ok _ _ _ _ _
                 (print_formatted_ok a g Ha ltac:(intros; lia))).
      rewrite print_formatted_ok by (done || by simpl).
      by rewrite printed_app.
  - rewrite print_formatted_ok by (done || congruence).
    rewrite (bind_ok _ _ _ _ _
               (print_formatted_ok a g Ha ltac:(congruence))).
    rewrite print_formatted_ok by (done || by simpl).
    by rewrite printed_app.
Qed.

(** A fragment in progress may as well be printed first. *)
Lemma operator_lshift_from_pending s : forall fragment g,
  operator_lshift_from s fragment g =
    (print_formatted fragment;; operator_lshift_from s "") g.
Proof.
  induction s as [|c s IH]; intros fragment g; simpl.
  - symmetry. apply bind_mret_r.
  - destruct (Ascii.eqb c Str.newline); [done|].
    rewrite IH, string_app_empty_l. unfold mbind, M_bind.
    rewrite print_formatted_app. unfold mbind, M_bind.
    destruct (print_formatted fragment g) as [[[]| |] g1]; [|done|done].
    rewrite (IH (String c "")). reflexivity.
Qed.

Lemma operator_lshift_from_app a : forall b fragment g,
  operator_lshift_from (a +:+ b) fragment g =
    (operator_lshift_from a fragment;; operator_lshift b) g.
Proof.
  induction a as [|c a IH]; intros b fragment g.
  - rewrite string_app_empty_l. apply operator_lshift_from_pending.
  - rewrite string_app_cons. simpl.
    destruct (Ascii.eqb c Str.newline); [|apply IH].
    unfold mbind, M_bind.
    destruct (print_formatted fragment g) as [[[]| |] g1]; [|done|done].
    unfold append_buffer, modify. apply IH.
Qed.

(** Streaming a text in pieces leaves the generator as streaming it whole
    does: the same outcome, buffer, depth and line state. *)
Theorem operator_lshift_pieces (texts : list string) (g : CodeGenerator) :
  emit_all texts g = operator_lshift (concat_strings texts) g.
Proof.
  revert g. induction texts as [|text rest IH]; intros g; [done|].
  simpl. unfold operator_lshift at 2. rewrite operator_lshift_from_app.
  unfold mbind, M_bind.
  destruct (operator_lshift_from text "" g) as [[[]| |] g1] eqn:H;
    unfold operator_lshift; rewrite H; [apply IH | done | done].
Qed.

(** ** More on auxiliary routines *)

Section AuxiliaryMore.

Variable casadi_str : Auxiliary -> string.
Variable default_inst : list string.

Local Abbreviation aux_rec := (add_auxiliary_rec casadi_str default_inst).
Local Abbreviation aux_add := (add_auxiliary casadi_str default_inst).
Local Abbreviation prereqs := (prerequisites default_inst).
Local Abbreviation with_prereqs :=
  (with_prerequisites casadi_str default_inst).

Lemma rank_below_4 f : (rank f < 4)%nat.
Proof. destruct f; simpl; lia. Qed.

(** The requests below a request nest four deep at most: with every bound
    from four on, [add_auxiliary] gives the same outcome and the same
    generator. *)
Theorem add_auxiliary_bound_enough (depth : nat) (f : Auxiliary)
  (inst : list string) (g : CodeGenerator) :
  (4 <= depth)%nat -> aux_rec depth f inst g = aux_add f inst g.
Proof.
  intros Hd. unfold add_auxiliary. pose proof (rank_below_4 f).
  apply add_auxiliary_rec_enough; lia.
Qed.

End AuxiliaryMore.

(** *** The record is closed under prerequisites *)

Section AuxiliaryClosure.

Variable casadi_str : Auxiliary -> string.
Variable default_inst : list string.

Local Abbreviation aux_rec := (add_auxiliary_rec casadi_str default_inst).
Local Abbreviation aux_add := (add_auxiliary casadi_str default_inst).
Local Abbreviation prereqs := (prerequisites default_inst).
Local Abbreviation with_prereqs :=
  (with_prerequisites casadi_str default_inst).

(** Every pair of the record that is not [pending] has its prerequisites
    in the record. *)
Definition closed_but (pending : list (Auxiliary * list string))
  (g : CodeGenerator) : Prop :=
  forall f inst p,
    (f, inst) ∈ added_auxiliaries_ g -> (f, inst) ∉ pending ->
    p ∈ prereqs f -> p ∈ added_auxiliaries_ g.

Definition prerequisites_recorded (g : CodeGenerator) : Prop :=
  forall f inst p,
    (f, inst) ∈ added_auxiliaries_ g -> p ∈ prereqs f ->
    p ∈ added_auxiliaries_ g.

Lemma add_auxiliary_rec_closed depth : forall f inst g g' pending,
  aux_rec depth f inst g = (Ok tt, g') ->
  closed_but pending g -> closed_but pending g'.
Proof.
  induction depth as [|depth IH]; intros f inst g g' pending; [done|].
  rewrite add_auxiliary_rec_unfold, bind_gets.
  destruct (recorded f inst g) eqn:Hrec; [by intros [= <-]|].
  rewrite bind_modify. intros Hrun Hclosed.
  (* the requests for the prerequisites, with the new pair pending *)
  assert (Hsub : forall requests g1 g2,
    with_prereqs depth requests (emit_own casadi_str f inst) g1
      = (Ok tt, g2) ->
    closed_but ((f, inst) :: pending) g1 ->
    closed_but ((f, inst) :: pending) g2 /\
    (forall p, p ∈ requests -> p ∈ added_auxiliaries_ g2) /\
    (forall q, q ∈ added_auxiliaries_ g1 -> q ∈ added_auxiliaries_ g2)).
  { induction requests as [|[p pi] rest IHrest]; intros g1 g2; simpl.
    - intros H Hc. apply emit_own_ok in H as (_ & _ & _ & Hr).
      unfold closed_but. rewrite Hr. split; [done|].
      split; [intros p Hp; by apply elem_of_nil in Hp | done].
    - destruct (aux_rec depth p pi g1) as [[[]| |] g3] eqn:Hp;
        [|by rewrite (bind_error _ _ _ _ _ Hp)
         |by rewrite (bind_diverges _ _ _ _ Hp)].
      rewrite (bind_ok _ _ _ _ _ Hp). intros H Hc.
      pose proof (IH _ _ _ _ _ Hp Hc) as Hc3.
      destruct (IHrest _ _ H Hc3) as (Hc2 & Hall & Hmono).
      destruct (add_auxiliary_rec_grow casadi_str default_inst _ _ _ _ _ _ Hp)
        as [([more Hmore] & _) Hin].
      split; [done|]. split.
      + intros q Hq. apply elem_of_cons in Hq as [->|Hq]; [|by apply Hall].
        apply Hmono. destruct depth; [done|]. by apply Hin.
      + intros q Hq. apply Hmono. rewrite Hmore. apply elem_of_app. by left. }
  destruct (Hsub _ _ _ Hrun) as (Hc' & Hall & Hmono).
  - intros f' inst' p Hin Hpend Hp. simpl in Hin.
    apply elem_of_app in Hin as [Hin|Hin].
    + simpl. apply elem_of_app. left.
      apply (Hclosed f' inst' p); [done | | done].
      intros Hx. apply Hpend. by right.
    + apply list_elem_of_singleton in Hin. exfalso. apply Hpend.
      rewrite Hin. by left.
  - intros f' inst' p Hin Hpend Hp.
    destruct (decide ((f', inst') = (f, inst))) as [[= -> ->]|Hne].
    + by apply Hall.
    + apply (Hc' f' inst' p); [done | | done].
      intros Hx. apply elem_of_cons in Hx as [Hx|Hx]; done.
Qed.

(** A request that returns leaves the record closed under prerequisites
    when it was: every routine in the record has the routines it calls in
    the record too.  In particular the pair requested and its own
    prerequisites are there. *)
Theorem prerequisites_closed (f : Auxiliary) (inst : list string)
  (g g' : CodeGenerator) :
  prerequisites_recorded g ->
  aux_add f inst g = (Ok tt, g') ->
  prerequisites_recorded g' /\
  (f, inst) ∈ added_auxiliaries_ g' /\
  (forall p, p ∈ prereqs f -> p ∈ added_auxiliaries_ g').
Proof.
  intros Hclosed Hrun.
  assert (Hc : closed_but [] g').
  { apply (add_auxiliary_rec_closed 4 f inst g g' [] Hrun).
    intros f' inst' p Hin _ Hp. by apply (Hclosed f' inst' p). }
  assert (Hclosed' : prerequisites_recorded g').
  { intros f' inst' p Hin Hp. apply (Hc f' inst' p); [done | | done].
    apply not_elem_of_nil. }
  destruct (add_auxiliary_after casadi_str default_inst _ _ _ _ _ Hrun)
    as (Hin & _ & _).
  split; [done|]. split; [done|].
  intros p Hp. by apply (Hclosed' f inst p).
Qed.

End AuxiliaryClosure.

Lemma prerequisites_closed_witness :
  let g' := (add_auxiliary example_casadi_str example_default_inst
               AUX_INTERPN_GRAD example_default_inst
               (CodeGenerator_init 2)).2 in
  prerequisites_recorded example_default_inst g' /\
  (AUX_INTERPN_GRAD, example_default_inst) ∈ added_auxiliaries_ g' /\
  (forall p, p ∈ prerequisites example_default_inst AUX_INTERPN_GRAD ->
             p ∈ added_auxiliaries_ g').
Proof.
  intros g'.
  apply (prerequisites_closed example_casadi_str example_default_inst
           AUX_INTERPN_GRAD example_default_inst (CodeGenerator_init 2)).
  - intros f inst p Hin. by apply elem_of_nil in Hin.
  - rewrite (surjective_pairing (add_auxiliary _ _ _ _ _)).
    f_equal; by vm_compute.
Defined.

(** ** The replacement loop *)

Lemma string_length_app (a b : string) :
  String.length (a +:+ b) = (String.length a + String.length b)%nat.
Proof.
  induction a as [|c a IH]; [done|]. rewrite string_app_cons. simpl. lia.
Qed.





Lemma substring_zero (s : string) : forall p, String.substring p 0 s = "".
Proof.
  induction s as [|c s IH]; intros [|p]; simpl; done.
Qed.


Lemma substring_all (r : string) :
  String.substring 0 (String.length r) r = r.
Proof. induction r as [|c r IH]; [done|]. simpl. by rewrite IH. Qed.







(** *** Loops *)

(** The first [turns] turns of the loop with body [body]. *)
Fixpoint run {St Res} (turns : nat) (body : St -> turn St Res) (s : St)
  : turn St Res :=
  match turns with
  | O => Continue s
  | S turns' =>
      match body s with
      | Continue s' => run turns' body s'
      | Exit r => Exit r
      end
  end.








(** *** The three outcomes of the replacement loop *)













(** *** What [sanitize_source] throws *)






Section WhatThrows.

Variable casadi_str : Auxiliary -> string.
Variable default_inst : list string.

Local Abbreviation aux_rec := (add_auxiliary_rec casadi_str default_inst).
Local Abbreviation aux_add := (add_auxiliary casadi_str default_inst).
Local Abbreviation prereqs := (prerequisites default_inst).




End WhatThrows.



Lemma add_auxiliary_bound_enough_witness :
  add_auxiliary_rec example_casadi_str example_default_inst 9
    AUX_INTERPN_GRAD example_default_inst (CodeGenerator_init 2)
  = add_auxiliary example_casadi_str example_default_inst
      AUX_INTERPN_GRAD example_default_inst (CodeGenerator_init 2).
Proof.
  apply (add_auxiliary_bound_enough example_casadi_str example_default_inst
           9 AUX_INTERPN_GRAD example_default_inst (CodeGenerator_init 2)).
  lia.
Defined.

(** ** What streaming leaves alone *)

(** [g'] is [g] but for the buffer, the line state and the depth. *)
Definition only_buffer_changed (g g' : CodeGenerator) : Prop :=
  exists text at_line_start depth,
    g' = set_current_indent_ depth
           (set_newline_ at_line_start (set_buffer text g)).

Lemma only_buffer_changed_refl g : only_buffer_changed g g.
Proof.
  exists (buffer g), (newline_ g), (current_indent_ g). by destruct g.
Qed.

Lemma only_buffer_changed_trans g1 g2 g3 :
  only_buffer_changed g1 g2 -> only_buffer_changed g2 g3 ->
  only_buffer_changed g1 g3.
Proof.
  intros (t1 & n1 & d1 & ->) (t2 & n2 & d2 & ->). by exists t2, n2, d2.
Qed.

Lemma print_formatted_frame s g r g' :
  print_formatted s g = (r, g') -> only_buffer_changed g g'.
Proof.
  destruct s as [|c s].
  - rewrite print_formatted_empty. intros [= <- <-].
    apply only_buffer_changed_refl.
  - destruct (newline_ g) eqn:Hnl.
    + destruct (Z.ltb_spec
                  (current_indent_ g
                   + (if front_is (String c s) "}" then -1 else 0)) 0).
      * rewrite print_formatted_underflow by done. intros [= <- <-].
        apply only_buffer_changed_refl.
      * rewrite print_formatted_ok by (done || intros; lia).
        intros [= <- <-]. unfold printed. by eexists _, _, _.
    + rewrite print_formatted_ok by (done || congruence).
      intros [= <- <-]. unfold printed. by eexists _, _, _.
Qed.

Lemma operator_lshift_from_frame s : forall fragment g r g',
  operator_lshift_from s fragment g = (r, g') -> only_buffer_changed g g'.
Proof.
  induction s as [|c s IH]; intros fragment g r g'; simpl.
  - apply print_formatted_frame.
  - destruct (Ascii.eqb c Str.newline); [|apply IH].
    destruct (print_formatted fragment g) as [[[]| |] g1] eqn:Hp;
      pose proof (print_formatted_frame _ _ _ _ Hp) as Hf.
    + rewrite (bind_ok _ _ _ _ _ Hp). unfold append_buffer.
      rewrite !bind_modify. intros H. apply IH in H.
      eapply only_buffer_changed_trans; [exact Hf|].
      eapply only_buffer_changed_trans; [|exact H].
      exists (buffer g1 +:+ Str.endl), true, (current_indent_ g1).
      by destruct g1.
    + rewrite (bind_error _ _ _ _ _ Hp). by intros [= <- <-].
    + rewrite (bind_diverges _ _ _ _ Hp). by intros [= <- <-].
Qed.

(** Streaming a text, accepted or refused, changes the buffer, the line
    state and the depth only: the sections, the sets of names, the records
    and the pools of the generator stay as they are. *)
Theorem operator_lshift_frame (s : string) (g : CodeGenerator) :
  only_buffer_changed g (operator_lshift s g).2.
Proof.
  apply (operator_lshift_from_frame s "" g (operator_lshift s g).1).
  apply surjective_pairing.
Qed.

(** ** Names of pooled constants *)

Section ConstantNames.

Variable hash_combine : Z -> Z -> Z.
Variable hash_combine_vector : Z -> list Z -> Z.

(** [CodeGenerator::constant(const std::vector<int>&)].  As in
    [sanitize_source], the call [shorthand(name)] of a non-const member is
    the overload [shorthand(name, allow_adding)] at its default, which
    adds. *)
Definition constant_int_vector (v : list Z) : M string :=
  ind ← get_constant_int hash_combine_vector v true;
  shorthand ("s" +:+ str ind) true.

(** [CodeGenerator::constant(const std::vector<double>&)] *)
Definition constant_double_vector (v : list double) : M string :=
  ind ← get_constant_double hash_combine v true;
  shorthand ("c" +:+ str ind) true.

Lemma get_constant_int_known v g i names :
  get_constant_int hash_combine_vector v false g = (Ok i, g) ->
  get_constant_int hash_combine_vector v true (set_added_shorthands_ names g)
    = (Ok i, set_added_shorthands_ names g).
Proof.
  unfold get_constant_int, get_constant_in. simpl.
  destruct (locate Z.eqb v (integer_constants_ g) _) as [j|]; [|done].
  simpl. intros [= -> _]. by destruct g.
Qed.

Lemma get_constant_double_known v g i names :
  get_constant_double hash_combine v false g = (Ok i, g) ->
  get_constant_double hash_combine v true (set_added_shorthands_ names g)
    = (Ok i, set_added_shorthands_ names g).
Proof.
  unfold get_constant_double, get_constant_in. simpl.
  destruct (locate Double.eqb v (double_constants_ g) _) as [j|]; [|done].
  simpl. intros [= -> _]. by destruct g.
Qed.

(** The id that [get_constant] returns is the index of an entry of the
    pool: the sequence itself, or an entry that compares equal to it. *)
Lemma get_constant_in_holds {T} (elt_eqb : T -> T -> bool) h (v : list T)
  constants added :
  pool_wf constants added ->
  let out := get_constant_in elt_eqb h v true constants added in
  exists i w,
    out.1 = Ok i /\ 0 <= i /\ out.2.1 !! Z.to_nat i = Some w /\
    (w = v \/ equal elt_eqb v w = true).
Proof.
  intros Hwf out.
  destruct (get_constant_in_id elt_eqb h v constants added Hwf)
    as (i & Hi & [(Hrange & Hsame & w & Hw & He)|[-> Happ]]);
    fold out in Hi, Hsame || fold out in Hi, Happ.
  - exists i, w. rewrite Hsame. repeat split; [done | lia | done | by right].
  - exists (Z.of_nat (length constants)), v. rewrite Happ, Nat2Z.id.
    repeat split; [done | lia | | by left].
    by rewrite lookup_app_r, Nat.sub_diag by lia.
Qed.

Lemma double_eqb_nan x y : Double.isnan x = true -> Double.eqb x y = false.
Proof. intros Hx. unfold Double.eqb, Double.classify. by rewrite Hx. Qed.

Lemma equal_nan (v : list double) :
  Exists (fun x => Double.isnan x = true) v ->
  forall w, equal Double.eqb v w = false.
Proof.
  induction 1 as [x v Hx|x v _ IH]; intros [|y w]; cbn [equal]; try done.
  - by rewrite (double_eqb_nan x y Hx).
  - by rewrite IH, andb_false_r.
Qed.

Lemma locate_unequal {T} (elt_eqb : T -> T -> bool) (v : list T) constants :
  (forall w, equal elt_eqb v w = false) ->
  forall range, locate elt_eqb v constants range = None.
Proof.
  intros Hv. induction range as [|[k j] range IH]; cbn [locate]; [done|].
  destruct (constants !! Z.to_nat j) as [w|]; [|done]. by rewrite Hv.
Qed.

(** A sequence that holds a NaN is appended to the pool at every request. *)
Lemma get_constant_double_nan v g :
  Exists (fun x => Double.isnan x = true) v ->
  get_constant_double hash_combine v true g =
    (Ok (Z.of_nat (length (double_constants_ g))),
     set_double_pool (double_constants_ g ++ [v])
       (added_double_constants_ g
        ++ [(hash_double hash_combine v,
             Z.of_nat (length (double_constants_ g)))]) g).
Proof.
  intros Hnan. unfold get_constant_double, get_constant_in.
  by rewrite (locate_unequal Double.eqb v _ (equal_nan v Hnan)).
Qed.

Lemma constant_int_vector_first v g i g2 :
  get_constant_int hash_combine_vector v true g = (Ok i, g2) ->
  constant_int_vector v g =
    (Ok ("casadi_s" +:+ str i),
     set_added_shorthands_ ({["s" +:+ str i]} ∪ added_shorthands_ g2) g2).
Proof.
  intros Hrun. unfold constant_int_vector.
  by rewrite (bind_ok _ _ _ _ _ Hrun), shorthand_adding.
Qed.

Lemma constant_double_vector_first v g i g2 :
  get_constant_double hash_combine v true g = (Ok i, g2) ->
  constant_double_vector v g =
    (Ok ("casadi_c" +:+ str i),
     set_added_shorthands_ ({["c" +:+ str i]} ∪ added_shorthands_ g2) g2).
Proof.
  intros Hrun. unfold constant_double_vector.
  by rewrite (bind_ok _ _ _ _ _ Hrun), shorthand_adding.
Qed.

Lemma constant_int_vector_again v i g2 :
  get_constant_int hash_combine_vector v false g2 = (Ok i, g2) ->
  let g1 := set_added_shorthands_
              ({["s" +:+ str i]} ∪ added_shorthands_ g2) g2 in
  constant_int_vector v g1 = (Ok ("casadi_s" +:+ str i), g1).
Proof.
  intros Hlook g1.
  assert (Hin : ("s" +:+ str i) ∈ added_shorthands_ g1).
  { simpl. apply elem_of_union. left. by apply elem_of_singleton. }
  unfold constant_int_vector, g1 in *.
  rewrite (bind_ok _ _ _ _ _ (get_constant_int_known _ _ _ _ Hlook)).
  rewrite shorthand_adding, insert_present by done.
  by rewrite set_added_shorthands_same.
Qed.

Lemma constant_double_vector_again v i g2 :
  get_constant_double hash_combine v false g2 = (Ok i, g2) ->
  let g1 := set_added_shorthands_
              ({["c" +:+ str i]} ∪ added_shorthands_ g2) g2 in
  constant_double_vector v g1 = (Ok ("casadi_c" +:+ str i), g1).
Proof.
  intros Hlook g1.
  assert (Hin : ("c" +:+ str i) ∈ added_shorthands_ g1).
  { simpl. apply elem_of_union. left. by apply elem_of_singleton. }
  unfold constant_double_vector, g1 in *.
  rewrite (bind_ok _ _ _ _ _ (get_constant_double_known _ _ _ _ Hlook)).
  rewrite shorthand_adding, insert_present by done.
  by rewrite set_added_shorthands_same.
Qed.

(** The name of a pooled constant is [casadi_s<id>] for an integer
    sequence and [casadi_c<id>] for a double sequence, [id] being the id
    that [get_constant] gives the sequence: the index at which the pool
    holds it, or for doubles an entry that compares equal to it.  The name
    resolves as a shorthand.  Asked for again, an integer sequence, or a
    double sequence without NaN, gets the same name and the generator stays
    as it is; a double sequence that holds a NaN was appended to the pool
    and is appended again, under the next id and the next name. *)
Theorem constant_vector_name (g : CodeGenerator) :
  pools_wf g ->
  (forall v, exists i g2,
     get_constant_int hash_combine_vector v true g = (Ok i, g2) /\
     0 <= i /\ integer_constants_ g2 !! Z.to_nat i = Some v /\
     let name := "casadi_s" +:+ str i in
     let g1 := set_added_shorthands_
                 ({["s" +:+ str i]} ∪ added_shorthands_ g2) g2 in
     constant_int_vector v g = (Ok name, g1) /\
     shorthand_get ("s" +:+ str i) g1 = (Ok name, g1) /\
     constant_int_vector v g1 = (Ok name, g1)) /\
  (forall v, exists i g2 w,
     get_constant_double hash_combine v true g = (Ok i, g2) /\
     0 <= i /\ double_constants_ g2 !! Z.to_nat i = Some w /\
     (w = v \/ equal Double.eqb v w = true) /\
     let name := "casadi_c" +:+ str i in
     let g1 := set_added_shorthands_
                 ({["c" +:+ str i]} ∪ added_shorthands_ g2) g2 in
     constant_double_vector v g = (Ok name, g1) /\
     shorthand_get ("c" +:+ str i) g1 = (Ok name, g1) /\
     (Forall (fun x => Double.isnan x = false) v ->
      constant_double_vector v g1 = (Ok name, g1)) /\
     (Exists (fun x => Double.isnan x = true) v ->
      w = v /\ i = Z.of_nat (length (double_constants_ g)) /\
      (constant_double_vector v g1).1 = Ok ("casadi_c" +:+ str (i + 1)))).
Proof.
  intros Hwf. split; intros v.
  - destruct (get_constant_in_holds Z.eqb (hash_int hash_combine_vector v) v
                (integer_constants_ g) (added_integer_constants_ g)
                (proj2 Hwf)) as (i & w & Hi & Hpos & Hw & Hvw).
    assert (w = v) as ->.
    { destruct Hvw as [|He]; [done|]. symmetry. by apply equal_int_eq. }
    destruct (get_constant_int hash_combine_vector v true g) as [r g2]
      eqn:Hrun.
    pose proof (lookup_after_intern_int hash_combine hash_combine_vector
                  v [] g Hwf) as (i' & Hi' & Hlook).
    unfold serve_all in Hlook. cbn [fold_left] in Hlook.
    rewrite Hrun in Hi', Hlook. cbn [fst snd] in Hi', Hlook.
    unfold get_constant_int in Hrun. injection Hrun as Hr Hg2.
    rewrite Hi in Hr. subst r. injection Hi' as <-.
    exists i, g2. split; [done|]. split; [done|].
    split; [by rewrite <- Hg2|].
    assert (Hfirst : get_constant_int hash_combine_vector v true g
                     = (Ok i, g2)).
    { unfold get_constant_int. by rewrite Hi, Hg2. }
    split; [by apply constant_int_vector_first|].
    split; [|by apply constant_int_vector_again].
    apply shorthand_get_known. simpl.
    apply elem_of_union. left. by apply elem_of_singleton.
  - destruct (get_constant_in_holds Double.eqb (hash_double hash_combine v)
                v (double_constants_ g) (added_double_constants_ g)
                (proj1 Hwf)) as (i & w & Hi & Hpos & Hw & Hvw).
    destruct (get_constant_double hash_combine v true g) as [r g2] eqn:Hrun.
    pose proof Hrun as Hfirst.
    unfold get_constant_double in Hrun. injection Hrun as Hr Hg2.
    rewrite Hi in Hr. subst r.
    exists i, g2, w. split; [done|]. split; [done|].
    split; [by rewrite <- Hg2|]. split; [done|].
    split; [by apply constant_double_vector_first|].
    split; [|split].
    + apply shorthand_get_known. simpl.
      apply elem_of_union. left. by apply elem_of_singleton.
    + intros Hv.
      pose proof (lookup_after_intern_double hash_combine
                    hash_combine_vector v [] g Hwf
                    (equal_double_refl v Hv)) as (i' & Hi' & Hlook).
      unfold serve_all in Hlook. cbn [fold_left] in Hlook.
      rewrite Hfirst in Hi', Hlook. cbn [fst snd] in Hi', Hlook.
      injection Hi' as <-. by apply constant_double_vector_again.
    + intros Hnan.
      rewrite (get_constant_double_nan v g Hnan) in Hfirst.
      injection Hfirst as <- <-.
      unfold get_constant_in in Hw.
      rewrite (locate_unequal Double.eqb v _ (equal_nan v Hnan)) in Hw.
      cbn [fst snd] in Hw.
      rewrite Nat2Z.id, lookup_app_r, Nat.sub_diag in Hw by lia.
      injection Hw as <-. split; [done|]. split; [done|].
      unfold constant_double_vector.
      rewrite (bind_ok _ _ _ _ _ (get_constant_double_nan v _ Hnan)).
      rewrite shorthand_adding. cbn [fst].
      cbn [double_constants_ set_double_pool set_added_shorthands_].
      by rewrite length_app, Nat2Z.inj_add.
Qed.

End ConstantNames.

Lemma constant_vector_name_witness :
  constant_double_vector example_hash_combine [one; two]
    (CodeGenerator_init 2)
  = (Ok "casadi_c0"%string,
     set_added_shorthands_ {["c0"%string]}
       (set_double_pool [[one; two]]
          [(hash_double example_hash_combine [one; two], 0)]
          (CodeGenerator_init 2))) /\
  (constant_double_vector example_hash_combine [quiet_nan]
     (constant_double_vector example_hash_combine [quiet_nan]
        (CodeGenerator_init 2)).2).1
  = Ok "casadi_c1"%string.
Proof.
  destruct (constant_vector_name example_hash_combine
              example_hash_combine_vector (CodeGenerator_init 2)
              (pools_wf_init 2)) as [_ Hdouble].
  split.
  - destruct (Hdouble [one; two])
      as (i & g2 & w & Hrun & _ & _ & _ & Hname & _).
    cbv zeta in Hname. vm_compute in Hrun. injection Hrun as <- <-.
    rewrite Hname. by vm_compute.
  - destruct (Hdouble [quiet_nan])
      as (i & g2 & w & Hrun & _ & _ & _ & Hname & _ & _ & Hnan).
    cbv zeta in Hname, Hnan.
    destruct Hnan as (_ & Hi & Hnext); [by constructor|].
    rewrite Hname. cbn [snd]. rewrite Hnext, Hi. by vm_compute.
Defined.

(** ** Comments in the generated text *)

(** [CodeGenerator::comment]; [verbose] is the option of that name, set by
    the constructor. *)
Definition comment (verbose : bool) (s : string) : M unit :=
  if verbose then emit_all ["/* "; s; " */" +:+ Str.endl] else mret tt.

Lemma comment_brace_delta s :
  brace_delta (concat_strings ["/* "; s; " */" +:+ Str.endl]) = brace_delta s.
Proof.
  cbn [concat_strings].
  rewrite (brace_delta_app "/* "), (brace_delta_app s).
  replace (brace_delta "/* ") with 0 by reflexivity.
  replace (brace_delta ((" */" +:+ Str.endl) +:+ "")) with 0 by reflexivity.
  lia.
Qed.

Lemma comment_never_below_zero s d :
  never_below_zero s d = true ->
  never_below_zero (concat_strings ["/* "; s; " */" +:+ Str.endl]) d = true.
Proof.
  intros Hs. cbn [concat_strings].
  rewrite (never_below_zero_app "/* "), (never_below_zero_app s).
  replace (brace_delta "/* ") with 0 by reflexivity.
  rewrite Z.add_0_r, Hs. reflexivity.
Qed.

(** The text of a comment is streamed as code is.  With [verbose] off
    nothing happens.  With it on, an accepted comment moves the depth by
    the opening minus the closing braces of its text; a text whose closing
    braces never outnumber the depth and the opening braces before them is
    accepted; and after a comment with unbalanced braces, streamed at depth
    zero, the check of [dump] fails. *)
Theorem comment_braces (s : string) (g : CodeGenerator) :
  comment false s g = (Ok tt, g) /\
  (forall g', comment true s g = (Ok tt, g') ->
     current_indent_ g' = current_indent_ g + brace_delta s) /\
  (0 <= current_indent_ g ->
   never_below_zero s (current_indent_ g) = true ->
   exists g', comment true s g = (Ok tt, g')) /\
  (forall g', current_indent_ g = 0 -> brace_delta s <> 0 ->
     comment true s g = (Ok tt, g') ->
     is_error (dump_consistency_check g').1).
Proof.
  assert (Hdepth : forall g', comment true s g = (Ok tt, g') ->
            current_indent_ g' = current_indent_ g + brace_delta s).
  { intros g' H. unfold comment in H.
    apply emit_all_depth in H as [_ Hd].
    by rewrite (Hd eq_refl), comment_brace_delta. }
  split; [done|]. split; [exact Hdepth|]. split.
  - intros Hd Hs. unfold comment. apply emit_all_safe; [done|].
    by apply comment_never_below_zero.
  - intros g' Hzero Hdelta H. apply Hdepth in H.
    unfold dump_consistency_check. rewrite bind_gets.
    assert (Hne : current_indent_ g' <> 0) by lia.
    apply Z.eqb_neq in Hne. by rewrite Hne.
Qed.

Lemma comment_braces_witness :
  (exists g', comment true "case {" (CodeGenerator_init 2) = (Ok tt, g')) /\
  (forall g', comment true "case {" (CodeGenerator_init 2) = (Ok tt, g') ->
     is_error (dump_consistency_check g').1).
Proof.
  destruct (comment_braces "case {" (CodeGenerator_init 2))
    as (_ & _ & Hsafe & Hdump).
  split.
  - apply Hsafe; [done | reflexivity].
  - intros g'. apply Hdump; [reflexivity | done].
Defined.

(** ** Local variables of a generated function *)

(** The members [local_variables_] and [local_default_], which no other
    member function of the two files reads or writes. *)
Record Locals : Type := mkLocals {
  local_variables_ : gmap string (string * string);
  local_default_ : gmap string string
}.

(** [CodeGenerator::local] *)
Definition local (name type ref : string) (l : Locals)
  : result unit * Locals :=
  (* Check if the variable already exists *)
  match local_variables_ l !! name with
  | None =>
      (* Add it *)
      (Ok tt, mkLocals (<[name := (type, ref)]> (local_variables_ l))
                (local_default_ l))
  | Some (type', ref') =>
      (* Consistency check *)
      if negb (String.eqb type' type)
      then (Error ("Type mismatch for " +:+ name), l)
      else if negb (String.eqb ref' ref)
      then (Error ("Type mismatch for " +:+ name), l)
      else (Ok tt, l)
  end.

(** [CodeGenerator::init_local] *)
Definition init_local (name def : string) (l : Locals)
  : result unit * Locals :=
  match local_default_ l !! name with
  | None =>
      (Ok tt, mkLocals (local_variables_ l)
                (<[name := def]> (local_default_ l)))
  | Some _ => (Error (name +:+ " already defined"), l)
  end.

(** A local variable that was declared may be declared again with the same
    type and reference, which changes nothing, and is refused with another
    type or another reference.  A default value is given once: a second
    one is refused, be it the same value.  What is refused leaves the
    tables as they were, and neither table is touched by the function of
    the other. *)
Theorem local_declared_once (name type ref : string) (l l1 : Locals) :
  local name type ref l = (Ok tt, l1) ->
  local_variables_ l1 !! name = Some (type, ref) /\
  local_default_ l1 = local_default_ l /\
  local name type ref l1 = (Ok tt, l1) /\
  (forall type' ref', (type', ref') <> (type, ref) ->
     local name type' ref' l1 = (Error ("Type mismatch for " +:+ name), l1)) /\
  (forall def l2, init_local name def l1 = (Ok tt, l2) ->
     local_variables_ l2 = local_variables_ l1 /\
     local_default_ l2 !! name = Some def /\
     forall def',
       init_local name def' l2 = (Error (name +:+ " already defined"), l2)).
Proof.
  intros H.
  assert (Hl1 : local_variables_ l1 !! name = Some (type, ref) /\
                local_default_ l1 = local_default_ l).
  { unfold local in H.
    destruct (local_variables_ l !! name) as [[type0 ref0]|] eqn:Hl.
    - destruct (String.eqb_spec type0 type) as [->|]; simpl in H; [|done].
      destruct (String.eqb_spec ref0 ref) as [->|]; simpl in H; [|done].
      by injection H as <-.
    - injection H as <-. simpl. by rewrite lookup_insert_eq. }
  destruct Hl1 as [Hv Hd]. split; [done|]. split; [done|].
  split; [|split].
  - unfold local. by rewrite Hv, !String.eqb_refl.
  - intros type' ref' Hne. unfold local. rewrite Hv.
    destruct (String.eqb_spec type type') as [->|]; simpl; [|done].
    destruct (String.eqb_spec ref ref') as [->|]; simpl; done.
  - intros def l2. unfold init_local.
    destruct (local_default_ l1 !! name) eqn:Hdef; [done|].
    intros [= <-]. simpl. rewrite lookup_insert_eq. done.
Qed.

Lemma local_declared_once_witness :
  let l1 := mkLocals {["w" := ("casadi_real"%string, "*"%string)]} ∅ in
  local "w" "casadi_real" "*" l1 = (Ok tt, l1) /\
  local "w" "int" "*" l1 = (Error "Type mismatch for w", l1).
Proof.
  destruct (local_declared_once "w" "casadi_real" "*" (mkLocals ∅ ∅)
              (mkLocals {["w" := ("casadi_real"%string, "*"%string)]} ∅))
    as (_ & _ & Hsame & Hother & _); [reflexivity|].
  split; [exact Hsame | by apply Hother].
Defined.

(** ** The name of the generated file *)

Fixpoint rfind_from (c : ascii) (s : string) (i last : Z) : Z :=
  match s with
  | EmptyString => last
  | String a s' => rfind_from c s' (i + 1) (if Ascii.eqb a c then i else last)
  end.

(** [s.rfind(c)] *)
Definition rfind (s : string) (c : ascii) : Z := rfind_from c s 0 Str.npos.

(** The constructor divides the name it is given into base and suffix:
    the values of [this->name] and [this->suffix]; [cpp] is the option of
    that name. *)
Definition divide_name (cpp : bool) (name : string)
  : result (string * string) :=
  let dotpos := rfind name "." in
  if dotpos =? Str.npos then Ok (name, if cpp then ".cpp" else ".c")
  else
    base ← Str.substr name 0 dotpos;
    suffix ← Str.substr name dotpos Str.npos;
    Ok (base, suffix).

Lemma rfind_from_spec c s : forall i last,
  ((c ∉ list_ascii_of_string s) /\ rfind_from c s i last = last) \/
  (exists a b, s = a +:+ String c b /\ (c ∉ list_ascii_of_string b) /\
     rfind_from c s i last = i + Z.of_nat (String.length a)).
Proof.
  induction s as [|x s IH]; intros i last; simpl.
  - left. split; [apply not_elem_of_nil | done].
  - destruct (IH (i + 1) (if Ascii.eqb x c then i else last))
      as [[Hn Hr]|(a & b & -> & Hb & Hr)].
    + destruct (Ascii.eqb_spec x c) as [->|Hne].
      * right. exists "", s. rewrite Hr. simpl.
        split; [done|]. split; [done|lia].
      * left. split; [|exact Hr]. apply not_elem_of_cons. split; congruence.
    + right. exists (String x a), b. split; [done|]. split; [done|].
      rewrite Hr. simpl String.length. lia.
Qed.

Lemma chars_app (a b : string) :
  list_ascii_of_string (a +:+ b)
  = list_ascii_of_string a ++ list_ascii_of_string b.
Proof.
  induction a as [|c a IH]; [done|]. rewrite string_app_cons. simpl.
  by rewrite IH.
Qed.

Lemma substring_app_l (a r : string) :
  String.substring 0 (String.length a) (a +:+ r) = a.
Proof.
  induction a as [|c a IH]; [apply substring_zero|].
  rewrite string_app_cons. simpl. by rewrite IH.
Qed.

Lemma substring_app_r (a r : string) :
  String.substring (String.length a) (String.length r) (a +:+ r) = r.
Proof.
  induction a as [|c a IH]; [apply substring_all|].
  rewrite string_app_cons. simpl. exact IH.
Qed.

(** The name of the module is divided at its last dot: the suffix is a dot
    and an extension without dot, and base and suffix put together give the
    name back.  A name without dot is the base, with the suffix [.c] or,
    for C++, [.cpp].  Neither [substr] throws. *)
Theorem divide_name_roundtrip (cpp : bool) (name : string) :
  Str.size name < Str.npos ->
  exists base ext,
    divide_name cpp name = Ok (base, "." +:+ ext) /\
    ("."%char ∉ list_ascii_of_string ext) /\
    ("."%char ∈ list_ascii_of_string name -> base +:+ "." +:+ ext = name) /\
    ("."%char ∉ list_ascii_of_string name ->
     base = name /\ ext = if cpp then "cpp" else "c").
Proof.
  intros Hsize. unfold divide_name, rfind.
  destruct (rfind_from_spec "." name 0 Str.npos)
    as [[Hn Hr]|(a & b & Hs & Hb & Hr)].
  - rewrite Hr, Z.eqb_refl. exists name, (if cpp then "cpp" else "c").
    split; [by destruct cpp|]. split; [|done].
    destruct cpp; simpl; rewrite !not_elem_of_cons;
      repeat split; try done; apply not_elem_of_nil.
  - rewrite Hr. clear Hr.
    assert (Hlen : Str.size name
                   = Z.of_nat (String.length a) + 1
                     + Z.of_nat (String.length b)).
    { unfold Str.size. rewrite Hs, string_length_app. simpl. lia. }
    assert (Hne : (0 + Z.of_nat (String.length a) =? Str.npos) = false).
    { apply Z.eqb_neq. lia. }
    rewrite Hne. unfold Str.substr.
    assert (H0 : (Str.size name <? 0) = false) by (apply Z.ltb_ge; lia).
    assert (H1 : (Str.size name <? 0 + Z.of_nat (String.length a)) = false)
      by (apply Z.ltb_ge; lia).
    rewrite H0, H1. cbn [mbind result_bind].
    replace (Z.to_nat (Z.min (0 + Z.of_nat (String.length a))
                         (Str.size name - 0)))
      with (String.length a) by lia.
    replace (Z.to_nat (Z.min Str.npos
                         (Str.size name - (0 + Z.of_nat (String.length a)))))
      with (String.length (String "." b)) by (simpl; lia).
    replace (Z.to_nat (0 + Z.of_nat (String.length a)))
      with (String.length a) by lia.
    change (Z.to_nat 0) with 0%nat.
    rewrite Hs, substring_app_l, substring_app_r.
    exists a, b. split; [done|]. split; [done|]. split; [done|].
    intros Hout. exfalso. apply Hout. rewrite chars_app. simpl.
    apply elem_of_app. right. apply elem_of_cons. by left.
Qed.

Lemma divide_name_roundtrip_witness :
  exists base ext,
    divide_name false "model.v2.c" = Ok (base, "." +:+ ext) /\
    ("."%char ∉ list_ascii_of_string ext) /\
    ("."%char ∈ list_ascii_of_string "model.v2.c" ->
     base +:+ "." +:+ ext = "model.v2.c") /\
    ("."%char ∉ list_ascii_of_string "model.v2.c" ->
     base = "model.v2.c" /\ ext = "c").
Proof.
  apply (divide_name_roundtrip false "model.v2.c"). by vm_compute.
Defined.
